(** * Desert-ranch simulation loop: player controller, hazards, spine effects
      and ambient animals.

    Shallow embedding of [src/game/ranch/*] (CowboyPlayer, Choya,
    BarrelCactus, Horse, Cow, Chicken, RanchGame).

    Numbers.  A JavaScript [number] is modelled as a real ([R]); the
    integer-valued counters of the program ([lives], [Date.now()]
    timestamps, mesh identities) are [Z] / [nat].  Rounding, infinities and
    NaN of IEEE doubles are outside the model.  The input devices are an
    explicit argument of the player's update; [Math.random()] and
    [Date.now()] are read, in program order, from the streams of a small
    state monad ([World.M]). *)

From Stdlib Require Import Reals Lra Lia ZArith List Bool.
From Stdlib Require String.
Import ListNotations.
Import String.StringSyntax.
Delimit Scope string_scope with string.

Open Scope R_scope.

(* ================================================================== *)
(** ** Numbers, [Math] and [THREE.Vector3] *)
(* ================================================================== *)

Module Num.

(** [a < b], [a <= b], [a > b], [a >= b] of the source, as booleans. *)
Definition ltb (a b : R) : bool := if Rlt_dec a b then true else false.
Definition leb (a b : R) : bool := if Rle_dec a b then true else false.
Definition gtb (a b : R) : bool := ltb b a.
Definition geb (a b : R) : bool := leb b a.

(** [Math.max], [Math.min]. *)
Definition Math_max (a b : R) : R := Rmax a b.
Definition Math_min (a b : R) : R := Rmin a b.

(** [Math.atan2(y, x)]: the angle of the point [(x, y)], in (-PI, PI]. *)
Definition Math_atan2 (y x : R) : R :=
  if ltb 0 x then atan (y / x)
  else if ltb x 0 then
    (if leb 0 y then atan (y / x) + PI else atan (y / x) - PI)
  else if ltb 0 y then PI / 2
  else if ltb y 0 then - (PI / 2)
  else 0.

(** [Math.floor] on the non-negative values the program applies it to,
    as a count. *)
Definition Math_floor_nat (r : R) : nat := Z.to_nat (Int_part r).

Record Vector3 : Type := vec3 { vx : R; vy : R; vz : R }.

Definition length (v : Vector3) : R :=
  sqrt (vx v * vx v + vy v * vy v + vz v * vz v).

(** [normalize()] is [divideScalar(length() || 1)]. *)
Definition normalize (v : Vector3) : Vector3 :=
  let l := length v in
  let d := if ltb 0 l then l else 1 in
  vec3 (vx v / d) (vy v / d) (vz v / d).

Definition addScaledVector (v w : Vector3) (s : R) : Vector3 :=
  vec3 (vx v + vx w * s) (vy v + vy w * s) (vz v + vz w * s).

Definition distanceTo (v w : Vector3) : R :=
  let dx := vx v - vx w in
  let dy := vy v - vy w in
  let dz := vz v - vz w in
  sqrt (dx * dx + dy * dy + dz * dz).

End Num.

Import Num.

(* ================================================================== *)
(** ** CowboyPlayer *)
(* ================================================================== *)

Module CowboyPlayer.

(** Player settings (readonly fields). *)
Definition speed : R := 0.12.
Definition jumpForce : R := 0.4.
Definition gravity : R := -0.015.
Definition groundY : R := 0.3.
Definition damageCooldownTime : R := 1.0.

(** The mutable fields of the class that the simulation reads or writes.
    The scene-graph meshes and the colour flash of [takeDamage] (a
    [setTimeout] of 200 ms) carry no simulation state and are left out. *)
Record t : Type := mk {
  position : Vector3;
  velocity : Vector3;
  rotation : R;
  onGround : bool;
  lives : Z;
  cameraRotationY : R;
  cameraRotationX : R;
  damageCooldown : R
}.

(** What [engine.input] and [engine.mobileInput] answer during one call of
    [handleInput]. *)
Record Input : Type := mkInput {
  isMobile : bool;          (* mobileInput.isMobileControlsActive() *)
  joystick : R * R;         (* mobileInput.getJoystickVector(): (x, y) *)
  keyW : bool;
  keyS : bool;
  keyA : bool;
  keyD : bool;
  keySpace : bool;
  jumpPressed : bool;       (* mobileInput.isJumpPressed() *)
  pointerLocked : bool;     (* input.isPointerLocked() *)
  mouseDelta : R * R;       (* input.getMouseDelta() *)
  cameraDelta : R * R       (* mobileInput.getCameraDelta() *)
}.

(** The constructor: standing on the ground at the origin, three lives. *)
Definition create : t :=
  mk (vec3 0 groundY 0) (vec3 0 0 0) 0 false 3 0 0.3 0.

Definition set_position (p : t) (v : Vector3) : t :=
  mk v (velocity p) (rotation p) (onGround p) (lives p)
     (cameraRotationY p) (cameraRotationX p) (damageCooldown p).
Definition set_velocity (p : t) (v : Vector3) : t :=
  mk (position p) v (rotation p) (onGround p) (lives p)
     (cameraRotationY p) (cameraRotationX p) (damageCooldown p).
Definition set_rotation (p : t) (r : R) : t :=
  mk (position p) (velocity p) r (onGround p) (lives p)
     (cameraRotationY p) (cameraRotationX p) (damageCooldown p).
Definition set_onGround (p : t) (b : bool) : t :=
  mk (position p) (velocity p) (rotation p) b (lives p)
     (cameraRotationY p) (cameraRotationX p) (damageCooldown p).
Definition set_lives (p : t) (n : Z) : t :=
  mk (position p) (velocity p) (rotation p) (onGround p) n
     (cameraRotationY p) (cameraRotationX p) (damageCooldown p).
Definition set_camera (p : t) (ry rx : R) : t :=
  mk (position p) (velocity p) (rotation p) (onGround p) (lives p)
     ry rx (damageCooldown p).
Definition set_damageCooldown (p : t) (c : R) : t :=
  mk (position p) (velocity p) (rotation p) (onGround p) (lives p)
     (cameraRotationY p) (cameraRotationX p) c.

Definition set_y (v : Vector3) (y : R) : Vector3 := vec3 (vx v) y (vz v).

(** [moveDirection] as read from the joystick or from the WASD keys. *)
Definition moveDirection (i : Input) : Vector3 :=
  if isMobile i then vec3 (fst (joystick i)) 0 (snd (joystick i))
  else
    let z1 := if keyW i then 0 + 1 else 0 in
    let z2 := if keyS i then z1 - 1 else z1 in
    let x1 := if keyA i then 0 - 1 else 0 in
    let x2 := if keyD i then x1 + 1 else x1 in
    vec3 x2 0 z2.

(** First part of [handleInput]: horizontal displacement and facing. *)
Definition applyMovement (i : Input) (p : t) : t :=
  let md := moveDirection i in
  if gtb (length md) 0 then
    let md := normalize md in
    let angle := cameraRotationY p in
    let forward := vec3 (- sin angle) 0 (- cos angle) in
    let right := vec3 (cos angle) 0 (- sin angle) in
    let w := addScaledVector (vec3 0 0 0) forward (vz md) in
    let w := addScaledVector w right (vx md) in
    let w := normalize w in
    let pos := position p in
    let pos := vec3 (vx pos + vx w * speed) (vy pos) (vz pos + vz w * speed) in
    set_rotation (set_position p pos) (Math_atan2 (vx w) (vz w))
  else p.

Definition shouldJump (i : Input) : bool :=
  if isMobile i then jumpPressed i else keySpace i.

(** Second part of [handleInput]: the jump. *)
Definition applyJump (i : Input) (p : t) : t :=
  if shouldJump i && onGround p then
    set_onGround (set_velocity p (set_y (velocity p) jumpForce)) false
  else p.

Definition clampPitch (rx : R) : R :=
  Math_max (- PI / 3) (Math_min (PI / 3) rx).

(** Third part of [handleInput]: camera look. *)
Definition applyCamera (i : Input) (p : t) : t :=
  if isMobile i then
    let d := cameraDelta i in
    set_camera p (cameraRotationY p - fst d * 0.005)
                 (clampPitch (cameraRotationX p - snd d * 0.005))
  else if pointerLocked i then
    let d := mouseDelta i in
    set_camera p (cameraRotationY p - fst d * 0.002)
                 (clampPitch (cameraRotationX p - snd d * 0.002))
  else p.

Definition handleInput (i : Input) (p : t) : t :=
  applyCamera i (applyJump i (applyMovement i p)).

Definition applyPhysics (p : t) : t :=
  let v := set_y (velocity p) (vy (velocity p) + gravity) in
  let pos := set_y (position p) (vy (position p) + vy v) in
  set_position (set_velocity p v) pos.

Definition checkGroundCollision (p : t) : t :=
  if leb (vy (position p)) groundY then
    set_onGround
      (set_velocity (set_position p (set_y (position p) groundY))
                    (set_y (velocity p) 0))
      true
  else set_onGround p false.

(** The cooldown statement at the head of [update].  The subtraction is
    the exact one; the code's is rounded to the nearest double, so that a
    frame takes between nothing and twice [deltaTime] off the field. *)
Definition tickCooldown (deltaTime : R) (p : t) : t :=
  if gtb (damageCooldown p) 0 then
    set_damageCooldown p (damageCooldown p - deltaTime)
  else p.

(** [update(deltaTime)].  [updateMesh] and [updateCamera] copy the state
    into the scene graph and the camera and change no field of [t]. *)
Definition update (deltaTime : R) (i : Input) (p : t) : t :=
  checkGroundCollision (applyPhysics (handleInput i (tickCooldown deltaTime p))).

(** [takeDamage()]: the new state and the lines written to the console
    (the number of lives in "Took damage! Lives remaining: n"). *)
Definition takeDamage (p : t) : t * list Z :=
  if leb (damageCooldown p) 0 && (0 <? lives p)%Z then
    let p1 := set_lives p (lives p - 1)%Z in
    let p2 := set_damageCooldown p1 damageCooldownTime in
    (p2, [lives p2])
  else (p, []).

Definition getPosition (p : t) : Vector3 := position p.
Definition getRadius : R := 0.4.
Definition getLives (p : t) : Z := lives p.

End CowboyPlayer.

(* ================================================================== *)
(** ** The environment: [Math.random()] and [Date.now()] *)
(* ================================================================== *)

Module World.

(** The successive answers of [Math.random()] and of [Date.now()], with a
    cursor on the next one.  Only the clock reads that reach the
    simulation state are counted (those of the spine effects); the reads
    that drive the sway and leg animations are not.  Likewise [rand] holds
    the answers to the calls of [Math.random()] that the game's own code
    makes; those that three.js makes inside its constructors, for the uuid
    of each new geometry, material and mesh, reach no simulation state and
    are not in it. *)
Record t : Type := mk {
  rand : nat -> R;
  randPos : nat;
  clock : nat -> Z;
  clockPos : nat
}.

Definition M (A : Type) : Type := t -> A * t.

Definition ret {A : Type} (a : A) : M A := fun w => (a, w).

Definition bind {A B : Type} (m : M A) (k : A -> M B) : M B :=
  fun w => let (a, w1) := m w in k a w1.

Definition Math_random : M R :=
  fun w => (rand w (randPos w),
            mk (rand w) (S (randPos w)) (clock w) (clockPos w)).

Definition Date_now : M Z :=
  fun w => (clock w (clockPos w),
            mk (rand w) (randPos w) (clock w) (S (clockPos w))).

(** The clock has not been read between [w] and [w1]. *)
Definition sameClock (w w1 : t) : Prop :=
  clock w1 = clock w /\ clockPos w1 = clockPos w.

(** [n] calls of [Math.random()] whose values are not kept. *)
Fixpoint drawRandom (n : nat) : M unit :=
  match n with
  | O => ret tt
  | S k => bind Math_random (fun _ => drawRandom k)
  end.

(** [for (const x of xs) f(x)] collecting the updated elements. *)
Fixpoint forEach {A : Type} (f : A -> M A) (xs : list A) : M (list A) :=
  match xs with
  | [] => ret []
  | x :: rest =>
      bind (f x) (fun x1 => bind (forEach f rest) (fun rest1 => ret (x1 :: rest1)))
  end.

End World.

Import World.

Declare Scope world_scope.
Delimit Scope world_scope with world.
Notation "x <- m ;; k" := (World.bind m (fun x => k))
  (at level 61, m at next level, right associativity) : world_scope.
Notation "' pat <- m ;; k" := (World.bind m (fun x => match x with pat => k end))
  (at level 61, pat pattern, m at next level, right associativity) : world_scope.

(* ================================================================== *)
(** ** The player's mesh and the spine meshes attached to it *)
(* ================================================================== *)

Module Scene.

(** A spine mesh is an object; it is named by the order of its creation.
    [children] is [playerMesh.children] restricted to spines, [opacity]
    is [mesh.material.opacity], [disposed] lists the meshes whose geometry
    and material have been released. *)
Record t : Type := mk {
  children : list nat;
  opacity : nat -> R;
  disposed : list nat;
  nextMesh : nat
}.

Definition empty : t := mk [] (fun _ => 1) [] 0%nat.

(** [new THREE.Mesh(geometry, material)] with [opacity: 1.0].  (The uuids
    that three.js draws for the new objects are not part of the state.) *)
Definition newSpine (s : t) : nat * t :=
  let id := nextMesh s in
  (id, mk (children s)
          (fun j => if Nat.eqb j id then 1.0 else opacity s j)
          (disposed s) (S id)).

(** [playerMesh.add(spine)]. *)
Definition add (id : nat) (s : t) : t :=
  mk (children s ++ [id]) (opacity s) (disposed s) (nextMesh s).

(** [Object3D.remove]: drops the object from the children, if present. *)
Fixpoint removeFirst (id : nat) (l : list nat) : list nat :=
  match l with
  | [] => []
  | j :: rest => if Nat.eqb j id then rest else j :: removeFirst id rest
  end.

Definition remove (id : nat) (s : t) : t :=
  mk (removeFirst id (children s)) (opacity s) (disposed s) (nextMesh s).

(** [mesh.geometry.dispose(); mesh.material.dispose()]. *)
Definition dispose (id : nat) (s : t) : t :=
  mk (children s) (opacity s) (id :: disposed s) (nextMesh s).

Definition setOpacity (id : nat) (o : R) (s : t) : t :=
  mk (children s)
     (fun j => if Nat.eqb j id then o else opacity s j)
     (disposed s) (nextMesh s).

(** The body of the loop of [createSpineEffect], [spineCount] times: a new
    mesh, the six random numbers that the loop asks for its local offset
    and rotation, attached to the player's mesh and pushed on the
    result. *)
Fixpoint spawnSpines (spineCount : nat) (spines : list nat) (s : t)
  : M (list nat * t) :=
  match spineCount with
  | O => ret (spines, s)
  | S k =>
      let (id, s1) := newSpine s in
      (_ <- drawRandom 6 ;;
       spawnSpines k (spines ++ [id]) (add id s1))%world
  end.

(** What both [createSpineEffect] do to the scene, whatever the number [k]
    of spines: [k] new meshes, attached in order and returned, and no read
    of the clock. *)
Definition spawns (cse : t -> M (list nat * t)) : Prop :=
  forall s w, exists k,
    let r := fst (cse s w) in
    fst r = seq (nextMesh s) k
    /\ children (snd r) = children s ++ seq (nextMesh s) k
    /\ nextMesh (snd r) = (nextMesh s + k)%nat
    /\ disposed (snd r) = disposed s
    /\ World.sameClock w (snd (cse s w)).

End Scene.

(* ================================================================== *)
(** ** Hazards: Choya and BarrelCactus *)
(* ================================================================== *)

(** How [loadModel] ends: the asset is unknown, the load throws, or the
    model arrives. *)
Inductive LoadOutcome : Type := AssetNotFound | LoadFailed | ModelArrived.

Module Choya.

Record t : Type := mk {
  mesh : option Vector3;     (* mesh.position when the mesh exists *)
  position : Vector3;
  size : R;
  collisionRadius : R;
  modelLoaded : bool
}.

(** The constructor, before [loadModel] resolves.  [r] is the value of
    [Math.random()] in the default size. *)
Definition create (pos : Vector3) (configSize : option R) (r : R) : t :=
  let baseScale := 0.35 / 3 in
  let minCowboys := 1 in
  let maxCowboys := 3 in
  let sz := match configSize with
            | Some s => s
            | None => baseScale * (minCowboys + r * (maxCowboys - minCowboys))
            end in
  mk None pos sz 1.2 false.

Definition loadModel (o : LoadOutcome) (c : t) : t :=
  match o with
  | ModelArrived =>
      mk (Some (vec3 (vx (position c)) 0 (vz (position c))))
         (position c) (size c) (1.2 * size c) true
  | _ => c
  end.

Definition checkCollision (c : t) (playerPosition : Vector3) (playerRadius : R)
  : bool :=
  match mesh c with
  | None => false
  | Some mp =>
      if negb (modelLoaded c) then false
      else
        let choyaWorldPos := vec3 (vx mp) (vy mp + 0.6) (vz mp) in
        let distance := distanceTo choyaWorldPos playerPosition in
        let collisionDistance := collisionRadius c + playerRadius in
        ltb distance collisionDistance
  end.

Definition createSpineEffect (s : Scene.t) : M (list nat * Scene.t) :=
  (r <- Math_random ;;
   let spineCount := (3 + Math_floor_nat (r * 3))%nat in
   Scene.spawnSpines spineCount [] s)%world.

End Choya.

Module BarrelCactus.

Record t : Type := mk {
  mesh : option Vector3;
  position : Vector3;
  size : R;
  collisionRadius : R;
  modelLoaded : bool
}.

Definition create (pos : Vector3) (configSize : option R) (r : R) : t :=
  let sz := match configSize with
            | Some s => s
            | None => (0.2 + r * 0.3) / 9
            end in
  mk None pos sz 0.6 false.

Definition loadModel (o : LoadOutcome) (c : t) : t :=
  match o with
  | ModelArrived =>
      mk (Some (vec3 (vx (position c)) 0 (vz (position c))))
         (position c) (size c) (0.6 * size c) true
  | _ => c
  end.

Definition checkCollision (c : t) (playerPosition : Vector3) (playerRadius : R)
  : bool :=
  match mesh c with
  | None => false
  | Some mp =>
      if negb (modelLoaded c) then false
      else
        let cactusWorldPos := vec3 (vx mp) (vy mp + 0.3 * size c) (vz mp) in
        let distance := distanceTo cactusWorldPos playerPosition in
        let collisionDistance := collisionRadius c + playerRadius in
        ltb distance collisionDistance
  end.

Definition createSpineEffect (s : Scene.t) : M (list nat * Scene.t) :=
  (r <- Math_random ;;
   let spineCount := (1 + Math_floor_nat (r * 2))%nat in
   Scene.spawnSpines spineCount [] s)%world.

End BarrelCactus.

(* ================================================================== *)
(** ** Ambient animals: Horse, Cow, Chicken *)
(* ================================================================== *)

Module Animal.

Record t : Type := mk {
  position : Vector3;
  wanderDirection : R;
  wanderTimer : R
}.

(** The constructor; [r] is the value of [Math.random()] for the first
    heading. *)
Definition create (pos : Vector3) (r : R) : t := mk pos (r * PI * 2) 0.

Definition maxDistance : R := 80.

(** The wander code shared, up to its three literals, by the [update] of
    the three classes: [wanderTimer > base + Math.random() * range] and
    [const speed]. *)
Definition wander (base range speed : R) (deltaTime : R) (a : t) : M t :=
  (let timer := wanderTimer a + deltaTime in
   r1 <- Math_random ;;
   '(dir, timer) <-
      (if gtb timer (base + r1 * range)
       then (r2 <- Math_random ;; ret (r2 * PI * 2, 0))
       else ret (wanderDirection a, timer)) ;;
   let x := vx (position a) + sin dir * speed in
   let z := vz (position a) + cos dir * speed in
   let distanceFromOrigin := sqrt (x ^ 2 + z ^ 2) in
   let dir :=
     if gtb distanceFromOrigin maxDistance
     then Math_atan2 (- x) (- z)
     else dir in
   ret (mk (vec3 x (vy (position a)) z) dir timer))%world.

End Animal.

Module Horse.
Definition speed : R := 0.02.
Definition update (deltaTime : R) (a : Animal.t) : M Animal.t :=
  Animal.wander 3 4 speed deltaTime a.
End Horse.

Module Cow.
Definition speed : R := 0.01.
Definition update (deltaTime : R) (a : Animal.t) : M Animal.t :=
  Animal.wander 4 5 speed deltaTime a.
End Cow.

Module Chicken.
Definition speed : R := 0.015.
Definition update (deltaTime : R) (a : Animal.t) : M Animal.t :=
  Animal.wander 1 2 speed deltaTime a.
End Chicken.

(** The three kinds of animal, to speak of them together. *)
Module Species.

Inductive t : Type := horse | cow | chicken.

Definition update (sp : t) : R -> Animal.t -> M Animal.t :=
  match sp with
  | horse => Horse.update
  | cow => Cow.update
  | chicken => Chicken.update
  end.

Definition speed (sp : t) : R :=
  match sp with
  | horse => Horse.speed
  | cow => Cow.speed
  | chicken => Chicken.speed
  end.

(** The threshold on [wanderTimer] is [base + Math.random() * range]. *)
Definition base (sp : t) : R :=
  match sp with horse => 3 | cow => 4 | chicken => 1 end.

Definition range (sp : t) : R :=
  match sp with horse => 4 | cow => 5 | chicken => 2 end.

End Species.

(* ================================================================== *)
(** ** RanchGame *)
(* ================================================================== *)

Module RanchGame.

Record SpineData : Type := mkSpine {
  mesh : nat;
  startTime : Z;
  fadeDuration : Z
}.

(** What the lives display shows. *)
Inductive LivesText : Type :=
| Blank
| Vidas (n : Z)
| GameOver.

Record t : Type := mk {
  player : CowboyPlayer.t;
  choyas : list Choya.t;
  barrelCacti : list BarrelCactus.t;
  horses : list Animal.t;
  cows : list Animal.t;
  chickens : list Animal.t;
  livesUI : option LivesText;
  activeSpines : list SpineData;
  scene : Scene.t;
  console : list Z          (* lives printed by "Took damage!" lines *)
}.

Definition set_player (g : t) (p : CowboyPlayer.t) : t :=
  mk p (choyas g) (barrelCacti g) (horses g) (cows g) (chickens g)
     (livesUI g) (activeSpines g) (scene g) (console g).
Definition set_livesUI (g : t) (u : option LivesText) : t :=
  mk (player g) (choyas g) (barrelCacti g) (horses g) (cows g) (chickens g)
     u (activeSpines g) (scene g) (console g).
Definition set_activeSpines (g : t) (l : list SpineData) : t :=
  mk (player g) (choyas g) (barrelCacti g) (horses g) (cows g) (chickens g)
     (livesUI g) l (scene g) (console g).
Definition set_scene (g : t) (s : Scene.t) : t :=
  mk (player g) (choyas g) (barrelCacti g) (horses g) (cows g) (chickens g)
     (livesUI g) (activeSpines g) s (console g).
Definition set_console (g : t) (c : list Z) : t :=
  mk (player g) (choyas g) (barrelCacti g) (horses g) (cows g) (chickens g)
     (livesUI g) (activeSpines g) (scene g) c.
Definition set_animals (g : t) (hs cs ks : list Animal.t) : t :=
  mk (player g) (choyas g) (barrelCacti g) hs cs ks
     (livesUI g) (activeSpines g) (scene g) (console g).

Definition updateLivesUI (g : t) : t :=
  match livesUI g with
  | Some _ =>
      let lives := CowboyPlayer.getLives (player g) in
      if (lives <=? 0)%Z then set_livesUI g (Some GameOver)
      else set_livesUI g (Some (Vidas lives))
  | None => g
  end.

(** The body of [if (cactus.checkCollision(playerPos, playerRadius))], the
    same for both loops but for the cactus's [createSpineEffect]. *)
Definition onCollision
    (createSpineEffect : Scene.t -> M (list nat * Scene.t)) (g : t) : M t :=
  (let (p, out) := CowboyPlayer.takeDamage (player g) in
   let g := set_console (set_player g p) (console g ++ out) in
   let g := updateLivesUI g in
   '(spines, s) <- createSpineEffect (scene g) ;;
   now <- Date_now ;;
   let g := set_scene g s in
   ret (set_activeSpines g
          (activeSpines g ++ map (fun spine => mkSpine spine now 3000) spines))
  )%world.

(** [for (const choya of this.choyas) { ... }]; [choya.update] only sways
    the mesh. *)
Fixpoint choyaLoop (cs : list Choya.t) (g : t) : M t :=
  match cs with
  | [] => ret g
  | choya :: rest =>
      let playerPos := CowboyPlayer.getPosition (player g) in
      let playerRadius := CowboyPlayer.getRadius in
      if Choya.checkCollision choya playerPos playerRadius
      then (g1 <- onCollision Choya.createSpineEffect g ;; choyaLoop rest g1)%world
      else choyaLoop rest g
  end.

Fixpoint barrelLoop (cs : list BarrelCactus.t) (g : t) : M t :=
  match cs with
  | [] => ret g
  | barrelCactus :: rest =>
      let playerPos := CowboyPlayer.getPosition (player g) in
      let playerRadius := CowboyPlayer.getRadius in
      if BarrelCactus.checkCollision barrelCactus playerPos playerRadius
      then (g1 <- onCollision BarrelCactus.createSpineEffect g ;;
            barrelLoop rest g1)%world
      else barrelLoop rest g
  end.

(** [this.activeSpines.splice(i, 1)]. *)
Definition splice1 {A : Type} (i : nat) (l : list A) : list A :=
  firstn i l ++ skipn (S i) l.

(** [for (let i = length - 1; i >= 0; i--)]: [n] is [i + 1].  The index
    is always inside the array ([n] starts at its length and a splice at
    [i] leaves the indices below [i] alone), so the read of
    [activeSpines[i]] never misses. *)
Fixpoint ageSpines (now : Z) (n : nat) (g : t) : t :=
  match n with
  | O => g
  | S i =>
      match nth_error (activeSpines g) i with
      | None => ageSpines now i g
      | Some spineData =>
          let elapsed := (now - startTime spineData)%Z in
          if (elapsed >=? fadeDuration spineData)%Z then
            let s := Scene.remove (mesh spineData) (scene g) in
            let s := Scene.dispose (mesh spineData) s in
            let g := set_scene g s in
            ageSpines now i (set_activeSpines g (splice1 i (activeSpines g)))
          else
            let opacity := 1.0 - IZR elapsed / IZR (fadeDuration spineData) in
            ageSpines now i
              (set_scene g (Scene.setOpacity (mesh spineData) opacity (scene g)))
      end
  end.

(** [update(deltaTime)], first part: the player, then the two cactus
    loops.  [i] is the input read by the player's update. *)
Definition hazardPhase (deltaTime : R) (i : CowboyPlayer.Input) (g : t) : M t :=
  (let g := set_player g (CowboyPlayer.update deltaTime i (player g)) in
   g <- choyaLoop (choyas g) g ;;
   barrelLoop (barrelCacti g) g)%world.

(** Second part: the fade of the active spines. *)
Definition spinePhase (g : t) : M t :=
  (now <- Date_now ;;
   ret (ageSpines now (List.length (activeSpines g)) g))%world.

(** Third part: the animals. *)
Definition animalPhase (deltaTime : R) (g : t) : M t :=
  (hs <- forEach (Horse.update deltaTime) (horses g) ;;
   cs <- forEach (Cow.update deltaTime) (cows g) ;;
   ks <- forEach (Chicken.update deltaTime) (chickens g) ;;
   ret (set_animals g hs cs ks))%world.

Definition update (deltaTime : R) (i : CowboyPlayer.Input) (g : t) : M t :=
  (g <- hazardPhase deltaTime i g ;;
   g <- spinePhase g ;;
   animalPhase deltaTime g)%world.

(** The spine part of [dispose()]: every active spine is detached and
    released, and the array is emptied.  The release of the player, the
    cacti, the animals and the lives display that follows is not part of
    the simulation state. *)
Fixpoint purgeSpines (l : list SpineData) (s : Scene.t) : Scene.t :=
  match l with
  | [] => s
  | spineData :: rest =>
      purgeSpines rest
        (Scene.dispose (mesh spineData) (Scene.remove (mesh spineData) s))
  end.

Definition dispose (g : t) : t :=
  let s := purgeSpines (activeSpines g) (scene g) in
  set_activeSpines (set_scene g s) [].

(** *** Notions used to state the properties of a frame *)

(** The player after [n] successive calls of [takeDamage()], and what they
    printed. *)
Fixpoint hits (n : nat) (p : CowboyPlayer.t) : CowboyPlayer.t * list Z :=
  match n with
  | O => (p, [])
  | S k =>
      let (p1, out1) := CowboyPlayer.takeDamage p in
      let (p2, out2) := hits k p1 in
      (p2, out1 ++ out2)
  end.

(** The cacti of the game that a player at [pos] collides with. *)
Definition collidingChoyas (g : t) (pos : Vector3) : list Choya.t :=
  filter (fun c => Choya.checkCollision c pos CowboyPlayer.getRadius) (choyas g).

Definition collidingBarrels (g : t) (pos : Vector3) : list BarrelCactus.t :=
  filter (fun c => BarrelCactus.checkCollision c pos CowboyPlayer.getRadius)
         (barrelCacti g).

Definition collisions (g : t) (pos : Vector3) : nat :=
  (List.length (collidingChoyas g pos) + List.length (collidingBarrels g pos))%nat.

(** [elapsed < fadeDuration] at time [now]. *)
Definition fading (now : Z) (sd : SpineData) : bool :=
  (now - startTime sd <? fadeDuration sd)%Z.

(** The opacity the fade gives a spine at time [now]. *)
Definition fadeOpacity (now : Z) (sd : SpineData) : R :=
  1.0 - IZR (now - startTime sd) / IZR (fadeDuration sd).

(** What the fade loop does to the scene for one spine, and for a list of
    spines in the order the loop visits them. *)
Definition fadeStep (now : Z) (s : Scene.t) (sd : SpineData) : Scene.t :=
  if fading now sd
  then Scene.setOpacity (mesh sd) (fadeOpacity now sd) s
  else Scene.dispose (mesh sd) (Scene.remove (mesh sd) s).

Definition ageScene (now : Z) (l : list SpineData) (s : Scene.t) : Scene.t :=
  fold_left (fadeStep now) l s.

(** Spine meshes are distinct objects, each attached once, all created
    before the next one to come. *)
Definition wf (g : t) : Prop :=
  NoDup (map mesh (activeSpines g))
  /\ NoDup (Scene.children (scene g))
  /\ Forall (fun id => (id < Scene.nextMesh (scene g))%nat)
            (map mesh (activeSpines g))
  /\ Forall (fun id => (id < Scene.nextMesh (scene g))%nat)
            (Scene.children (scene g)).

(** [g1] is [g] with [k] more spines, new meshes attached in order. *)
Definition extends (g g1 : t) : Prop :=
  exists (new : list SpineData) (k : nat),
    activeSpines g1 = activeSpines g ++ new
    /\ map mesh new = seq (Scene.nextMesh (scene g)) k
    /\ Scene.children (scene g1)
       = Scene.children (scene g) ++ seq (Scene.nextMesh (scene g)) k
    /\ Scene.nextMesh (scene g1) = (Scene.nextMesh (scene g) + k)%nat
    /\ Scene.disposed (scene g1) = Scene.disposed (scene g).

(** What a loop over cacti leaves: as many calls of [takeDamage()] and reads
    of the clock as there are colliding cacti, and more spines. *)
Definition loopResult (n : nat) (g : t) (w : World.t) (r : t * World.t) : Prop :=
  player (fst r) = fst (hits n (player g))
  /\ console (fst r) = console g ++ snd (hits n (player g))
  /\ choyas (fst r) = choyas g
  /\ barrelCacti (fst r) = barrelCacti g
  /\ World.clock (snd r) = World.clock w
  /\ World.clockPos (snd r) = (World.clockPos w + n)%nat
  /\ extends g (fst r).

(** The game as the constructor leaves it, for the given cacti and animals:
    a fresh player, no spine. *)
Definition create (cs : list Choya.t) (bs : list BarrelCactus.t)
    (hs cws ks : list Animal.t) : t :=
  updateLivesUI
    (mk CowboyPlayer.create cs bs hs cws ks (Some Blank) [] Scene.empty []).

End RanchGame.

(* ================================================================== *)
(** ** Runs of the player: ticks and hits in any order *)
(* ================================================================== *)

Module Run.

Import CowboyPlayer.

(** What can happen to the player: a frame ([update]) or a call of
    [takeDamage] by the game. *)
Inductive Event : Type :=
| Tick (deltaTime : R) (i : Input)
| Damage.

Definition step (p : t) (e : Event) : t :=
  match e with
  | Tick deltaTime i => update deltaTime i p
  | Damage => fst (takeDamage p)
  end.

Definition run (es : list Event) (p : t) : t := fold_left step es p.

(** Seconds of simulation time spent in a list of events. *)
Fixpoint elapsed (es : list Event) : R :=
  match es with
  | [] => 0
  | Tick deltaTime _ :: rest => deltaTime + elapsed rest
  | Damage :: rest => elapsed rest
  end.

(** Every frame of the list lasts between 0 and [D] seconds. *)
Fixpoint framesWithin (D : R) (es : list Event) : Prop :=
  match es with
  | [] => True
  | Tick deltaTime _ :: rest => 0 <= deltaTime <= D /\ framesWithin D rest
  | Damage :: rest => framesWithin D rest
  end.

(** Time does not run backwards: every frame has [deltaTime >= 0]. *)
Fixpoint forward (es : list Event) : Prop :=
  match es with
  | [] => True
  | Tick deltaTime _ :: rest => 0 <= deltaTime /\ forward rest
  | Damage :: rest => forward rest
  end.

(** Every call of [takeDamage()] in [es], run from [p], is made while the
    cooldown is running: it finds [damageCooldown > 0]. *)
Fixpoint cooling (es : list Event) (p : t) : Prop :=
  match es with
  | [] => True
  | Tick deltaTime i :: rest => cooling rest (update deltaTime i p)
  | Damage :: rest => damageCooldown p > 0 /\ cooling rest (fst (takeDamage p))
  end.

(** An input with every key released and every device idle. *)
Definition idle : Input :=
  mkInput false (0, 0) false false false false false false false (0, 0) (0, 0).

(** A sequence of [takeDamage()] calls given by the frames between one
    call and the next: [Damage], frames, [Damage], frames, ... *)
Fixpoint calls (gaps : list (list R)) : list Event :=
  match gaps with
  | [] => [Damage]
  | gap :: rest => Damage :: map (fun d => Tick d idle) gap ++ calls rest
  end.

Definition sum (l : list R) : R := fold_right Rplus 0 l.

(** Consecutive calls are less than the cooldown time apart. *)
Definition closelySpaced (gaps : list (list R)) : Prop :=
  Forall (fun gap => Forall (fun d => 0 <= d) gap /\ sum gap < damageCooldownTime)
         gaps.

(** No jump and no movement is asked for. *)
Definition quiet (i : Input) : Prop :=
  shouldJump i = false /\ length (moveDirection i) = 0.

(** [n] frames of [update] with the inputs [ins]. *)
Definition frames (ins : list (R * Input)) (p : t) : t :=
  fold_left (fun q di => update (fst di) (snd di) q) ins p.

(** The resting state on the ground plane. *)
Definition grounded (p : t) : Prop :=
  vy (position p) = groundY /\ vy (velocity p) = 0 /\ onGround p = true.

(** A number of frames after which a fall from height [y] has ended. *)
Definition settleBound (y : R) : nat :=
  S (Z.to_nat (up ((y - groundY) / - gravity))).

End Run.

(* ================================================================== *)
(** ** CowboyPlayer: the camera, and quantities of the flight *)
(* ================================================================== *)

Module CowboyCamera.

(** Camera settings (fields that no method assigns). *)
Definition cameraDistance : R := 8.
Definition cameraHeight : R := 4.

(** What [updateCamera] leaves in [engine.camera]: its position and the
    point it looks at. *)
Record t : Type := mk {
  camPosition : Vector3;
  camTarget : Vector3
}.

Definition updateCamera (p : CowboyPlayer.t) : t :=
  let ry := CowboyPlayer.cameraRotationY p in
  let rx := CowboyPlayer.cameraRotationX p in
  let ox := sin ry * cos rx * cameraDistance in
  let oy := sin rx * cameraDistance + cameraHeight in
  let oz := cos ry * cos rx * cameraDistance in
  let pos := CowboyPlayer.position p in
  let c := vec3 (vx pos + ox) (vy pos + oy) (vz pos + oz) in
  let c := if ltb (vy c) 0.5 then vec3 (vx c) 0.5 (vz c) else c in
  mk c pos.

End CowboyCamera.

Module Flight.

Import CowboyPlayer.

(** Twice the gravity times the height, plus the square of the vertical
    speed corrected by half a step: the quantity that
    [velocity.y += gravity; position.y += velocity.y] keeps. *)
Definition energy (p : t) : R :=
  2 * - gravity * vy (position p)
  + vy (velocity p) * vy (velocity p) + gravity * vy (velocity p).

(** Its value at take-off: on the ground with [velocity.y = jumpForce]. *)
Definition energyAtJump : R :=
  2 * - gravity * groundY + jumpForce * jumpForce + gravity * jumpForce.

(** What every frame and every hit keeps, from the start of the game. *)
Definition inv (p : t) : Prop :=
  groundY <= vy (position p)
  /\ energy p <= energyAtJump
  /\ (onGround p = true -> vy (position p) = groundY /\ vy (velocity p) = 0).

(** Lives lost over a run. *)
Definition lost (es : list Run.Event) (p : t) : Z :=
  (lives p - lives (Run.run es p))%Z.

End Flight.

Module Steering.

Import CowboyPlayer.

(** The direction of travel that [handleInput] computes from the input and
    the camera yaw ([worldMoveDirection] after its [normalize()]). *)
Definition worldMoveDirection (i : Input) (angle : R) : Vector3 :=
  let md := normalize (moveDirection i) in
  let forward := vec3 (- sin angle) 0 (- cos angle) in
  let right := vec3 (cos angle) 0 (- sin angle) in
  let w := addScaledVector (vec3 0 0 0) forward (vz md) in
  let w := addScaledVector w right (vx md) in
  normalize w.

End Steering.

Module Keys.

Import CowboyPlayer.

(** The four movement keys. *)
Inductive t : Type := KeyW | KeyS | KeyA | KeyD.

(** The desktop input with exactly one movement key held; the space bar,
    the pointer lock and the mouse are as given. *)
Definition press (k : t) (space locked : bool) (mouse : R * R) : Input :=
  mkInput false (0, 0)
    (match k with KeyW => true | _ => false end)
    (match k with KeyS => true | _ => false end)
    (match k with KeyA => true | _ => false end)
    (match k with KeyD => true | _ => false end)
    space false locked mouse (0, 0).

End Keys.

(* ================================================================== *)
(** ** RanchGame: notions for the display and the spine meshes *)
(* ================================================================== *)

Module Display.

Import RanchGame.

(** What [updateLivesUI] writes for a player with [n] lives. *)
Definition textFor (n : Z) : LivesText :=
  if (n <=? 0)%Z then GameOver else Vidas n.

(** The lives display, when there is one, shows the lives the player has. *)
Definition shows (g : t) : Prop :=
  match livesUI g with
  | Some txt => txt = textFor (CowboyPlayer.lives (player g))
  | None => True
  end.

(** The spines attached to the player's mesh are the active ones, in the
    same order. *)
Definition attached (g : t) : Prop :=
  Scene.children (scene g) = map mesh (activeSpines g).

(** No released mesh is still an active spine, and released meshes are old
    ones. *)
Definition intact (g : t) : Prop :=
  forall id, In id (Scene.disposed (scene g)) ->
    (id < Scene.nextMesh (scene g))%nat /\ ~ In id (map mesh (activeSpines g)).

End Display.

(* ================================================================== *)
(** ** Animals: notions for the wander boundary *)
(* ================================================================== *)

Module Wandering.

(** [distanceFromOrigin] of an animal, as [update] computes it. *)
Definition dist (a : Animal.t) : R :=
  sqrt (vx (Animal.position a) ^ 2 + vz (Animal.position a) ^ 2).

(** The heading is the one [update] sets beyond the boundary: towards the
    origin. *)
Definition inward (a : Animal.t) : Prop :=
  Animal.wanderDirection a
  = Math_atan2 (- vx (Animal.position a)) (- vz (Animal.position a)).

(** Successive frames of one animal. *)
Fixpoint frames (sp : Species.t) (dts : list R) (a : Animal.t) : M Animal.t :=
  match dts with
  | [] => World.ret a
  | deltaTime :: rest =>
      World.bind (Species.update sp deltaTime a) (fun a1 => frames sp rest a1)
  end.

(** Inside the boundary; or at most one step outside and heading inward; or
    at most two steps outside, heading inward, with the timer just reset. *)
Definition inv (sp : Species.t) (a : Animal.t) : Prop :=
  dist a <= Animal.maxDistance
  \/ (dist a <= Animal.maxDistance + Species.speed sp /\ inward a)
  \/ (dist a <= Animal.maxDistance + 2 * Species.speed sp /\ inward a
      /\ Animal.wanderTimer a = 0).

End Wandering.

(* ================================================================== *)
(** ** The engine: Input, MobileInput and the render loop *)
(* ================================================================== *)

Module Input.

(** [keys] holds the own properties of the [keys] object, which the
    constructor makes as [{}]; [locked], [movementX], [movementY] are the
    [mouse] state. *)
Record t : Type := mk {
  keys : String.string -> option bool;
  locked : bool;
  movementX : R;
  movementY : R
}.

Definition create : t := mk (fun _ => None) false 0 0.

(** The members that [{}] inherits from [Object.prototype]: functions, and
    the accessor [__proto__]. *)
Definition prototypeNames : list String.string :=
  ["constructor"; "hasOwnProperty"; "isPrototypeOf"; "propertyIsEnumerable";
   "toLocaleString"; "toString"; "valueOf"; "__proto__";
   "__defineGetter__"; "__defineSetter__";
   "__lookupGetter__"; "__lookupSetter__"]%string.

Definition inherited (code : String.string) : bool :=
  existsb (String.eqb code) prototypeNames.

(** The events the constructor listens to.  [PointerLockChange b] carries
    [document.pointerLockElement === canvas]. *)
Inductive Event : Type :=
| KeyDown (code : String.string)
| KeyUp (code : String.string)
| PointerLockChange (onCanvas : bool)
| MouseMove (movementX movementY : R).

(** [this.keys[code] = b].  The assignment makes an own property, which
    hides an inherited function of the same name; for [__proto__] it calls
    the inherited setter, which ignores a boolean. *)
Definition setKey (code : String.string) (b : bool) (st : t) : t :=
  if String.eqb code "__proto__" then st
  else
    mk (fun c => if String.eqb c code then Some b else keys st c)
       (locked st) (movementX st) (movementY st).

Definition handle (st : t) (e : Event) : t :=
  match e with
  | KeyDown code => setKey code true st
  | KeyUp code => setKey code false st
  | PointerLockChange b => mk (keys st) b (movementX st) (movementY st)
  | MouseMove mx my =>
      if locked st then mk (keys st) (locked st) mx my else st
  end.

(** [this.keys[code] || false], as the condition its callers use it for:
    where no own property exists and a member is inherited, the code
    returns that member, a function or an object, which counts as true. *)
Definition isKeyPressed (st : t) (code : String.string) : bool :=
  match keys st code with
  | Some b => b
  | None => inherited code
  end.

Definition isPointerLocked (st : t) : bool := locked st.

Definition getMouseDelta (st : t) : R * R := (movementX st, movementY st).

Definition resetMouseDelta (st : t) : t := mk (keys st) (locked st) 0 0.

(** Whether an event is a key event for [code]. *)
Definition touchesKey (code : String.string) (e : Event) : bool :=
  match e with
  | KeyDown c | KeyUp c => String.eqb c code
  | _ => false
  end.

End Input.

Module MobileInput.

Record Touch : Type := mkTouch {
  identifier : Z;
  clientX : R;
  clientY : R
}.

(** [getBoundingClientRect()] of the joystick element. *)
Record Rect : Type := mkRect {
  left : R;
  top : R;
  width : R;
  height : R
}.

(** The fields of the class, and [controlsShown]: whether the element
    [#mobile-controls] has [display: block]. *)
Record t : Type := mk {
  joystickActive : bool;
  joystickCenter : R * R;
  joystickCurrent : R * R;
  joystickTouchId : option Z;
  cameraTouchId : option Z;
  lastCameraTouch : R * R;
  cameraDelta : R * R;
  jumpPressed : bool;
  controlsShown : bool
}.

(** [updateControlsVisibility]: shown on a portrait screen narrower than
    768 pixels. *)
Definition updateControlsVisibility (innerWidth innerHeight : R) (st : t) : t :=
  let isPortrait := gtb innerHeight innerWidth in
  let isMobile := ltb innerWidth 768 in
  mk (joystickActive st) (joystickCenter st) (joystickCurrent st)
     (joystickTouchId st) (cameraTouchId st) (lastCameraTouch st)
     (cameraDelta st) (jumpPressed st) (isPortrait && isMobile).

(** The constructor, in a window of the given size. *)
Definition create (innerWidth innerHeight : R) : t :=
  updateControlsVisibility innerWidth innerHeight
    (mk false (0, 0) (0, 0) None None (0, 0) (0, 0) false false).

Definition set_joystick (st : t) (active : bool) (center current : R * R)
    (id : option Z) : t :=
  mk active center current id (cameraTouchId st) (lastCameraTouch st)
     (cameraDelta st) (jumpPressed st) (controlsShown st).

Definition set_camera (st : t) (id : option Z) (last delta : R * R) : t :=
  mk (joystickActive st) (joystickCenter st) (joystickCurrent st)
     (joystickTouchId st) id last delta (jumpPressed st) (controlsShown st).

Definition set_jump (st : t) (b : bool) : t :=
  mk (joystickActive st) (joystickCenter st) (joystickCurrent st)
     (joystickTouchId st) (cameraTouchId st) (lastCameraTouch st)
     (cameraDelta st) b (controlsShown st).

Definition maxDistance : R := 35.

Definition updateJoystickPosition (touchX touchY : R) (st : t) : t :=
  let dx := touchX - fst (joystickCenter st) in
  let dy := touchY - snd (joystickCenter st) in
  let distance := sqrt (dx * dx + dy * dy) in
  let finalX := if gtb distance maxDistance then dx / distance * maxDistance else dx in
  let finalY := if gtb distance maxDistance then dy / distance * maxDistance else dy in
  set_joystick st (joystickActive st) (joystickCenter st)
    (finalX / maxDistance, finalY / maxDistance) (joystickTouchId st).

(** The first touch of the list with the given identifier: what the
    [for] loops with [break] look for. *)
Fixpoint findTouch (id : option Z) (touches : list Touch) : option Touch :=
  match touches with
  | [] => None
  | touch :: rest =>
      match id with
      | Some n => if Z.eqb (identifier touch) n then Some touch
                  else findTouch id rest
      | None => findTouch id rest
      end
  end.

(** [touch] is [e.changedTouches[0]]. *)
Definition handleJoystickStart (touch : Touch) (rect : Rect) (st : t) : t :=
  match joystickTouchId st with
  | Some _ => st
  | None =>
      let center := (left rect + width rect / 2, top rect + height rect / 2) in
      let st := set_joystick st true center (joystickCurrent st)
                  (Some (identifier touch)) in
      updateJoystickPosition (clientX touch) (clientY touch) st
  end.

Definition handleJoystickMove (changedTouches : list Touch) (st : t) : t :=
  if negb (joystickActive st) then st
  else
    match findTouch (joystickTouchId st) changedTouches with
    | Some touch => updateJoystickPosition (clientX touch) (clientY touch) st
    | None => st
    end.

Definition handleJoystickEnd (changedTouches : list Touch) (st : t) : t :=
  match findTouch (joystickTouchId st) changedTouches with
  | Some _ => set_joystick st false (joystickCenter st) (0, 0) None
  | None => st
  end.

(** [onControls] is [target.closest('#mobile-controls')] being found;
    [touch] is [e.touches[0]]. *)
Definition handleCameraTouchStart (onControls : bool) (touch : Touch) (st : t) : t :=
  if onControls then st
  else
    match cameraTouchId st with
    | Some _ => st
    | None =>
        set_camera st (Some (identifier touch)) (clientX touch, clientY touch)
          (cameraDelta st)
    end.

Definition handleCameraTouchMove (touches : list Touch) (st : t) : t :=
  match cameraTouchId st with
  | None => st
  | Some _ =>
      match findTouch (cameraTouchId st) touches with
      | Some touch =>
          set_camera st (cameraTouchId st) (clientX touch, clientY touch)
            (clientX touch - fst (lastCameraTouch st),
             clientY touch - snd (lastCameraTouch st))
      | None => st
      end
  end.

Definition handleCameraTouchEnd (changedTouches : list Touch) (st : t) : t :=
  match findTouch (cameraTouchId st) changedTouches with
  | Some _ => set_camera st None (lastCameraTouch st) (0, 0)
  | None => st
  end.

(** The calls of the listeners, one per event and listener. *)
Inductive Event : Type :=
| JoystickStart (touch : Touch) (rect : Rect)
| JoystickMove (changedTouches : list Touch)
| JoystickEnd (changedTouches : list Touch)
| JumpStart
| JumpEnd
| CameraStart (onControls : bool) (touch : Touch)
| CameraMove (touches : list Touch)
| CameraEnd (changedTouches : list Touch)
| Resize (innerWidth innerHeight : R).

Definition handle (st : t) (e : Event) : t :=
  match e with
  | JoystickStart touch rect => handleJoystickStart touch rect st
  | JoystickMove l => handleJoystickMove l st
  | JoystickEnd l => handleJoystickEnd l st
  | JumpStart => set_jump st true
  | JumpEnd => set_jump st false
  | CameraStart onControls touch => handleCameraTouchStart onControls touch st
  | CameraMove l => handleCameraTouchMove l st
  | CameraEnd l => handleCameraTouchEnd l st
  | Resize w h => updateControlsVisibility w h st
  end.


Definition isMobileControlsActive (st : t) : bool := controlsShown st.

Definition getJoystickVector (st : t) : R * R :=
  (fst (joystickCurrent st), - snd (joystickCurrent st)).

Definition isJumpPressed (st : t) : bool := jumpPressed st.

Definition consumeJump (st : t) : bool * t := (jumpPressed st, set_jump st false).

Definition getCameraDelta (st : t) : (R * R) * t :=
  (cameraDelta st, set_camera st (cameraTouchId st) (lastCameraTouch st) (0, 0)).

End MobileInput.

Module Devices.

(** What [CowboyPlayer.handleInput] reads from [engine.input] and
    [engine.mobileInput], and the mobile input after the reading: on mobile
    the call of [getCameraDelta()] clears the camera delta. *)
Definition read (inp : Input.t) (mob : MobileInput.t)
  : CowboyPlayer.Input * MobileInput.t :=
  let isMobile := MobileInput.isMobileControlsActive mob in
  let i :=
    CowboyPlayer.mkInput isMobile
      (MobileInput.getJoystickVector mob)
      (Input.isKeyPressed inp "KeyW"%string)
      (Input.isKeyPressed inp "KeyS"%string)
      (Input.isKeyPressed inp "KeyA"%string)
      (Input.isKeyPressed inp "KeyD"%string)
      (Input.isKeyPressed inp "Space"%string)
      (MobileInput.isJumpPressed mob)
      (Input.isPointerLocked inp)
      (Input.getMouseDelta inp)
      (fst (MobileInput.getCameraDelta mob)) in
  (i, if isMobile then snd (MobileInput.getCameraDelta mob) else mob).

End Devices.

Module Engine.

(** The fields of the engine that the loop uses.  The frame request, the
    renderer and the scene are not part of the simulation state. *)
Record t : Type := mk {
  lastTime : R;
  input : Input.t;
  mobileInput : MobileInput.t;
  game : option RanchGame.t
}.

Definition isZero (x : R) : bool := if Req_EM_T x 0 then true else false.

(** [this.lastTime ? (time - this.lastTime) / 1000 : 0]. *)
Definition deltaTime (time last : R) : R :=
  if isZero last then 0 else (time - last) / 1000.

(** [animate(time)]: update the game, then clear the mouse delta. *)
Definition animate (time : R) (e : t) : M t :=
  let dt := deltaTime time (lastTime e) in
  match game e with
  | Some g =>
      let (i, mob) := Devices.read (input e) (mobileInput e) in
      (g1 <- RanchGame.update dt i g ;;
       World.ret (mk time (Input.resetMouseDelta (input e)) mob (Some g1)))%world
  | None =>
      World.ret (mk time (Input.resetMouseDelta (input e)) (mobileInput e) None)
  end.

(** [run(game)]; a game still running is stopped and dropped first. *)
Definition run (g : RanchGame.t) (e : t) : M t :=
  animate 0 (mk 0 (input e) (mobileInput e) (Some g)).

(** The events of the devices between two frames. *)
Inductive Event : Type :=
| OfInput (ev : Input.Event)
| OfMobile (ev : MobileInput.Event).

Definition handle (e : t) (ev : Event) : t :=
  match ev with
  | OfInput x => mk (lastTime e) (Input.handle (input e) x) (mobileInput e) (game e)
  | OfMobile x =>
      mk (lastTime e) (input e) (MobileInput.handle (mobileInput e) x) (game e)
  end.

(** Frame times that are positive and do not decrease, from [prev] on. *)
Fixpoint ticking (prev : R) (ts : list R) : Prop :=
  match ts with
  | [] => True
  | time :: rest => 0 < time /\ prev <= time /\ ticking time rest
  end.

(** The gaps between successive frame times, in seconds, from [prev] on. *)
Fixpoint gaps (prev : R) (ts : list R) : list R :=
  match ts with
  | [] => []
  | time :: rest => (time - prev) / 1000 :: gaps time rest
  end.

(** The game updated once for each element of [ds], with that element as
    [deltaTime]: the devices are read by the update, and the mouse delta
    is cleared after it. *)
Fixpoint updates (ds : list R) (inp : Input.t) (mob : MobileInput.t)
    (g : RanchGame.t) : M (Input.t * MobileInput.t * RanchGame.t) :=
  match ds with
  | [] => World.ret (inp, mob, g)
  | d :: rest =>
      let (i, mob1) := Devices.read inp mob in
      (g1 <- RanchGame.update d i g ;;
       updates rest (Input.resetMouseDelta inp) mob1 g1)%world
  end.

(** Successive frames, with nothing happening in between. *)
Fixpoint frames (ts : list R) (e : t) : M t :=
  match ts with
  | [] => World.ret e
  | time :: rest => World.bind (animate time e) (fun e1 => frames rest e1)
  end.

End Engine.

(* ================================================================== *)
(** ** The platformer: [Platform], [Player], [Ingredient] *)
(* ================================================================== *)

Module Platform.

Record Config : Type := mkConfig {
  position : Vector3;
  size : Vector3
}.

Record Bounds : Type := mkBounds {
  min : Vector3;
  max : Vector3
}.

(** The box of the platform is all that the simulation keeps of it. *)
Record t : Type := mk { bounds : Bounds }.

(** The constructor: the box is centred on [config.position]. *)
Definition create (config : Config) : t :=
  mk (mkBounds
        (vec3 (vx (position config) - vx (size config) / 2)
              (vy (position config) - vy (size config) / 2)
              (vz (position config) - vz (size config) / 2))
        (vec3 (vx (position config) + vx (size config) / 2)
              (vy (position config) + vy (size config) / 2)
              (vz (position config) + vz (size config) / 2))).

Definition getBounds (p : t) : Bounds := bounds p.

End Platform.

Module Player.

(** Player settings (readonly fields). *)
Definition speed : R := 0.1.
Definition jumpForce : R := 0.4.
Definition gravity : R := -0.015.

(** The mutable fields of the class.  Of the meshes in the player's group
    only the heights are kept: [collectedIngredients] holds [position.y]
    of each ingredient mesh, in the order of the [push] calls. *)
Record t : Type := mk {
  position : Vector3;
  velocity : Vector3;
  rotation : R;
  onGround : bool;
  cameraRotationY : R;
  cameraRotationX : R;
  collectedIngredients : list R;
  ingredientStackHeight : R;
  bunTopY : R;
  indicatorY : R
}.

Definition create : t :=
  mk (vec3 0 2 0) (vec3 0 0 0) 0 false 0 0.3 [] 0 0.25 0.25.

Definition set_position (p : t) (v : Vector3) : t :=
  mk v (velocity p) (rotation p) (onGround p) (cameraRotationY p)
     (cameraRotationX p) (collectedIngredients p) (ingredientStackHeight p)
     (bunTopY p) (indicatorY p).
Definition set_velocity (p : t) (v : Vector3) : t :=
  mk (position p) v (rotation p) (onGround p) (cameraRotationY p)
     (cameraRotationX p) (collectedIngredients p) (ingredientStackHeight p)
     (bunTopY p) (indicatorY p).
Definition set_rotation (p : t) (r : R) : t :=
  mk (position p) (velocity p) r (onGround p) (cameraRotationY p)
     (cameraRotationX p) (collectedIngredients p) (ingredientStackHeight p)
     (bunTopY p) (indicatorY p).
Definition set_onGround (p : t) (b : bool) : t :=
  mk (position p) (velocity p) (rotation p) b (cameraRotationY p)
     (cameraRotationX p) (collectedIngredients p) (ingredientStackHeight p)
     (bunTopY p) (indicatorY p).
Definition set_camera (p : t) (ry rx : R) : t :=
  mk (position p) (velocity p) (rotation p) (onGround p) ry rx
     (collectedIngredients p) (ingredientStackHeight p)
     (bunTopY p) (indicatorY p).

(** [handleInput], line for line that of [CowboyPlayer] but for [speed]. *)
Definition applyMovement (i : CowboyPlayer.Input) (p : t) : t :=
  let md := CowboyPlayer.moveDirection i in
  if gtb (length md) 0 then
    let md := normalize md in
    let angle := cameraRotationY p in
    let forward := vec3 (- sin angle) 0 (- cos angle) in
    let right := vec3 (cos angle) 0 (- sin angle) in
    let w := addScaledVector (vec3 0 0 0) forward (vz md) in
    let w := addScaledVector w right (vx md) in
    let w := normalize w in
    let pos := position p in
    let pos := vec3 (vx pos + vx w * speed) (vy pos) (vz pos + vz w * speed) in
    set_rotation (set_position p pos) (Math_atan2 (vx w) (vz w))
  else p.

Definition applyJump (i : CowboyPlayer.Input) (p : t) : t :=
  if CowboyPlayer.shouldJump i && onGround p then
    set_onGround
      (set_velocity p (CowboyPlayer.set_y (velocity p) jumpForce)) false
  else p.

Definition applyCamera (i : CowboyPlayer.Input) (p : t) : t :=
  if CowboyPlayer.isMobile i then
    let d := CowboyPlayer.cameraDelta i in
    set_camera p (cameraRotationY p - fst d * 0.005)
      (CowboyPlayer.clampPitch (cameraRotationX p - snd d * 0.005))
  else if CowboyPlayer.pointerLocked i then
    let d := CowboyPlayer.mouseDelta i in
    set_camera p (cameraRotationY p - fst d * 0.002)
      (CowboyPlayer.clampPitch (cameraRotationX p - snd d * 0.002))
  else p.

Definition handleInput (i : CowboyPlayer.Input) (p : t) : t :=
  applyCamera i (applyJump i (applyMovement i p)).

(** Gravity, then the reset to the spawn point below [y = -10]. *)
Definition applyPhysics (p : t) : t :=
  let v := CowboyPlayer.set_y (velocity p) (vy (velocity p) + gravity) in
  let pos := CowboyPlayer.set_y (position p) (vy (position p) + vy v) in
  if ltb (vy pos) (-10) then
    set_velocity (set_position p (vec3 0 5 0)) (vec3 0 0 0)
  else set_position (set_velocity p v) pos.

Definition playerRadius : R := 0.5.

(** The horizontal test of [checkCollisions]. *)
Definition overlaps (pos : Vector3) (b : Platform.Bounds) : bool :=
  gtb (vx pos + playerRadius) (vx (Platform.min b))
  && ltb (vx pos - playerRadius) (vx (Platform.max b))
  && gtb (vz pos + playerRadius) (vz (Platform.min b))
  && ltb (vz pos - playerRadius) (vz (Platform.max b)).

(** The vertical test: the bottom of the bun is inside the box and the
    player is not rising.  The comparisons are on exact values; those of
    the code are on doubles, a few units in the last place away. *)
Definition lands (p : t) (b : Platform.Bounds) : bool :=
  let playerBottom := vy (position p) - 0.3 in
  leb playerBottom (vy (Platform.max b))
  && geb playerBottom (vy (Platform.min b))
  && leb (vy (velocity p)) 0.

(** The body of the loop of [checkCollisions]. *)
Definition collide (p : t) (platform : Platform.t) : t :=
  let b := Platform.getBounds platform in
  if overlaps (position p) b then
    if lands p b then
      set_onGround
        (set_velocity
           (set_position p
              (CowboyPlayer.set_y (position p) (vy (Platform.max b) + 0.3)))
           (CowboyPlayer.set_y (velocity p) 0))
        true
    else p
  else p.

Definition checkCollisions (platforms : list Platform.t) (p : t) : t :=
  fold_left collide platforms (set_onGround p false).

(** [update(deltaTime, platforms)]; [updateMesh] and [updateCamera] change
    no field of [t]. *)
Definition update (i : CowboyPlayer.Input) (platforms : list Platform.t)
    (p : t) : t :=
  checkCollisions platforms (applyPhysics (handleInput i p)).

(** [addIngredient(ingredientMesh, height)]. *)
Definition addIngredient (height : R) (p : t) : t :=
  let y := ingredientStackHeight p + height / 2 in
  let h := ingredientStackHeight p + height in
  mk (position p) (velocity p) (rotation p) (onGround p) (cameraRotationY p)
     (cameraRotationX p) (collectedIngredients p ++ [y]) h
     (h + 0.1) (h + 0.15).

Definition getPosition (p : t) : Vector3 := position p.
Definition getRadius : R := 0.5.

(** Successive frames over the same platforms. *)
Fixpoint run (inputs : list CowboyPlayer.Input) (platforms : list Platform.t)
    (p : t) : t :=
  match inputs with
  | [] => p
  | i :: rest => run rest platforms (update i platforms p)
  end.

(** Successive calls of [addIngredient]. *)
Definition stack (heights : list R) (p : t) : t :=
  fold_left (fun q h => addIngredient h q) heights p.

(** The sum of a list of heights. *)
Definition total (heights : list R) : R := fold_right Rplus 0 heights.

(** A state in which the player rests on top of the box [b]. *)
Definition restsOn (p : t) (b : Platform.Bounds) : Prop :=
  onGround p = true
  /\ vy (velocity p) = 0
  /\ vy (position p) = vy (Platform.max b) + 0.3.

End Player.

Module Ingredient.

Inductive IngredientType : Type :=
| LETTUCE | BACON | CHEESE | TOMATO | PICKLE | ONION.

(** [INGREDIENT_CONFIGS[type].height]. *)
Definition configHeight (ty : IngredientType) : R :=
  match ty with
  | LETTUCE => 0.15
  | BACON => 0.1
  | CHEESE => 0.12
  | TOMATO => 0.2
  | PICKLE => 0.3
  | ONION => 0.2
  end.

Definition rotationSpeed : R := 0.02.
Definition floatSpeed : R := 0.001.

(** The fields of the class; of the mesh, its position, its turn and
    whether it is in the scene. *)
Record t : Type := mk {
  type : IngredientType;
  position : Vector3;
  meshPosition : Vector3;
  meshRotationY : R;
  floatOffset : R;
  collected : bool;
  inScene : bool;
  disposed : bool
}.

Definition create (ty : IngredientType) (pos : Vector3) : M t :=
  (r <- Math_random ;;
   World.ret (mk ty pos pos 0 (r * PI * 2) false true false))%world.

Definition update (deltaTime : R) (it : t) : t :=
  if collected it then it
  else
    let off := floatOffset it + floatSpeed in
    mk (type it) (position it)
       (CowboyPlayer.set_y (meshPosition it) (vy (position it) + sin off * 0.1))
       (meshRotationY it + rotationSpeed) off
       (collected it) (inScene it) (disposed it).

Definition collect (it : t) : t :=
  mk (type it) (position it) (meshPosition it) (meshRotationY it)
     (floatOffset it) true false (disposed it).

Definition checkCollision (playerPosition : Vector3) (playerRadius : R)
    (it : t) : bool * t :=
  if collected it then (false, it)
  else
    let distance := distanceTo (meshPosition it) playerPosition in
    let collectDistance := playerRadius + 0.3 in
    if ltb distance collectDistance then (true, collect it)
    else (false, it).

Definition isCollected (it : t) : bool := collected it.
Definition getType (it : t) : IngredientType := type it.
Definition getHeight (it : t) : R := configHeight (type it).

(** [dispose()] frees the mesh only of an ingredient not collected. *)
Definition dispose (it : t) : t :=
  if negb (collected it) then
    mk (type it) (position it) (meshPosition it) (meshRotationY it)
       (floatOffset it) (collected it) false true
  else it.

(** The calls a game makes on an ingredient. *)
Inductive Call : Type :=
| Update (deltaTime : R)
| CheckCollision (playerPosition : Vector3) (playerRadius : R).

(** A sequence of calls: the answers of the [checkCollision] calls, in
    order, and the ingredient at the end. *)
Fixpoint calls (cs : list Call) (it : t) : list bool * t :=
  match cs with
  | [] => ([], it)
  | Update dt :: rest => calls rest (update dt it)
  | CheckCollision pos r :: rest =>
      let (b, it1) := checkCollision pos r it in
      let (bs, it2) := calls rest it1 in
      (b :: bs, it2)
  end.

(** How many of the answers are [true]. *)
Definition collections (bs : list bool) : nat := count_occ bool_dec bs true.

End Ingredient.

(* ================================================================== *)
(** * Properties *)
(* ================================================================== *)

(** ** Comparisons *)

Lemma ltb_true_iff (a b : R) : ltb a b = true <-> a < b.
Proof. unfold ltb. destruct (Rlt_dec a b); split; intros; try easy. Qed.

Lemma ltb_false_iff (a b : R) : ltb a b = false <-> b <= a.
Proof.
  unfold ltb. destruct (Rlt_dec a b); split; intros; try easy; lra.
Qed.

Lemma leb_true_iff (a b : R) : leb a b = true <-> a <= b.
Proof. unfold leb. destruct (Rle_dec a b); split; intros; try easy. Qed.

Lemma leb_false_iff (a b : R) : leb a b = false <-> b < a.
Proof.
  unfold leb. destruct (Rle_dec a b); split; intros; try easy; lra.
Qed.

Lemma gtb_true_iff (a b : R) : gtb a b = true <-> a > b.
Proof. unfold gtb. rewrite ltb_true_iff. lra. Qed.

Lemma gtb_false_iff (a b : R) : gtb a b = false <-> a <= b.
Proof. unfold gtb. apply ltb_false_iff. Qed.

(** Bounds on quotients and square roots by products. *)
Lemma div_lt_bound (a c z : R) : 0 < c -> a < z * c -> a / c < z.
Proof.
  intros Hc H. apply Rmult_lt_reg_r with c; [assumption|].
  replace (a / c * c) with a by (field; lra). assumption.
Qed.

Lemma div_ge_bound (a c z : R) : 0 < c -> z * c <= a -> z <= a / c.
Proof.
  intros Hc H. apply Rmult_le_reg_r with c; [assumption|].
  replace (a / c * c) with a by (field; lra). assumption.
Qed.

Lemma sqrt_lt_bound (x c : R) : 0 <= x -> 0 < c -> x < c * c -> sqrt x < c.
Proof.
  intros Hx Hc H. rewrite <- (sqrt_square c) by lra.
  apply sqrt_lt_1_alt. lra.
Qed.

(** Decides a comparison of the program once its truth is provable by
    linear arithmetic. *)
Ltac cmp_true :=
  first [ apply ltb_true_iff | apply leb_true_iff | apply gtb_true_iff ];
  try lra.
Ltac cmp_false :=
  first [ apply ltb_false_iff | apply leb_false_iff | apply gtb_false_iff ];
  try lra.

(** Case analysis on the first comparison found in the goal. *)
Ltac case_cmp :=
  match goal with
  | |- context [ltb ?a ?b] =>
      let H := fresh "Hcmp" in
      destruct (ltb a b) eqn:H;
      [apply ltb_true_iff in H | apply ltb_false_iff in H]
  | |- context [leb ?a ?b] =>
      let H := fresh "Hcmp" in
      destruct (leb a b) eqn:H;
      [apply leb_true_iff in H | apply leb_false_iff in H]
  | |- context [gtb ?a ?b] =>
      let H := fresh "Hcmp" in
      destruct (gtb a b) eqn:H;
      [apply gtb_true_iff in H | apply gtb_false_iff in H]
  end.

(** ** The damage gate *)

Section TakeDamage.

Import CowboyPlayer.

Lemma takeDamage_rejected (p : t) :
  damageCooldown p > 0 \/ (lives p <= 0)%Z -> takeDamage p = (p, []).
Proof.
  intros H. unfold takeDamage.
  destruct H as [H | H].
  - replace (leb (damageCooldown p) 0) with false; [reflexivity|].
    symmetry. cmp_false.
  - replace (0 <? lives p)%Z with false by (symmetry; apply Z.ltb_ge; lia).
    now rewrite andb_false_r.
Qed.

Lemma takeDamage_accepted (p : t) :
  damageCooldown p <= 0 -> (0 < lives p)%Z ->
  takeDamage p =
    (set_damageCooldown (set_lives p (lives p - 1)) damageCooldownTime,
     [(lives p - 1)%Z]).
Proof.
  intros Hc Hl. unfold takeDamage.
  replace (leb (damageCooldown p) 0) with true by (symmetry; cmp_true).
  replace (0 <? lives p)%Z with true by (symmetry; apply Z.ltb_lt; lia).
  reflexivity.
Qed.

Lemma takeDamage_lives_cases (p : t) :
  lives (fst (takeDamage p)) = lives p
  \/ ((0 < lives p)%Z /\ lives (fst (takeDamage p)) = (lives p - 1)%Z).
Proof.
  unfold takeDamage.
  destruct (leb (damageCooldown p) 0); simpl; auto.
  destruct (0 <? lives p)%Z eqn:E; simpl; auto.
  apply Z.ltb_lt in E. auto.
Qed.

Lemma tickCooldown_lives dt p : lives (tickCooldown dt p) = lives p.
Proof. unfold tickCooldown. now destruct (gtb _ _). Qed.

Lemma handleInput_lives i p : lives (handleInput i p) = lives p.
Proof.
  unfold handleInput, applyCamera, applyJump, applyMovement.
  repeat match goal with
         | |- context [if ?b then _ else _] => destruct b
         end; reflexivity.
Qed.

Lemma handleInput_damageCooldown i p :
  damageCooldown (handleInput i p) = damageCooldown p.
Proof.
  unfold handleInput, applyCamera, applyJump, applyMovement.
  repeat match goal with
         | |- context [if ?b then _ else _] => destruct b
         end; reflexivity.
Qed.

Lemma physics_lives p : lives (checkGroundCollision (applyPhysics p)) = lives p.
Proof. unfold checkGroundCollision. now destruct (leb _ _). Qed.

Lemma physics_damageCooldown p :
  damageCooldown (checkGroundCollision (applyPhysics p)) = damageCooldown p.
Proof. unfold checkGroundCollision. now destruct (leb _ _). Qed.

Lemma update_lives dt i p : lives (update dt i p) = lives p.
Proof.
  unfold update.
  now rewrite physics_lives, handleInput_lives, tickCooldown_lives.
Qed.

Lemma update_damageCooldown dt i p :
  damageCooldown (update dt i p) = damageCooldown (tickCooldown dt p).
Proof.
  unfold update.
  now rewrite physics_damageCooldown, handleInput_damageCooldown.
Qed.

Lemma step_lives_cases p e :
  lives (Run.step p e) = lives p
  \/ ((0 < lives p)%Z /\ lives (Run.step p e) = (lives p - 1)%Z).
Proof.
  destruct e as [dt i|]; simpl.
  - left. apply update_lives.
  - apply takeDamage_lives_cases.
Qed.

Lemma run_lives_nonneg es : forall p,
  (0 <= lives p)%Z -> (0 <= lives (Run.run es p) <= lives p)%Z.
Proof.
  induction es as [|e es IH]; intros p Hp; simpl.
  - lia.
  - change (0 <= lives (Run.run es (Run.step p e)) <= lives p)%Z.
    destruct (step_lives_cases p e) as [E | [Hpos E]];
      assert (Hq : (0 <= lives (Run.step p e))%Z) by lia;
      specialize (IH _ Hq); lia.
Qed.

End TakeDamage.

(** The first hit of a game takes the third life and prints "2"; a second
    hit right after it is rejected. *)
Example first_hit_then_rejected :
  let p1 := fst (CowboyPlayer.takeDamage CowboyPlayer.create) in
  CowboyPlayer.lives p1 = 2%Z
  /\ snd (CowboyPlayer.takeDamage CowboyPlayer.create) = [2%Z]
  /\ CowboyPlayer.takeDamage p1 = (p1, []).
Proof.
  cbv zeta.
  rewrite (takeDamage_accepted CowboyPlayer.create) by (simpl; (lra || lia)).
  simpl fst. simpl snd. split; [reflexivity | split; [reflexivity |]].
  apply takeDamage_rejected. left. simpl.
  unfold CowboyPlayer.damageCooldownTime. lra.
Qed.

(** C1.  [takeDamage()] changes nothing (neither [lives] nor the cooldown,
    and it prints nothing) when the cooldown is positive or no life is left;
    otherwise it takes exactly one life and sets the cooldown to
    [damageCooldownTime], which is one second.  Hence over any sequence of
    frames and [takeDamage()] calls [lives] never becomes negative, and a
    player with no life left stays so. *)
Theorem C1_takeDamage_gate (p : CowboyPlayer.t) :
  (0 <= CowboyPlayer.lives p)%Z ->
  (CowboyPlayer.damageCooldown p > 0 \/ CowboyPlayer.lives p = 0%Z ->
     CowboyPlayer.takeDamage p = (p, []))
  /\ (~ (CowboyPlayer.damageCooldown p > 0 \/ CowboyPlayer.lives p = 0%Z) ->
      let p' := fst (CowboyPlayer.takeDamage p) in
      CowboyPlayer.lives p' = (CowboyPlayer.lives p - 1)%Z
      /\ CowboyPlayer.damageCooldown p' = CowboyPlayer.damageCooldownTime
      /\ CowboyPlayer.damageCooldownTime = 1)
  /\ (forall es, (0 <= CowboyPlayer.lives (Run.run es p))%Z)
  /\ (CowboyPlayer.lives p = 0%Z ->
      forall es, CowboyPlayer.lives (Run.run es p) = 0%Z).
Proof.
  intros Hnat.
  assert (Hacc : ~ (CowboyPlayer.damageCooldown p > 0 \/ CowboyPlayer.lives p = 0%Z) ->
                 CowboyPlayer.damageCooldown p <= 0 /\ (0 < CowboyPlayer.lives p)%Z).
  { intros H. split; [lra | ].
    destruct (Z.eq_dec (CowboyPlayer.lives p) 0); [tauto | lia]. }
  split; [| split; [| split]].
  - intros [H | H]; apply takeDamage_rejected; [left | right]; [assumption | lia].
  - intros H. destruct (Hacc H) as [Hc Hl].
    rewrite takeDamage_accepted by assumption. simpl.
    unfold CowboyPlayer.damageCooldownTime. repeat split; lra.
  - intros es. apply run_lives_nonneg. assumption.
  - intros H0 es. pose proof (run_lives_nonneg es p Hnat). lia.
Qed.

Lemma C1_takeDamage_gate_witness :
  (CowboyPlayer.damageCooldown CowboyPlayer.create > 0
   \/ CowboyPlayer.lives CowboyPlayer.create = 0%Z ->
     CowboyPlayer.takeDamage CowboyPlayer.create = (CowboyPlayer.create, []))
  /\ (~ (CowboyPlayer.damageCooldown CowboyPlayer.create > 0
         \/ CowboyPlayer.lives CowboyPlayer.create = 0%Z) ->
      let p' := fst (CowboyPlayer.takeDamage CowboyPlayer.create) in
      CowboyPlayer.lives p' = (CowboyPlayer.lives CowboyPlayer.create - 1)%Z
      /\ CowboyPlayer.damageCooldown p' = CowboyPlayer.damageCooldownTime
      /\ CowboyPlayer.damageCooldownTime = 1)
  /\ (forall es, (0 <= CowboyPlayer.lives (Run.run es CowboyPlayer.create))%Z)
  /\ (CowboyPlayer.lives CowboyPlayer.create = 0%Z ->
      forall es, CowboyPlayer.lives (Run.run es CowboyPlayer.create) = 0%Z).
Proof.
  apply (C1_takeDamage_gate CowboyPlayer.create). simpl. lia.
Defined.

(** ** The cooldown *)

Section Cooldown.

Import CowboyPlayer.

Lemma tickCooldown_running dt p :
  damageCooldown p > 0 ->
  damageCooldown (tickCooldown dt p) = damageCooldown p - dt.
Proof.
  intros H. unfold tickCooldown.
  replace (gtb (damageCooldown p) 0) with true by (symmetry; cmp_true).
  reflexivity.
Qed.

Lemma tickCooldown_expired dt p :
  damageCooldown p <= 0 -> tickCooldown dt p = p.
Proof.
  intros H. unfold tickCooldown.
  replace (gtb (damageCooldown p) 0) with false by (symmetry; cmp_false).
  reflexivity.
Qed.

Lemma update_cooldown_running dt i p :
  damageCooldown p > 0 ->
  damageCooldown (update dt i p) = damageCooldown p - dt.
Proof.
  intros H. rewrite update_damageCooldown. now apply tickCooldown_running.
Qed.

Lemma update_cooldown_expired dt i p :
  damageCooldown p <= 0 ->
  damageCooldown (update dt i p) = damageCooldown p.
Proof.
  intros H. rewrite update_damageCooldown. now rewrite tickCooldown_expired.
Qed.

Lemma takeDamage_cooldown_cases p :
  damageCooldown (fst (takeDamage p)) = damageCooldown p
  \/ damageCooldown (fst (takeDamage p)) = damageCooldownTime.
Proof.
  unfold takeDamage.
  destruct (leb (damageCooldown p) 0 && (0 <? lives p)%Z); simpl; auto.
Qed.

Lemma run_cooldown_floor D es : forall p,
  0 <= D -> Run.framesWithin D es ->
  - D <= damageCooldown p -> - D <= damageCooldown (Run.run es p).
Proof.
  intros p HD. revert p.
  induction es as [|e es IH]; intros p Hes Hp; simpl; [assumption|].
  change (- D <= damageCooldown (Run.run es (Run.step p e))).
  destruct e as [dt i|]; simpl in Hes |- *.
  - destruct Hes as [Hdt Hes]. apply IH; [assumption|].
    destruct (Rlt_dec 0 (damageCooldown p)) as [Hc | Hc].
    + rewrite update_cooldown_running by lra. lra.
    + rewrite update_cooldown_expired by lra. assumption.
  - apply IH; [assumption|].
    destruct (takeDamage_cooldown_cases p) as [E | E]; rewrite E;
      [assumption | unfold damageCooldownTime; lra].
Qed.

Lemma elapsed_nonneg es : Run.forward es -> 0 <= Run.elapsed es.
Proof.
  induction es as [|[dt i|] es IH]; simpl; intros H.
  - lra.
  - destruct H as [Hdt H]. specialize (IH H). lra.
  - auto.
Qed.

(** Calls made while the cooldown runs take no life. *)
Lemma run_cooling es : forall p,
  Run.cooling es p -> lives (Run.run es p) = lives p.
Proof.
  induction es as [|e es IH]; intros p H; [reflexivity|].
  change (lives (Run.run es (Run.step p e)) = lives p).
  destruct e as [dt i|]; simpl in H |- *.
  - rewrite IH by exact H. apply update_lives.
  - destruct H as [Hc H].
    rewrite takeDamage_rejected in H |- * by (left; lra). simpl in H |- *.
    now apply IH.
Qed.

(** With the exact subtraction: while the cooldown outlasts the frames
    still to come, every call is made while it runs. *)
Lemma elapsed_cooling es : forall p,
  Run.forward es -> Run.elapsed es < damageCooldown p -> Run.cooling es p.
Proof.
  induction es as [|e es IH]; intros p Hf He; [exact I|].
  destruct e as [dt i|]; simpl in Hf, He |- *.
  - destruct Hf as [Hdt Hf]. pose proof (elapsed_nonneg es Hf) as Hn.
    apply IH; [assumption|].
    rewrite update_cooldown_running by lra. lra.
  - pose proof (elapsed_nonneg es Hf) as Hn.
    split; [lra|].
    rewrite takeDamage_rejected by (left; lra). simpl.
    now apply IH.
Qed.

End Cooldown.

(** C4, as the code has it.  A frame subtracts [deltaTime] from the
    cooldown when the cooldown is positive, and leaves it alone otherwise;
    the result is not floored at 0.  For [deltaTime >= 0] the cooldown never
    grows during a frame and, starting from a non-negative value, ends no
    lower than [- deltaTime]; over any run whose frames last at most [D]
    seconds it stays at or above [- D]. *)
Theorem C4_cooldown_tick (deltaTime : R) (i : CowboyPlayer.Input) (p : CowboyPlayer.t) :
  0 <= deltaTime ->
  let c := CowboyPlayer.damageCooldown p in
  let c' := CowboyPlayer.damageCooldown (CowboyPlayer.update deltaTime i p) in
  (c > 0 -> c' = c - deltaTime)
  /\ (c <= 0 -> c' = c)
  /\ c' <= c
  /\ (0 <= c -> - deltaTime <= c')
  /\ (forall D es, 0 <= D -> Run.framesWithin D es -> - D <= c ->
        - D <= CowboyPlayer.damageCooldown (Run.run es p)).
Proof.
  intros Hdt c c'. subst c c'.
  split; [| split; [| split; [| split]]].
  - apply update_cooldown_running.
  - apply update_cooldown_expired.
  - destruct (Rlt_dec 0 (CowboyPlayer.damageCooldown p)) as [Hc | Hc].
    + rewrite update_cooldown_running by lra. lra.
    + rewrite update_cooldown_expired by lra. lra.
  - intros H0.
    destruct (Rlt_dec 0 (CowboyPlayer.damageCooldown p)) as [Hc | Hc].
    + rewrite update_cooldown_running by lra. lra.
    + rewrite update_cooldown_expired by lra. lra.
  - intros D es HD Hes Hc. now apply run_cooldown_floor.
Qed.

Lemma C4_cooldown_tick_witness :
  0 <= 0.016
  /\ let c := CowboyPlayer.damageCooldown CowboyPlayer.create in
     let c' := CowboyPlayer.damageCooldown
                 (CowboyPlayer.update 0.016 Run.idle CowboyPlayer.create) in
     (c > 0 -> c' = c - 0.016)
     /\ (c <= 0 -> c' = c)
     /\ c' <= c
     /\ (0 <= c -> - (0.016) <= c')
     /\ (forall D es, 0 <= D -> Run.framesWithin D es -> - D <= c ->
           - D <= CowboyPlayer.damageCooldown (Run.run es CowboyPlayer.create)).
Proof.
  split; [lra | apply (C4_cooldown_tick 0.016 Run.idle CowboyPlayer.create); lra].
Defined.

(** C4 as stated fails: after a hit (cooldown 1.0) and a frame of 0.6 s the
    cooldown is 0.4; one more frame of 0.6 s leaves it at -0.2. *)
Lemma C4_cooldown_negative :
  let p := Run.run [Run.Damage; Run.Tick 0.6 Run.idle] CowboyPlayer.create in
  0 <= 0.6
  /\ 0 <= CowboyPlayer.damageCooldown p
  /\ CowboyPlayer.damageCooldown (CowboyPlayer.update 0.6 Run.idle p) < 0.
Proof.
  cbv zeta. unfold Run.run. simpl fold_left.
  rewrite (takeDamage_accepted CowboyPlayer.create) by (simpl; (lra || lia)).
  simpl fst.
  set (p1 := CowboyPlayer.set_damageCooldown _ _).
  assert (H1 : CowboyPlayer.damageCooldown p1 = 1) by (simpl; unfold CowboyPlayer.damageCooldownTime; lra).
  assert (H2 : CowboyPlayer.damageCooldown (CowboyPlayer.update 0.6 Run.idle p1) = 0.4).
  { rewrite update_cooldown_running by lra. lra. }
  split; [lra | split; [lra |]].
  rewrite update_cooldown_running by lra. lra.
Qed.

(** C3, as the code has it.  The window that protects the player is the
    field [damageCooldown], not the time between consecutive calls.  Once a
    call of [takeDamage()] has counted (cooldown expired, a life left), the
    field is [damageCooldownTime], and whatever frames and calls follow, as
    long as every call is made while the field is still positive, [lives]
    has gone down by exactly 1.  Frames (each with [deltaTime >= 0]) that
    add up to less than half of [damageCooldownTime] never use the field
    up.  The bound on the frame time is half the cooldown time and not the
    whole of it because the code's [damageCooldown -= deltaTime] is a
    rounded subtraction, which can take up to twice [deltaTime] off the
    field: sixty frames of 1/60 s leave it just below 0. *)
Theorem C3_one_hit_per_cooldown (p : CowboyPlayer.t) (es : list Run.Event) :
  CowboyPlayer.damageCooldown p <= 0 ->
  (0 < CowboyPlayer.lives p)%Z ->
  let p1 := fst (CowboyPlayer.takeDamage p) in
  CowboyPlayer.damageCooldown p1 = CowboyPlayer.damageCooldownTime
  /\ (Run.cooling es p1 ->
      CowboyPlayer.lives (Run.run (Run.Damage :: es) p)
      = (CowboyPlayer.lives p - 1)%Z)
  /\ (Run.forward es ->
      Run.elapsed es < CowboyPlayer.damageCooldownTime / 2 ->
      Run.cooling es p1).
Proof.
  intros Hc Hl p1.
  assert (E1 : CowboyPlayer.damageCooldown p1 = CowboyPlayer.damageCooldownTime
               /\ CowboyPlayer.lives p1 = (CowboyPlayer.lives p - 1)%Z).
  { unfold p1. rewrite takeDamage_accepted by assumption. split; reflexivity. }
  destruct E1 as [Ec El].
  split; [exact Ec|]. split.
  - intros Hcool.
    change (Run.run (Run.Damage :: es) p) with (Run.run es p1).
    rewrite run_cooling by exact Hcool. exact El.
  - intros Hf He. apply elapsed_cooling; [exact Hf|].
    rewrite Ec. unfold CowboyPlayer.damageCooldownTime in *. lra.
Qed.

Lemma C3_one_hit_per_cooldown_witness :
  CowboyPlayer.lives
    (Run.run [Run.Damage; Run.Tick 0.4 Run.idle; Run.Damage;
              Run.Tick 0.5 Run.idle; Run.Damage] CowboyPlayer.create) = 2%Z.
Proof.
  destruct (C3_one_hit_per_cooldown CowboyPlayer.create
              [Run.Tick 0.4 Run.idle; Run.Damage; Run.Tick 0.5 Run.idle; Run.Damage])
    as (Ec & Hlives & _).
  - simpl. lra.
  - simpl. lia.
  - apply Hlives.
    set (p1 := fst (CowboyPlayer.takeDamage CowboyPlayer.create)) in *.
    assert (C1 : CowboyPlayer.damageCooldown p1 = 1)
      by (rewrite Ec; unfold CowboyPlayer.damageCooldownTime; lra).
    cbn [Run.cooling].
    set (p2 := CowboyPlayer.update 0.4 Run.idle p1).
    assert (C2 : CowboyPlayer.damageCooldown p2 = 0.6)
      by (unfold p2; rewrite update_cooldown_running by lra; lra).
    split; [lra|].
    rewrite (takeDamage_rejected p2) by (left; lra). cbn [fst].
    set (p3 := CowboyPlayer.update 0.5 Run.idle p2).
    assert (C3 : CowboyPlayer.damageCooldown p3 = 0.1)
      by (unfold p3; rewrite update_cooldown_running by lra; lra).
    split; [lra | exact I].
Defined.

(** C3 as stated fails: three calls, each 0.9 s after the one before.  The
    first counts, the second is rejected (cooldown 0.1), the third comes
    1.8 s after the first and counts again: two lives are lost. *)
Lemma C3_spaced_calls_lose_two :
  Run.closelySpaced [[0.9]; [0.9]]
  /\ CowboyPlayer.damageCooldown CowboyPlayer.create <= 0
  /\ (0 < CowboyPlayer.lives CowboyPlayer.create)%Z
  /\ CowboyPlayer.lives (Run.run (Run.calls [[0.9]; [0.9]]) CowboyPlayer.create)
     = (CowboyPlayer.lives CowboyPlayer.create - 2)%Z.
Proof.
  split; [| split; [| split]].
  - unfold Run.closelySpaced, Run.sum, CowboyPlayer.damageCooldownTime.
    repeat constructor; simpl; lra.
  - simpl. lra.
  - simpl. lia.
  - unfold Run.run. simpl Run.calls. simpl fold_left.
    rewrite (takeDamage_accepted CowboyPlayer.create) by (simpl; (lra || lia)).
    simpl fst.
    set (p1 := CowboyPlayer.set_damageCooldown _ _).
    assert (C1 : CowboyPlayer.damageCooldown p1 = 1)
      by (simpl; unfold CowboyPlayer.damageCooldownTime; lra).
    assert (L1 : CowboyPlayer.lives p1 = 2%Z) by reflexivity.
    set (p2 := CowboyPlayer.update 0.9 Run.idle p1).
    assert (C2 : CowboyPlayer.damageCooldown p2 = 0.1)
      by (unfold p2; rewrite update_cooldown_running by lra; lra).
    assert (L2 : CowboyPlayer.lives p2 = 2%Z)
      by (unfold p2; now rewrite update_lives).
    rewrite (takeDamage_rejected p2) by (left; lra). simpl fst.
    set (p3 := CowboyPlayer.update 0.9 Run.idle p2).
    assert (C3 : CowboyPlayer.damageCooldown p3 = -0.8)
      by (unfold p3; rewrite update_cooldown_running by lra; lra).
    assert (L3 : CowboyPlayer.lives p3 = 2%Z)
      by (unfold p3; now rewrite update_lives).
    rewrite (takeDamage_accepted p3) by (lra || lia).
    simpl. rewrite L3. reflexivity.
Qed.

(** ** Jumping and the ground *)

Section Ground.

Import CowboyPlayer.

Lemma applyMovement_velocity i p : velocity (applyMovement i p) = velocity p.
Proof. unfold applyMovement. now destruct (gtb _ _). Qed.

Lemma applyMovement_onGround i p : onGround (applyMovement i p) = onGround p.
Proof. unfold applyMovement. now destruct (gtb _ _). Qed.

Lemma applyMovement_y i p :
  vy (position (applyMovement i p)) = vy (position p).
Proof. unfold applyMovement. now destruct (gtb _ _). Qed.

Lemma applyCamera_velocity i p : velocity (applyCamera i p) = velocity p.
Proof. unfold applyCamera. destruct (isMobile i), (pointerLocked i); reflexivity. Qed.

Lemma applyCamera_onGround i p : onGround (applyCamera i p) = onGround p.
Proof. unfold applyCamera. destruct (isMobile i), (pointerLocked i); reflexivity. Qed.

Lemma applyCamera_position i p : position (applyCamera i p) = position p.
Proof. unfold applyCamera. destruct (isMobile i), (pointerLocked i); reflexivity. Qed.

Lemma applyJump_position i p : position (applyJump i p) = position p.
Proof. unfold applyJump. now destruct (shouldJump i && onGround p). Qed.

Lemma applyJump_airborne i p : onGround p = false -> applyJump i p = p.
Proof. intros H. unfold applyJump. rewrite H. now rewrite andb_false_r. Qed.

Lemma applyJump_released i p : shouldJump i = false -> applyJump i p = p.
Proof. intros H. unfold applyJump. now rewrite H. Qed.

Lemma tickCooldown_position dt p : position (tickCooldown dt p) = position p.
Proof. unfold tickCooldown. now destruct (gtb _ _). Qed.

Lemma tickCooldown_velocity dt p : velocity (tickCooldown dt p) = velocity p.
Proof. unfold tickCooldown. now destruct (gtb _ _). Qed.

Lemma tickCooldown_onGround dt p : onGround (tickCooldown dt p) = onGround p.
Proof. unfold tickCooldown. now destruct (gtb _ _). Qed.

(** A quiet input moves nothing. *)
Lemma applyMovement_quiet i p : length (moveDirection i) = 0 -> applyMovement i p = p.
Proof.
  intros H. unfold applyMovement. rewrite H.
  replace (gtb 0 0) with false by (symmetry; cmp_false).
  reflexivity.
Qed.

Lemma handleInput_quiet i p :
  Run.quiet i ->
  position (handleInput i p) = position p
  /\ velocity (handleInput i p) = velocity p.
Proof.
  intros [Hj Hm]. unfold handleInput.
  rewrite applyCamera_position, applyCamera_velocity.
  rewrite applyJump_released by assumption.
  now rewrite applyMovement_quiet by assumption.
Qed.

(** The landing branch and the airborne branch of [checkGroundCollision]. *)
Lemma checkGroundCollision_lands p :
  vy (position p) <= groundY ->
  checkGroundCollision p =
    set_onGround
      (set_velocity (set_position p (set_y (position p) groundY))
                    (set_y (velocity p) 0)) true.
Proof.
  intros H. unfold checkGroundCollision.
  replace (leb (vy (position p)) groundY) with true by (symmetry; cmp_true).
  reflexivity.
Qed.

Lemma checkGroundCollision_airborne p :
  groundY < vy (position p) ->
  checkGroundCollision p = set_onGround p false.
Proof.
  intros H. unfold checkGroundCollision.
  replace (leb (vy (position p)) groundY) with false by (symmetry; cmp_false).
  reflexivity.
Qed.

Lemma checkGroundCollision_cases q :
  let p' := checkGroundCollision q in
  groundY <= vy (position p')
  /\ (onGround p' = true <-> vy (position q) <= groundY)
  /\ (vy (position q) <= groundY ->
      vy (position p') = groundY /\ vy (velocity p') = 0)
  /\ (groundY < vy (position q) ->
      position p' = position q /\ velocity p' = velocity q)
  /\ vx (position p') = vx (position q)
  /\ vz (position p') = vz (position q).
Proof.
  cbv zeta.
  destruct (Rle_dec (vy (position q)) groundY) as [Hle | Hgt].
  - rewrite checkGroundCollision_lands by assumption. simpl.
    repeat split; try reflexivity; try lra; auto.
  - assert (Hgt' : groundY < vy (position q)) by lra.
    rewrite checkGroundCollision_airborne by assumption. simpl.
    repeat split; try reflexivity; try lra; try discriminate; auto.
Qed.

End Ground.

(** C7.  When the jump input is asserted and the player is on the ground,
    [handleInput] sets [velocity.y] to [jumpForce] and clears [onGround];
    when the player is not on the ground the jump is a no-op and
    [handleInput] leaves the velocity (and [onGround]) as they were. *)
Theorem C7_jump_only_from_ground (i : CowboyPlayer.Input) (p : CowboyPlayer.t) :
  CowboyPlayer.shouldJump i = true ->
  (CowboyPlayer.onGround p = true ->
     vy (CowboyPlayer.velocity (CowboyPlayer.handleInput i p)) = CowboyPlayer.jumpForce
     /\ CowboyPlayer.onGround (CowboyPlayer.handleInput i p) = false)
  /\ (CowboyPlayer.onGround p = false ->
      CowboyPlayer.applyJump i (CowboyPlayer.applyMovement i p)
        = CowboyPlayer.applyMovement i p
      /\ CowboyPlayer.velocity (CowboyPlayer.handleInput i p) = CowboyPlayer.velocity p
      /\ CowboyPlayer.onGround (CowboyPlayer.handleInput i p) = false).
Proof.
  intros Hj. split; intros Hg.
  - unfold CowboyPlayer.handleInput.
    rewrite applyCamera_velocity, applyCamera_onGround.
    unfold CowboyPlayer.applyJump.
    rewrite Hj, applyMovement_onGround, Hg. simpl. split; reflexivity.
  - assert (E : CowboyPlayer.applyJump i (CowboyPlayer.applyMovement i p)
                = CowboyPlayer.applyMovement i p).
    { apply applyJump_airborne. now rewrite applyMovement_onGround. }
    split; [exact E|].
    unfold CowboyPlayer.handleInput.
    rewrite applyCamera_velocity, applyCamera_onGround, E.
    now rewrite applyMovement_velocity, applyMovement_onGround.
Qed.

Lemma C7_jump_only_from_ground_witness :
  let i := CowboyPlayer.mkInput false (0, 0) true false false false true
             false false (0, 0) (0, 0) in
  let p := CowboyPlayer.set_onGround CowboyPlayer.create true in
  vy (CowboyPlayer.velocity (CowboyPlayer.handleInput i p)) = CowboyPlayer.jumpForce
  /\ CowboyPlayer.onGround (CowboyPlayer.handleInput i p) = false.
Proof.
  cbv zeta.
  apply (C7_jump_only_from_ground
           (CowboyPlayer.mkInput false (0, 0) true false false false true
              false false (0, 0) (0, 0))
           (CowboyPlayer.set_onGround CowboyPlayer.create true));
    reflexivity.
Defined.

(** C10.  The ranch player is clamped to the fixed ground plane
    [groundY = 0.3].  At the end of every [update], [position.y >= groundY];
    [onGround] is true exactly when the height after integration was at or
    below [groundY], and then the height is exactly [groundY] and the
    vertical velocity 0; otherwise the integrated position and velocity are
    kept.  Integration is [velocity.y += gravity; position.y += velocity.y]
    at every height: nothing resets the player to a spawn point. *)
Theorem C10_ground_clamp (deltaTime : R) (i : CowboyPlayer.Input) (p : CowboyPlayer.t) :
  let h := CowboyPlayer.handleInput i (CowboyPlayer.tickCooldown deltaTime p) in
  let q := CowboyPlayer.applyPhysics h in
  let p' := CowboyPlayer.update deltaTime i p in
  CowboyPlayer.groundY = 0.3
  /\ CowboyPlayer.groundY <= vy (CowboyPlayer.position p')
  /\ (CowboyPlayer.onGround p' = true <->
      vy (CowboyPlayer.position q) <= CowboyPlayer.groundY)
  /\ (vy (CowboyPlayer.position q) <= CowboyPlayer.groundY ->
      vy (CowboyPlayer.position p') = CowboyPlayer.groundY
      /\ vy (CowboyPlayer.velocity p') = 0)
  /\ (CowboyPlayer.groundY < vy (CowboyPlayer.position q) ->
      CowboyPlayer.position p' = CowboyPlayer.position q
      /\ CowboyPlayer.velocity p' = CowboyPlayer.velocity q)
  /\ vx (CowboyPlayer.position p') = vx (CowboyPlayer.position h)
  /\ vz (CowboyPlayer.position p') = vz (CowboyPlayer.position h)
  /\ CowboyPlayer.position q =
       vec3 (vx (CowboyPlayer.position h))
            (vy (CowboyPlayer.position h)
             + (vy (CowboyPlayer.velocity h) + CowboyPlayer.gravity))
            (vz (CowboyPlayer.position h)).
Proof.
  intros h q p'.
  change p' with (CowboyPlayer.checkGroundCollision q).
  destruct (checkGroundCollision_cases q) as (H1 & H2 & H3 & H4 & H5 & H6).
  split; [unfold CowboyPlayer.groundY; lra|].
  repeat (split; [assumption|]).
  reflexivity.
Qed.

(** ** Falling onto the ground *)

Section Falling.

Import CowboyPlayer.

(** One quiet frame seen from the height and the vertical speed. *)
Lemma update_quiet_vertical dt i p :
  Run.quiet i ->
  let y := vy (position p) + (vy (velocity p) + gravity) in
  (y <= groundY -> Run.grounded (update dt i p))
  /\ (groundY < y ->
      vy (position (update dt i p)) = y
      /\ vy (velocity (update dt i p)) = vy (velocity p) + gravity)
  /\ vx (position (update dt i p)) = vx (position p)
  /\ vz (position (update dt i p)) = vz (position p).
Proof.
  intros Hq. cbv zeta. unfold update.
  set (h := handleInput i (tickCooldown dt p)).
  destruct (handleInput_quiet i (tickCooldown dt p) Hq) as [Hpos Hvel].
  fold h in Hpos, Hvel.
  rewrite tickCooldown_position in Hpos. rewrite tickCooldown_velocity in Hvel.
  destruct (checkGroundCollision_cases (applyPhysics h)) as (_ & H2 & H3 & H4 & H5 & H6).
  assert (Ey : vy (position (applyPhysics h))
               = vy (position p) + (vy (velocity p) + gravity))
    by (simpl; now rewrite Hpos, Hvel).
  assert (Ev : vy (velocity (applyPhysics h)) = vy (velocity p) + gravity)
    by (simpl; now rewrite Hvel).
  rewrite Ey in H2, H3, H4.
  split; [| split; [| split]].
  - intros Hle. destruct (H3 Hle) as [A B].
    split; [exact A | split; [exact B | now apply H2]].
  - intros Hgt. destruct (H4 Hgt) as [A B].
    rewrite A, B. split; assumption.
  - rewrite H5. simpl. now rewrite Hpos.
  - rewrite H6. simpl. now rewrite Hpos.
Qed.

Lemma gravity_neg : gravity = - 0.015 /\ gravity < 0.
Proof. unfold gravity. lra. Qed.

(** The resting state is a fixed point of quiet frames. *)
Lemma frames_grounded ins : forall p,
  Forall (fun di => Run.quiet (snd di)) ins ->
  Run.grounded p -> Run.grounded (Run.frames ins p).
Proof.
  induction ins as [|[dt i] ins IH]; intros p Hq Hg; [exact Hg|].
  inversion Hq as [|? ? Hi Hrest]; subst. simpl in Hi.
  change (Run.grounded (Run.frames ins (update dt i p))).
  apply IH; [assumption|].
  destruct Hg as (Hy & Hv & _).
  destruct (update_quiet_vertical dt i p Hi) as (Hland & _).
  apply Hland. rewrite Hy, Hv. destruct gravity_neg. lra.
Qed.

Lemma frames_quiet_horizontal ins : forall p,
  Forall (fun di => Run.quiet (snd di)) ins ->
  vx (position (Run.frames ins p)) = vx (position p)
  /\ vz (position (Run.frames ins p)) = vz (position p).
Proof.
  induction ins as [|[dt i] ins IH]; intros p Hq; [split; reflexivity|].
  inversion Hq as [|? ? Hi Hrest]; subst. simpl in Hi.
  change (vx (position (Run.frames ins (update dt i p))) = vx (position p)
          /\ vz (position (Run.frames ins (update dt i p))) = vz (position p)).
  destruct (IH (update dt i p) Hrest) as [Ex Ez].
  destruct (update_quiet_vertical dt i p Hi) as (_ & _ & Hx & Hz).
  rewrite Ex, Ez, Hx, Hz. split; reflexivity.
Qed.

(** A body no higher than [k] gravity steps above the ground and not moving
    upwards rests on the ground after [k + 1] quiet frames, and after any
    larger number of them. *)
Lemma frames_fall k : forall ins p,
  vy (velocity p) <= 0 ->
  vy (position p) - groundY <= INR k * - gravity ->
  Forall (fun di => Run.quiet (snd di)) ins ->
  (S k <= List.length ins)%nat ->
  Run.grounded (Run.frames ins p).
Proof.
  destruct gravity_neg as [Eg Hg].
  induction k as [|k IH]; intros ins p Hv Hy Hq Hlen;
    (destruct ins as [|[dt i] ins]; [simpl in Hlen; lia|]);
    inversion Hq as [|? ? Hi Hrest]; subst; simpl in Hi;
    change (Run.grounded (Run.frames ins (update dt i p)));
    destruct (update_quiet_vertical dt i p Hi) as (Hland & Hair & _).
  - apply frames_grounded; [assumption|]. apply Hland. simpl in Hy. lra.
  - destruct (Rle_dec (vy (position p) + (vy (velocity p) + gravity)) groundY)
      as [Hle | Hgt].
    + apply frames_grounded; [assumption|]. now apply Hland.
    + destruct Hair as [Ey Ev]; [lra|].
      apply IH; [rewrite Ev; lra | | assumption | simpl in Hlen; lia].
      rewrite Ey. rewrite S_INR in Hy. lra.
Qed.

Lemma settleBound_covers y :
  groundY <= y ->
  y - groundY <= INR (Z.to_nat (up ((y - groundY) / - gravity))) * - gravity.
Proof.
  intros Hy. destruct gravity_neg as [Eg Hg].
  set (r := (y - groundY) / - gravity).
  assert (Hr : 0 <= r).
  { unfold r. apply Rmult_le_pos; [lra|].
    apply Rlt_le, Rinv_0_lt_compat. lra. }
  destruct (archimed r) as [Hup _].
  assert (Hz : (0 <= up r)%Z).
  { apply le_IZR. lra. }
  rewrite INR_IZR_INZ, Z2Nat.id by assumption.
  assert (E : y - groundY = r * - gravity).
  { unfold r. field. lra. }
  rewrite E at 1.
  apply Rmult_le_compat_r; lra.
Qed.

End Falling.

(** C6.  A player at rest at or above the ground plane, fed frames that ask
    for no jump and no movement, rests on the ground after at most
    [settleBound] frames, a number fixed by the starting height: after that
    many frames, or any larger number, [position.y] is [groundY] (ground
    height 0 plus the half-height 0.3), [velocity.y] is 0, [onGround] is
    true, and the horizontal position is the starting one. *)
Theorem C6_fall_settles (p : CowboyPlayer.t)
    (ins : list (R * CowboyPlayer.Input)) :
  vy (CowboyPlayer.velocity p) = 0 ->
  CowboyPlayer.groundY <= vy (CowboyPlayer.position p) ->
  Forall (fun di => Run.quiet (snd di)) ins ->
  (Run.settleBound (vy (CowboyPlayer.position p)) <= List.length ins)%nat ->
  let p' := Run.frames ins p in
  CowboyPlayer.position p' =
    vec3 (vx (CowboyPlayer.position p)) CowboyPlayer.groundY
         (vz (CowboyPlayer.position p))
  /\ CowboyPlayer.groundY = 0 + 0.3
  /\ vy (CowboyPlayer.velocity p') = 0
  /\ CowboyPlayer.onGround p' = true.
Proof.
  intros Hv Hy Hq Hlen p'.
  assert (G : Run.grounded p').
  { apply (frames_fall (Z.to_nat (up ((vy (CowboyPlayer.position p)
                                          - CowboyPlayer.groundY)
                                         / - CowboyPlayer.gravity))));
      [lra | now apply settleBound_covers | assumption | exact Hlen]. }
  destruct G as (Gy & Gv & Gg).
  destruct (frames_quiet_horizontal ins p Hq) as [Ex Ez]. fold p' in Ex, Ez.
  split; [| split; [unfold CowboyPlayer.groundY; lra | split; assumption]].
  destruct (CowboyPlayer.position p') as [x y z]. simpl in *. now subst.
Qed.

Lemma idle_quiet : Run.quiet Run.idle.
Proof.
  split; [reflexivity|].
  unfold Num.length. simpl.
  replace (0 * 0 + 0 * 0 + 0 * 0) with 0 by lra. apply sqrt_0.
Qed.

Lemma C6_fall_settles_witness :
  let p := CowboyPlayer.set_position CowboyPlayer.create (vec3 0 2 0) in
  let p' := Run.frames (repeat (0.016, Run.idle) 115) p in
  CowboyPlayer.position p' = vec3 0 CowboyPlayer.groundY 0
  /\ CowboyPlayer.groundY = 0 + 0.3
  /\ vy (CowboyPlayer.velocity p') = 0
  /\ CowboyPlayer.onGround p' = true.
Proof.
  cbv zeta.
  apply (C6_fall_settles
           (CowboyPlayer.set_position CowboyPlayer.create (vec3 0 2 0))
           (repeat (0.016, Run.idle) 115)).
  - reflexivity.
  - simpl. unfold CowboyPlayer.groundY. lra.
  - apply Forall_forall. intros x Hx. apply repeat_spec in Hx. subst x.
    exact idle_quiet.
  - rewrite repeat_length. unfold Run.settleBound. simpl.
    replace (up ((2 - CowboyPlayer.groundY) / - CowboyPlayer.gravity)) with 114%Z.
    + apply Nat.le_refl.
    + unfold CowboyPlayer.groundY, CowboyPlayer.gravity. apply tech_up.
      * apply div_lt_bound; lra.
      * assert (113 <= (2 - 0.3) / - (-0.015)); [apply div_ge_bound|]; lra.
Defined.

(** ** Hazards *)

Lemma Choya_checkCollision_iff (c : Choya.t) (pos : Vector3) (r : R) :
  Choya.checkCollision c pos r = true <->
  exists mp,
    Choya.mesh c = Some mp /\ Choya.modelLoaded c = true
    /\ distanceTo (vec3 (vx mp) (vy mp + 0.6) (vz mp)) pos
       < Choya.collisionRadius c + r.
Proof.
  unfold Choya.checkCollision.
  destruct (Choya.mesh c) as [mp|].
  - destruct (Choya.modelLoaded c); simpl.
    + rewrite ltb_true_iff. split.
      * intros H. exists mp. auto.
      * intros (mp' & E & _ & H). injection E as <-. exact H.
    + split; [discriminate | intros (mp' & _ & E & _); discriminate].
  - split; [discriminate | intros (mp' & E & _); discriminate].
Qed.

Lemma BarrelCactus_checkCollision_iff (c : BarrelCactus.t) (pos : Vector3) (r : R) :
  BarrelCactus.checkCollision c pos r = true <->
  exists mp,
    BarrelCactus.mesh c = Some mp /\ BarrelCactus.modelLoaded c = true
    /\ distanceTo (vec3 (vx mp) (vy mp + 0.3 * BarrelCactus.size c) (vz mp)) pos
       < BarrelCactus.collisionRadius c + r.
Proof.
  unfold BarrelCactus.checkCollision.
  destruct (BarrelCactus.mesh c) as [mp|].
  - destruct (BarrelCactus.modelLoaded c); simpl.
    + rewrite ltb_true_iff. split.
      * intros H. exists mp. auto.
      * intros (mp' & E & _ & H). injection E as <-. exact H.
    + split; [discriminate | intros (mp' & _ & E & _); discriminate].
  - split; [discriminate | intros (mp' & E & _); discriminate].
Qed.

(** C5.  For a choya and for a barrel cactus in any state of its life
    (constructed at [p0], [loadModel] ended with outcome [o]),
    [checkCollision(actorPosition, actorRadius)] is true exactly when the
    model has arrived and the distance in space between [actorPosition] and
    the cactus centre (the mesh position raised by 0.6, resp. by
    [0.3 * size]) is strictly below [collisionRadius + actorRadius]; it is
    false before the model has arrived (and when the load fails), whatever
    the positions, and false when the distance equals the sum of the
    radii. *)
Theorem C5_checkCollision
    (p0 : Vector3) (configSize : option R) (rnd : R) (o : LoadOutcome)
    (actorPosition : Vector3) (actorRadius : R) :
  let c := Choya.loadModel o (Choya.create p0 configSize rnd) in
  let b := BarrelCactus.loadModel o (BarrelCactus.create p0 configSize rnd) in
  let centreC := vec3 (vx p0) (0 + 0.6) (vz p0) in
  let centreB := vec3 (vx p0) (0 + 0.3 * BarrelCactus.size b) (vz p0) in
  (Choya.checkCollision c actorPosition actorRadius = true <->
     Choya.modelLoaded c = true
     /\ distanceTo centreC actorPosition < Choya.collisionRadius c + actorRadius)
  /\ (BarrelCactus.checkCollision b actorPosition actorRadius = true <->
      BarrelCactus.modelLoaded b = true
      /\ distanceTo centreB actorPosition
         < BarrelCactus.collisionRadius b + actorRadius)
  /\ (Choya.modelLoaded c = true <-> o = ModelArrived)
  /\ (BarrelCactus.modelLoaded b = true <-> o = ModelArrived)
  /\ Choya.checkCollision (Choya.create p0 configSize rnd)
       actorPosition actorRadius = false
  /\ BarrelCactus.checkCollision (BarrelCactus.create p0 configSize rnd)
       actorPosition actorRadius = false
  /\ (distanceTo centreC actorPosition = Choya.collisionRadius c + actorRadius ->
      Choya.checkCollision c actorPosition actorRadius = false)
  /\ (distanceTo centreB actorPosition
        = BarrelCactus.collisionRadius b + actorRadius ->
      BarrelCactus.checkCollision b actorPosition actorRadius = false)
  /\ (forall u v, distanceTo u v =
        sqrt ((vx u - vx v)² + (vy u - vy v)² + (vz u - vz v)²)).
Proof.
  intros c b centreC centreB.
  assert (HC : Choya.checkCollision c actorPosition actorRadius = true <->
               Choya.modelLoaded c = true
               /\ distanceTo centreC actorPosition
                  < Choya.collisionRadius c + actorRadius).
  { rewrite Choya_checkCollision_iff. subst c centreC.
    destruct o; simpl; split;
      try (intros (mp & E & _); discriminate);
      try (intros (E & _); discriminate).
    - intros (mp & E & L & H). injection E as <-. simpl in H. auto.
    - intros (L & H). eexists. split; [reflexivity|]. auto. }
  assert (HB : BarrelCactus.checkCollision b actorPosition actorRadius = true <->
               BarrelCactus.modelLoaded b = true
               /\ distanceTo centreB actorPosition
                  < BarrelCactus.collisionRadius b + actorRadius).
  { rewrite BarrelCactus_checkCollision_iff. subst b centreB.
    destruct o; simpl; split;
      try (intros (mp & E & _); discriminate);
      try (intros (E & _); discriminate).
    - intros (mp & E & L & H). injection E as <-. simpl in H. auto.
    - intros (L & H). eexists. split; [reflexivity|]. auto. }
  split; [exact HC | split; [exact HB |]].
  split; [subst c; destruct o; simpl; split; congruence |].
  split; [subst b; destruct o; simpl; split; congruence |].
  split; [reflexivity | split; [reflexivity |]].
  split; [| split]; [intros E | intros E | reflexivity].
  - apply not_true_is_false. intros K. apply HC in K. lra.
  - apply not_true_is_false. intros K. apply HB in K. lra.
Qed.

(** A loaded choya of size 1 at the origin has radius 1.2 and its centre at
    height 0.6.  A player of radius 0.4 whose centre is 1.6 away, at the
    same height, is exactly at the sum of the radii: no collision.  A little
    closer, it collides; and before the model has arrived it does not. *)
Example choya_touching_is_no_collision :
  let c := Choya.loadModel ModelArrived (Choya.create (vec3 0 0 0) (Some 1) 0) in
  Choya.checkCollision c (vec3 1.6 0.6 0) 0.4 = false
  /\ Choya.checkCollision c (vec3 1.5 0.6 0) 0.4 = true
  /\ Choya.checkCollision (Choya.create (vec3 0 0 0) (Some 1) 0)
       (vec3 1.5 0.6 0) 0.4 = false.
Proof.
  cbv zeta. split; [| split; [| reflexivity]].
  - apply not_true_is_false. intros K.
    apply Choya_checkCollision_iff in K.
    destruct K as (mp & E & _ & H). simpl in E. injection E as <-.
    unfold distanceTo in H. simpl in H.
    replace ((0 - 1.6) * (0 - 1.6) + (0 + 0.6 - 0.6) * (0 + 0.6 - 0.6)
             + (0 - 0) * (0 - 0)) with (1.6 * 1.6) in H by lra.
    rewrite sqrt_square in H; lra.
  - apply Choya_checkCollision_iff. eexists. split; [reflexivity|].
    split; [reflexivity|].
    unfold distanceTo. simpl. apply sqrt_lt_bound; nra.
Qed.

(** ** Headings *)

Lemma sqrt_one_plus_ratio (a b : R) :
  b <> 0 -> sqrt (1 + (a / b)²) = sqrt (a * a + b * b) / Rabs b.
Proof.
  intros Hb.
  assert (Hbb : 0 < b * b) by nra.
  replace (1 + (a / b)²) with ((a * a + b * b) / (b * b))
    by (unfold Rsqr; field; assumption).
  rewrite sqrt_div_alt by assumption.
  f_equal. change (b * b) with (b²). apply sqrt_Rsqr_abs.
Qed.

Lemma norm_pos (a b : R) : a <> 0 \/ b <> 0 -> 0 < sqrt (a * a + b * b).
Proof. intros H. apply sqrt_lt_R0. destruct H; nra. Qed.

(** [Math.atan2(a, b)] is the heading of the direction [(a, b)]: its sine
    and cosine are the direction scaled to length one. *)
Lemma atan2_direction (a b : R) :
  a <> 0 \/ b <> 0 ->
  sin (Math_atan2 a b) = a / sqrt (a * a + b * b)
  /\ cos (Math_atan2 a b) = b / sqrt (a * a + b * b).
Proof.
  intros Hab. pose proof (norm_pos a b Hab) as Hd.
  set (d := sqrt (a * a + b * b)) in *.
  unfold Math_atan2.
  destruct (ltb 0 b) eqn:Hb1; [apply ltb_true_iff in Hb1 | apply ltb_false_iff in Hb1].
  - rewrite sin_atan, cos_atan, sqrt_one_plus_ratio by lra. fold d.
    rewrite Rabs_pos_eq by lra. split; field; lra.
  - destruct (ltb b 0) eqn:Hb2; [apply ltb_true_iff in Hb2 | apply ltb_false_iff in Hb2].
    + assert (Hs : sin (atan (a / b)) = - a / d /\ cos (atan (a / b)) = - b / d).
      { rewrite sin_atan, cos_atan, sqrt_one_plus_ratio by lra. fold d.
        rewrite Rabs_left by lra. split; field; lra. }
      destruct Hs as [Hs Hc].
      destruct (leb 0 a).
      * rewrite neg_sin, neg_cos, Hs, Hc. split; field; lra.
      * unfold Rminus. rewrite sin_plus, cos_plus, sin_neg, cos_neg, sin_PI, cos_PI, Hs, Hc.
        split; field; lra.
    + assert (Eb : b = 0) by lra. subst b.
      assert (Ha : a <> 0) by (destruct Hab; [assumption | lra]).
      assert (Ed : d = Rabs a).
      { unfold d. replace (a * a + 0 * 0) with (a²) by (unfold Rsqr; ring).
        apply sqrt_Rsqr_abs. }
      destruct (ltb 0 a) eqn:Ha1; [apply ltb_true_iff in Ha1 | apply ltb_false_iff in Ha1].
      * rewrite sin_PI2, cos_PI2, Ed, Rabs_pos_eq by lra. split; field; lra.
      * assert (Ha2 : a < 0) by lra.
        replace (ltb a 0) with true by (symmetry; cmp_true).
        rewrite sin_neg, cos_neg, sin_PI2, cos_PI2, Ed, Rabs_left by lra.
        split; field; lra.
Qed.

(** ** Animals *)

(** One frame of the shared wander code, with the two random numbers it may
    read named. *)
Lemma wander_frame (base range speed deltaTime : R) (a : Animal.t) (w : World.t) :
  let r1 := World.rand w (World.randPos w) in
  let r2 := World.rand w (S (World.randPos w)) in
  let timer := Animal.wanderTimer a + deltaTime in
  let turn := gtb timer (base + r1 * range) in
  let heading := if turn then r2 * PI * 2 else Animal.wanderDirection a in
  let x := vx (Animal.position a) + sin heading * speed in
  let z := vz (Animal.position a) + cos heading * speed in
  let out := gtb (sqrt (x ^ 2 + z ^ 2)) Animal.maxDistance in
  Animal.wander base range speed deltaTime a w =
    (Animal.mk (vec3 x (vy (Animal.position a)) z)
               (if out then Math_atan2 (- x) (- z) else heading)
               (if turn then 0 else timer),
     World.mk (World.rand w)
              (if turn then S (S (World.randPos w)) else S (World.randPos w))
              (World.clock w) (World.clockPos w)).
Proof.
  cbv zeta. unfold Animal.wander, World.bind, World.Math_random, World.ret.
  simpl.
  destruct (gtb (Animal.wanderTimer a + deltaTime)
                (base + World.rand w (World.randPos w) * range)); reflexivity.
Qed.

Lemma species_update_wander (sp : Species.t) :
  Species.update sp
  = Animal.wander (Species.base sp) (Species.range sp) (Species.speed sp).
Proof. destruct sp; reflexivity. Qed.

(** C8.  For a horse, a cow or a chicken, in every frame: the timer grows by
    [deltaTime]; when it then exceeds the threshold
    [base + Math.random() * range] of the species, the heading becomes
    [Math.random() * PI * 2], which ranges over all of [0, 2 PI) as the
    random number ranges over [0, 1), and the timer is reset to 0; otherwise
    heading and timer are kept.  In either case the animal moves by the unit
    vector [(sin heading, cos heading)] times the speed of its species.  If
    the new position is farther than 80 from the origin, the heading is
    replaced by [atan2(-x, -z)], whose direction is the unit vector from the
    animal to the origin; otherwise it is left as it was. *)
Theorem C8_wander (sp : Species.t) (deltaTime : R) (a : Animal.t) (w : World.t) :
  let r1 := World.rand w (World.randPos w) in
  let r2 := World.rand w (S (World.randPos w)) in
  let timer := Animal.wanderTimer a + deltaTime in
  let threshold := Species.base sp + r1 * Species.range sp in
  let heading := if gtb timer threshold then r2 * PI * 2
                 else Animal.wanderDirection a in
  let a' := fst (Species.update sp deltaTime a w) in
  let x' := vx (Animal.position a') in
  let z' := vz (Animal.position a') in
  let dist := sqrt (x' ^ 2 + z' ^ 2) in
  (timer > threshold ->
     Animal.wanderTimer a' = 0 /\ heading = r2 * PI * 2
     /\ (0 <= r2 < 1 -> 0 <= heading < 2 * PI))
  /\ (forall h, 0 <= h < 2 * PI -> exists r, 0 <= r < 1 /\ r * PI * 2 = h)
  /\ (timer <= threshold ->
      Animal.wanderTimer a' = timer /\ heading = Animal.wanderDirection a)
  /\ Animal.position a' =
       vec3 (vx (Animal.position a) + sin heading * Species.speed sp)
            (vy (Animal.position a))
            (vz (Animal.position a) + cos heading * Species.speed sp)
  /\ (sin heading)² + (cos heading)² = 1
  /\ Animal.maxDistance = 80
  /\ (dist > Animal.maxDistance ->
      Animal.wanderDirection a' = Math_atan2 (- x') (- z')
      /\ sin (Animal.wanderDirection a') = - x' / dist
      /\ cos (Animal.wanderDirection a') = - z' / dist)
  /\ (dist <= Animal.maxDistance -> Animal.wanderDirection a' = heading).
Proof.
  intros r1 r2 timer threshold heading a' x' z' dist.
  assert (Ea : a' =
    Animal.mk
      (vec3 (vx (Animal.position a) + sin heading * Species.speed sp)
            (vy (Animal.position a))
            (vz (Animal.position a) + cos heading * Species.speed sp))
      (if gtb dist Animal.maxDistance then Math_atan2 (- x') (- z') else heading)
      (if gtb timer threshold then 0 else timer)).
  { subst dist x' z' a'. rewrite species_update_wander.
    rewrite wander_frame. reflexivity. }
  assert (Hpi : 0 < PI) by apply PI_RGT_0.
  split; [| split; [| split; [| split; [| split; [| split; [| split]]]]]].
  - intros Hgt. rewrite Ea. simpl. subst heading.
    replace (gtb timer threshold) with true by (symmetry; cmp_true).
    split; [reflexivity | split; [reflexivity |]].
    intros [H0 H1]. split; nra.
  - intros h [H0 H1]. exists (h / (2 * PI)). split; [split |].
    + apply Rmult_le_pos; [assumption|]. apply Rlt_le, Rinv_0_lt_compat. lra.
    + apply div_lt_bound; lra.
    + field. lra.
  - intros Hle. rewrite Ea. simpl. subst heading.
    replace (gtb timer threshold) with false by (symmetry; cmp_false).
    split; reflexivity.
  - rewrite Ea. reflexivity.
  - apply sin2_cos2.
  - reflexivity.
  - intros Hout.
    assert (Ed : Animal.wanderDirection a' = Math_atan2 (- x') (- z')).
    { rewrite Ea. simpl.
      replace (gtb dist Animal.maxDistance) with true by (symmetry; cmp_true).
      reflexivity. }
    split; [exact Ed|]. rewrite Ed.
    assert (Edist : dist = sqrt (- x' * - x' + - z' * - z')).
    { unfold dist. f_equal. ring. }
    assert (Hnz : - x' <> 0 \/ - z' <> 0).
    { destruct (Req_dec x' 0) as [Hx|Hx]; [|left; lra].
      destruct (Req_dec z' 0) as [Hz|Hz]; [|right; lra].
      exfalso. unfold dist in Hout. rewrite Hx, Hz in Hout.
      replace (0 ^ 2 + 0 ^ 2) with 0 in Hout by ring.
      rewrite sqrt_0 in Hout. unfold Animal.maxDistance in Hout. lra. }
    destruct (atan2_direction (- x') (- z') Hnz) as [Hs Hc].
    rewrite Hs, Hc, <- Edist. split; reflexivity.
  - intros Hin. rewrite Ea. simpl.
    replace (gtb dist Animal.maxDistance) with false by (symmetry; cmp_false).
    reflexivity.
Qed.

(** ** The clock during a frame *)

Section Clock.

Lemma sameClock_refl w : World.sameClock w w.
Proof. split; reflexivity. Qed.

Lemma sameClock_trans w1 w2 w3 :
  World.sameClock w1 w2 -> World.sameClock w2 w3 -> World.sameClock w1 w3.
Proof. intros [A B] [C D]. split; congruence. Qed.

Lemma Math_random_clock w : World.sameClock w (snd (World.Math_random w)).
Proof. split; reflexivity. Qed.

Lemma drawRandom_clock n : forall w, World.sameClock w (snd (World.drawRandom n w)).
Proof.
  induction n as [|n IH]; intros w; simpl.
  - apply sameClock_refl.
  - unfold World.bind. simpl.
    eapply sameClock_trans; [| apply IH]. split; reflexivity.
Qed.

Lemma spawnSpines_clock n : forall spines s w,
  World.sameClock w (snd (Scene.spawnSpines n spines s w)).
Proof.
  induction n as [|n IH]; intros spines s w.
  - apply sameClock_refl.
  - cbn [Scene.spawnSpines Scene.newSpine]. unfold World.bind.
    pose proof (drawRandom_clock 6 w) as H.
    destruct (World.drawRandom 6 w) as [u w1]. simpl in H.
    eapply sameClock_trans; [exact H | apply IH].
Qed.

Lemma Choya_createSpineEffect_clock s w :
  World.sameClock w (snd (Choya.createSpineEffect s w)).
Proof.
  unfold Choya.createSpineEffect, World.bind, World.Math_random.
  eapply sameClock_trans; [| apply spawnSpines_clock]. split; reflexivity.
Qed.

Lemma BarrelCactus_createSpineEffect_clock s w :
  World.sameClock w (snd (BarrelCactus.createSpineEffect s w)).
Proof.
  unfold BarrelCactus.createSpineEffect, World.bind, World.Math_random.
  eapply sameClock_trans; [| apply spawnSpines_clock]. split; reflexivity.
Qed.

Lemma wander_clock base range speed dt a w :
  World.sameClock w (snd (Animal.wander base range speed dt a w)).
Proof. rewrite wander_frame. split; reflexivity. Qed.

Lemma forEach_clock {A : Type} (f : A -> World.M A) :
  (forall a w, World.sameClock w (snd (f a w))) ->
  forall xs w, World.sameClock w (snd (World.forEach f xs w)).
Proof.
  intros Hf. induction xs as [|x xs IH]; intros w; simpl.
  - apply sameClock_refl.
  - unfold World.bind.
    pose proof (Hf x w) as H1. destruct (f x w) as [x1 w1]. simpl in H1.
    pose proof (IH w1) as H2. destruct (World.forEach f xs w1) as [r w2].
    simpl in *. eapply sameClock_trans; eassumption.
Qed.

End Clock.

(** ** Spawning spines *)

Lemma spawnSpines_spec n : forall spines s w,
  let r := fst (Scene.spawnSpines n spines s w) in
  fst r = spines ++ seq (Scene.nextMesh s) n
  /\ Scene.children (snd r) = Scene.children s ++ seq (Scene.nextMesh s) n
  /\ Scene.nextMesh (snd r) = (Scene.nextMesh s + n)%nat
  /\ Scene.disposed (snd r) = Scene.disposed s.
Proof.
  induction n as [|n IH]; intros spines s w.
  - simpl. rewrite !app_nil_r, Nat.add_0_r. auto.
  - cbn [Scene.spawnSpines Scene.newSpine]. unfold World.bind.
    destruct (World.drawRandom 6 w) as [u w1].
    specialize (IH (spines ++ [Scene.nextMesh s])
                   (Scene.add (Scene.nextMesh s)
                      (Scene.mk (Scene.children s)
                         (fun j => if Nat.eqb j (Scene.nextMesh s) then 1.0
                                   else Scene.opacity s j)
                         (Scene.disposed s) (S (Scene.nextMesh s))))
                   w1).
    cbv zeta in IH |- *. destruct IH as (A & B & C & D).
    rewrite A, B, C, D. cbn [Scene.add Scene.children Scene.nextMesh Scene.disposed seq].
    rewrite <- !app_assoc. cbn [app].
    repeat split; try reflexivity. lia.
Qed.

Lemma Choya_spawns : Scene.spawns Choya.createSpineEffect.
Proof.
  intros s w. unfold Choya.createSpineEffect, World.bind, World.Math_random.
  set (n := (3 + Math_floor_nat (_ * 3))%nat).
  set (w1 := World.mk _ _ _ _).
  exists n. cbv zeta.
  destruct (spawnSpines_spec n [] s w1) as (A & B & C & D).
  repeat split; try assumption.
  - apply (spawnSpines_clock n [] s w1).
  - apply (spawnSpines_clock n [] s w1).
Qed.

Lemma BarrelCactus_spawns : Scene.spawns BarrelCactus.createSpineEffect.
Proof.
  intros s w. unfold BarrelCactus.createSpineEffect, World.bind, World.Math_random.
  set (n := (1 + Math_floor_nat (_ * 2))%nat).
  set (w1 := World.mk _ _ _ _).
  exists n. cbv zeta.
  destruct (spawnSpines_spec n [] s w1) as (A & B & C & D).
  repeat split; try assumption.
  - apply (spawnSpines_clock n [] s w1).
  - apply (spawnSpines_clock n [] s w1).
Qed.

(** ** The collision branch *)

Lemma updateLivesUI_fields g :
  RanchGame.player (RanchGame.updateLivesUI g) = RanchGame.player g
  /\ RanchGame.choyas (RanchGame.updateLivesUI g) = RanchGame.choyas g
  /\ RanchGame.barrelCacti (RanchGame.updateLivesUI g) = RanchGame.barrelCacti g
  /\ RanchGame.activeSpines (RanchGame.updateLivesUI g) = RanchGame.activeSpines g
  /\ RanchGame.scene (RanchGame.updateLivesUI g) = RanchGame.scene g
  /\ RanchGame.console (RanchGame.updateLivesUI g) = RanchGame.console g.
Proof.
  unfold RanchGame.updateLivesUI.
  destruct (RanchGame.livesUI g); [|repeat split].
  destruct (_ <=? 0)%Z; repeat split.
Qed.

(** What one collision does to the game: a call of [takeDamage()], its
    console line, [k] new spines stamped with the clock, and one read of the
    clock. *)
Lemma onCollision_spec cse g w :
  Scene.spawns cse ->
  let r := RanchGame.onCollision cse g w in
  let g' := fst r in
  let td := CowboyPlayer.takeDamage (RanchGame.player g) in
  RanchGame.player g' = fst td
  /\ RanchGame.console g' = RanchGame.console g ++ snd td
  /\ RanchGame.choyas g' = RanchGame.choyas g
  /\ RanchGame.barrelCacti g' = RanchGame.barrelCacti g
  /\ World.clock (snd r) = World.clock w
  /\ World.clockPos (snd r) = S (World.clockPos w)
  /\ exists k,
       let fresh := seq (Scene.nextMesh (RanchGame.scene g)) k in
       RanchGame.activeSpines g' =
         RanchGame.activeSpines g
         ++ map (fun id => RanchGame.mkSpine id (World.clock w (World.clockPos w)) 3000)
                fresh
       /\ Scene.children (RanchGame.scene g')
          = Scene.children (RanchGame.scene g) ++ fresh
       /\ Scene.nextMesh (RanchGame.scene g')
          = (Scene.nextMesh (RanchGame.scene g) + k)%nat
       /\ Scene.disposed (RanchGame.scene g') = Scene.disposed (RanchGame.scene g).
Proof.
  intros Hcse. cbv zeta. unfold RanchGame.onCollision.
  destruct (CowboyPlayer.takeDamage (RanchGame.player g)) as [p out].
  set (g0 := RanchGame.set_console (RanchGame.set_player g p) (RanchGame.console g ++ out)).
  destruct (updateLivesUI_fields g0) as (U1 & U2 & U3 & U4 & U5 & U6).
  set (g1 := RanchGame.updateLivesUI g0) in *.
  unfold World.bind.
  destruct (Hcse (RanchGame.scene g1) w) as (k & A & B & C & D & [E1 E2]).
  destruct (cse (RanchGame.scene g1) w) as [[spines s] w1].
  cbn [fst snd] in *.
  rewrite U5 in B, C, D, A. subst spines.
  unfold World.Date_now, World.ret. cbn [fst snd].
  cbn [RanchGame.set_activeSpines RanchGame.set_scene RanchGame.player
       RanchGame.console RanchGame.choyas RanchGame.barrelCacti
       RanchGame.activeSpines RanchGame.scene World.clock World.clockPos].
  rewrite U1, U2, U3, U4, U6, E1, E2.
  repeat split; try reflexivity.
  exists k. rewrite B, C, D. repeat split; reflexivity.
Qed.

(** ** The cactus loops *)

Section Loops.

Import RanchGame.

Lemma extends_refl g : extends g g.
Proof.
  exists [], 0%nat. simpl. rewrite !app_nil_r, Nat.add_0_r. auto.
Qed.

Lemma extends_trans g1 g2 g3 : extends g1 g2 -> extends g2 g3 -> extends g1 g3.
Proof.
  intros (n1 & k1 & A1 & B1 & C1 & D1 & E1) (n2 & k2 & A2 & B2 & C2 & D2 & E2).
  exists (n1 ++ n2), (k1 + k2)%nat.
  rewrite A2, A1, C2, C1, D2, D1, E2, E1, map_app, B1, B2, D1.
  rewrite <- !app_assoc, seq_app.
  repeat split; try reflexivity. lia.
Qed.

Lemma onCollision_extends cse g w :
  Scene.spawns cse -> extends g (fst (onCollision cse g w)).
Proof.
  intros Hcse.
  destruct (onCollision_spec cse g w Hcse) as (_ & _ & _ & _ & _ & _ & k & A & B & C & D).
  cbv zeta in A, B, C, D.
  eexists _, k. split; [exact A|].
  rewrite map_map. cbn [mesh]. rewrite map_id. auto.
Qed.

Lemma wf_extends g g1 : wf g -> extends g g1 -> wf g1.
Proof.
  intros (W1 & W2 & W3 & W4) (new & k & A & B & C & D & E).
  unfold wf. rewrite A, C, D, map_app, B.
  assert (Hseq : forall x, In x (seq (Scene.nextMesh (scene g)) k) ->
                           (Scene.nextMesh (scene g) <= x
                            < Scene.nextMesh (scene g) + k)%nat).
  { intros x Hx. apply in_seq in Hx. lia. }
  assert (Hbelow : forall l,
             Forall (fun id => (id < Scene.nextMesh (scene g))%nat) l ->
             NoDup l -> NoDup (l ++ seq (Scene.nextMesh (scene g)) k)).
  { intros l Hl Hnd. rewrite Forall_forall in Hl.
    induction l as [|x l IHl]; simpl.
    - apply seq_NoDup.
    - inversion Hnd; subst. constructor.
      + rewrite in_app_iff. intros [Hin | Hin]; [contradiction|].
        apply Hseq in Hin. specialize (Hl x (or_introl eq_refl)). lia.
      + apply IHl; [|assumption]. intros y Hy. apply Hl. now right. }
  assert (Hup : forall l,
             Forall (fun id => (id < Scene.nextMesh (scene g))%nat) l ->
             Forall (fun id => (id < Scene.nextMesh (scene g) + k)%nat)
                    (l ++ seq (Scene.nextMesh (scene g)) k)).
  { intros l Hl. apply Forall_app. split.
    - eapply Forall_impl; [|exact Hl]. simpl. intros; lia.
    - apply Forall_forall. intros x Hx. apply Hseq in Hx. lia. }
  repeat split; auto.
Qed.

Lemma takeDamage_position p :
  CowboyPlayer.position (fst (CowboyPlayer.takeDamage p)) = CowboyPlayer.position p.
Proof.
  unfold CowboyPlayer.takeDamage.
  destruct (leb _ _ && _); reflexivity.
Qed.

Lemma loopResult_none g w : loopResult 0 g w (g, w).
Proof.
  unfold loopResult. simpl. rewrite app_nil_r, Nat.add_0_r.
  repeat split; try reflexivity. apply extends_refl.
Qed.

Lemma loopResult_collision cse n g w r :
  Scene.spawns cse ->
  loopResult n (fst (onCollision cse g w)) (snd (onCollision cse g w)) r ->
  loopResult (S n) g w r.
Proof.
  intros Hcse (A & B & C & D & E & F & G).
  destruct (onCollision_spec cse g w Hcse) as (A1 & B1 & C1 & D1 & E1 & F1 & _).
  cbv zeta in *.
  pose proof (onCollision_extends cse g w Hcse) as G1.
  unfold loopResult. cbn [hits].
  rewrite A1 in A. rewrite A1, B1 in B.
  destruct (CowboyPlayer.takeDamage (player g)) as [p1 o1]. cbn [fst snd] in *.
  destruct (hits n p1) as [p2 o2]. cbn [fst snd] in *.
  rewrite A, B, C, C1, D, D1, E, E1, F, F1, <- app_assoc.
  repeat split; try reflexivity; try lia.
  eapply extends_trans; eassumption.
Qed.

Lemma choyaLoop_spec cs : forall g w,
  loopResult
    (List.length
       (filter (fun c => Choya.checkCollision c
                           (CowboyPlayer.position (player g))
                           CowboyPlayer.getRadius) cs))
    g w (choyaLoop cs g w).
Proof.
  induction cs as [|c cs IH]; intros g w.
  - apply loopResult_none.
  - cbn [choyaLoop filter]. unfold CowboyPlayer.getPosition.
    destruct (Choya.checkCollision c (CowboyPlayer.position (player g))
                CowboyPlayer.getRadius).
    + unfold World.bind.
      destruct (onCollision Choya.createSpineEffect g w) as [g1 w1] eqn:E.
      cbn [List.length].
      apply (loopResult_collision Choya.createSpineEffect); [apply Choya_spawns|].
      rewrite E. cbn [fst snd].
      replace (CowboyPlayer.position (player g))
        with (CowboyPlayer.position (player g1)); [apply IH|].
      destruct (onCollision_spec Choya.createSpineEffect g w Choya_spawns)
        as (A1 & _).
      cbv zeta in A1. rewrite E in A1. cbn [fst] in A1.
      rewrite A1. apply takeDamage_position.
    + apply IH.
Qed.

Lemma barrelLoop_spec cs : forall g w,
  loopResult
    (List.length
       (filter (fun c => BarrelCactus.checkCollision c
                           (CowboyPlayer.position (player g))
                           CowboyPlayer.getRadius) cs))
    g w (barrelLoop cs g w).
Proof.
  induction cs as [|c cs IH]; intros g w.
  - apply loopResult_none.
  - cbn [barrelLoop filter]. unfold CowboyPlayer.getPosition.
    destruct (BarrelCactus.checkCollision c (CowboyPlayer.position (player g))
                CowboyPlayer.getRadius).
    + unfold World.bind.
      destruct (onCollision BarrelCactus.createSpineEffect g w) as [g1 w1] eqn:E.
      cbn [List.length].
      apply (loopResult_collision BarrelCactus.createSpineEffect);
        [apply BarrelCactus_spawns|].
      rewrite E. cbn [fst snd].
      replace (CowboyPlayer.position (player g))
        with (CowboyPlayer.position (player g1)); [apply IH|].
      destruct (onCollision_spec BarrelCactus.createSpineEffect g w BarrelCactus_spawns)
        as (A1 & _).
      cbv zeta in A1. rewrite E in A1. cbn [fst] in A1.
      rewrite A1. apply takeDamage_position.
    + apply IH.
Qed.

End Loops.

(** ** The hazard phase of a frame *)

Section HazardPhase.

Import RanchGame.

Lemma hits_add n : forall m p,
  hits (n + m) p =
    (fst (hits m (fst (hits n p))), snd (hits n p) ++ snd (hits m (fst (hits n p)))).
Proof.
  induction n as [|n IH]; intros m p.
  - simpl. now destruct (hits m p).
  - cbn [Nat.add hits].
    destruct (CowboyPlayer.takeDamage p) as [p1 o1].
    rewrite IH.
    destruct (hits n p1) as [p2 o2]. cbn [fst snd].
    now rewrite app_assoc.
Qed.

Lemma hits_position n : forall p,
  CowboyPlayer.position (fst (hits n p)) = CowboyPlayer.position p.
Proof.
  induction n as [|n IH]; intros p; [reflexivity|].
  cbn [hits].
  pose proof (takeDamage_position p) as H.
  destruct (CowboyPlayer.takeDamage p) as [p1 o1]. cbn [fst] in H.
  specialize (IH p1). destruct (hits n p1) as [p2 o2]. cbn [fst] in *.
  congruence.
Qed.

(** While the cooldown runs, calls change nothing and print nothing. *)
Lemma hits_rejected n : forall p,
  CowboyPlayer.damageCooldown p > 0 -> hits n p = (p, []).
Proof.
  induction n as [|n IH]; intros p Hc; [reflexivity|].
  cbn [hits]. rewrite takeDamage_rejected by (left; assumption).
  now rewrite IH.
Qed.

(** With the cooldown expired and a life left, the first of any number of
    calls counts and all the others are rejected. *)
Lemma hits_once n p :
  CowboyPlayer.damageCooldown p <= 0 -> (0 < CowboyPlayer.lives p)%Z ->
  hits (S n) p =
    (CowboyPlayer.set_damageCooldown
       (CowboyPlayer.set_lives p (CowboyPlayer.lives p - 1))
       CowboyPlayer.damageCooldownTime,
     [(CowboyPlayer.lives p - 1)%Z]).
Proof.
  intros Hc Hl. cbn [hits].
  rewrite takeDamage_accepted by assumption.
  rewrite hits_rejected; [reflexivity|].
  simpl. unfold CowboyPlayer.damageCooldownTime. lra.
Qed.

Lemma loopResult_compose n m g w r1 r2 :
  loopResult n g w r1 -> loopResult m (fst r1) (snd r1) r2 ->
  loopResult (n + m) g w r2.
Proof.
  intros (A1 & B1 & C1 & D1 & E1 & F1 & G1) (A2 & B2 & C2 & D2 & E2 & F2 & G2).
  unfold loopResult. rewrite hits_add. cbn [fst snd].
  rewrite A2, B2, C2, D2, E2, F2, A1, B1, C1, D1, E1, F1, app_assoc.
  repeat split; try reflexivity; try lia.
  eapply extends_trans; eassumption.
Qed.

Lemma hazardPhase_spec dt i g w :
  let p1 := CowboyPlayer.update dt i (player g) in
  loopResult (collisions g (CowboyPlayer.position p1))
             (set_player g p1) w (hazardPhase dt i g w).
Proof.
  cbv zeta. unfold hazardPhase, World.bind, collisions, collidingChoyas,
    collidingBarrels.
  set (g0 := set_player g (CowboyPlayer.update dt i (player g))).
  pose proof (choyaLoop_spec (choyas g0) g0 w) as H1.
  destruct (choyaLoop (choyas g0) g0 w) as [g1 w1].
  pose proof (barrelLoop_spec (barrelCacti g1) g1 w1) as H2.
  pose proof H1 as (A1 & _ & _ & D1 & _). cbn [fst snd] in A1, D1.
  rewrite A1, hits_position, D1 in H2. rewrite D1.
  eapply loopResult_compose; [exact H1 | exact H2].
Qed.

End HazardPhase.

(** ** The fade loop *)

Section Fade.

Import RanchGame.

Lemma splice1_middle {A : Type} (pre : list A) (x : A) (post : list A) :
  splice1 (List.length pre) (pre ++ x :: post) = pre ++ post.
Proof.
  unfold splice1. induction pre as [|y pre IH]; [reflexivity|].
  simpl. f_equal. exact IH.
Qed.

Lemma nth_error_middle {A : Type} (pre : list A) (x : A) (post : list A) :
  nth_error (pre ++ x :: post) (List.length pre) = Some x.
Proof. induction pre as [|y pre IH]; simpl; auto. Qed.

Lemma expired_not_fading now sd :
  (now - startTime sd >=? fadeDuration sd)%Z = negb (fading now sd).
Proof. unfold fading. rewrite Z.geb_leb. apply Z.leb_antisym. Qed.

(** The loop visits the spines from the last to the first, keeps those that
    still fade and treats the scene as [ageScene] says. *)
Lemma ageSpines_spec now pre : forall post g,
  activeSpines g = pre ++ post ->
  ageSpines now (List.length pre) g =
    mk (player g) (choyas g) (barrelCacti g) (horses g) (cows g) (chickens g)
       (livesUI g) (filter (fading now) pre ++ post)
       (ageScene now (rev pre) (scene g)) (console g).
Proof.
  induction pre as [|sd pre IH] using rev_ind; intros post g Hg.
  - simpl in *. rewrite <- Hg. now destruct g.
  - rewrite length_app, Nat.add_1_r. cbn [ageSpines].
    rewrite <- app_assoc in Hg. cbn [app] in Hg.
    rewrite Hg, nth_error_middle, expired_not_fading.
    rewrite filter_app, rev_app_distr. cbn [filter rev app].
    unfold ageScene. cbn [fold_left]. fold (ageScene now (rev pre)).
    unfold fadeStep at 2.
    destruct (fading now sd); cbn [negb].
    + rewrite IH with (post := sd :: post) by exact Hg.
      cbn [set_scene player choyas barrelCacti horses cows chickens livesUI
           scene console].
      now rewrite <- app_assoc.
    + rewrite IH with (post := post).
      * cbn [set_scene set_activeSpines player choyas barrelCacti horses cows
             chickens livesUI scene console].
        now rewrite app_nil_r.
      * cbn [set_scene set_activeSpines activeSpines]. rewrite Hg.
        apply splice1_middle.
Qed.

Lemma ageScene_cons now x l s :
  ageScene now (x :: l) s = ageScene now l (fadeStep now s x).
Proof. reflexivity. Qed.

Lemma fadeStep_nextMesh now s sd :
  Scene.nextMesh (fadeStep now s sd) = Scene.nextMesh s.
Proof. unfold fadeStep. now destruct (fading now sd). Qed.

Lemma removeFirst_incl id l x : In x (Scene.removeFirst id l) -> In x l.
Proof.
  induction l as [|y l IH]; simpl; [auto|].
  destruct (Nat.eqb y id); simpl; intuition.
Qed.

Lemma removeFirst_NoDup id l : NoDup l -> NoDup (Scene.removeFirst id l).
Proof.
  induction l as [|y l IH]; simpl; intros H; [constructor|].
  inversion H; subst.
  destruct (Nat.eqb y id); [assumption|].
  constructor; [|auto]. intros Hin. apply removeFirst_incl in Hin. contradiction.
Qed.

Lemma removeFirst_gone id l : NoDup l -> ~ In id (Scene.removeFirst id l).
Proof.
  induction l as [|y l IH]; simpl; intros H; [auto|].
  inversion H; subst.
  destruct (Nat.eqb y id) eqn:E.
  - apply Nat.eqb_eq in E. now subst.
  - apply Nat.eqb_neq in E. simpl. intros [K | K]; [contradiction | now apply IH].
Qed.

Lemma fadeStep_children_incl now s sd x :
  In x (Scene.children (fadeStep now s sd)) -> In x (Scene.children s).
Proof.
  unfold fadeStep. destruct (fading now sd); simpl; [auto|].
  apply removeFirst_incl.
Qed.

Lemma fadeStep_children_NoDup now s sd :
  NoDup (Scene.children s) -> NoDup (Scene.children (fadeStep now s sd)).
Proof.
  unfold fadeStep. destruct (fading now sd); simpl; [auto|].
  apply removeFirst_NoDup.
Qed.

Lemma ageScene_nextMesh now l : forall s,
  Scene.nextMesh (ageScene now l s) = Scene.nextMesh s.
Proof.
  induction l as [|sd l IH]; intros s; [reflexivity|].
  rewrite ageScene_cons.
  now rewrite IH, fadeStep_nextMesh.
Qed.

Lemma ageScene_children_incl now l : forall s x,
  In x (Scene.children (ageScene now l s)) -> In x (Scene.children s).
Proof.
  induction l as [|sd l IH]; intros s x H; [exact H|].
  rewrite ageScene_cons in H.
  apply IH in H. now apply fadeStep_children_incl in H.
Qed.

Lemma ageScene_children_NoDup now l : forall s,
  NoDup (Scene.children s) -> NoDup (Scene.children (ageScene now l s)).
Proof.
  induction l as [|sd l IH]; intros s H; [exact H|].
  rewrite ageScene_cons.
  apply IH. now apply fadeStep_children_NoDup.
Qed.

Lemma ageScene_disposed_mono now l : forall s x,
  In x (Scene.disposed s) -> In x (Scene.disposed (ageScene now l s)).
Proof.
  induction l as [|sd l IH]; intros s x H; [exact H|].
  rewrite ageScene_cons.
  apply IH. unfold fadeStep. destruct (fading now sd); simpl; auto.
Qed.

(** An expired spine is detached and released. *)
Lemma ageScene_expired now l : forall s sd,
  NoDup (Scene.children s) -> In sd l -> fading now sd = false ->
  ~ In (mesh sd) (Scene.children (ageScene now l s))
  /\ In (mesh sd) (Scene.disposed (ageScene now l s)).
Proof.
  induction l as [|x l IH]; intros s sd Hnd Hin Hf; [contradiction|].
  rewrite ageScene_cons.
  destruct Hin as [-> | Hin].
  - unfold fadeStep. rewrite Hf. split.
    + intros K. apply ageScene_children_incl in K. simpl in K.
      now apply removeFirst_gone in K.
    + apply ageScene_disposed_mono. simpl. now left.
  - apply IH; [now apply fadeStep_children_NoDup | assumption | assumption].
Qed.

Lemma ageScene_opacity_other now l : forall s id,
  (forall sd, In sd l -> mesh sd <> id) ->
  Scene.opacity (ageScene now l s) id = Scene.opacity s id.
Proof.
  induction l as [|x l IH]; intros s id H; [reflexivity|].
  rewrite ageScene_cons.
  rewrite IH by (intros sd Hsd; apply H; now right).
  unfold fadeStep. destruct (fading now x); simpl; [|reflexivity].
  destruct (Nat.eqb id (mesh x)) eqn:E; [|reflexivity].
  apply Nat.eqb_eq in E. exfalso. apply (H x); [now left | auto].
Qed.

(** A spine that still fades has the opacity of its age. *)
Lemma ageScene_fading now l : forall s sd,
  NoDup (map mesh l) -> In sd l -> fading now sd = true ->
  Scene.opacity (ageScene now l s) (mesh sd) = fadeOpacity now sd.
Proof.
  induction l as [|x l IH]; intros s sd Hnd Hin Hf; [contradiction|].
  rewrite ageScene_cons.
  simpl in Hnd. inversion Hnd as [|? ? Hx Hl]; subst.
  destruct Hin as [-> | Hin].
  - rewrite ageScene_opacity_other.
    + unfold fadeStep. rewrite Hf. simpl. now rewrite Nat.eqb_refl.
    + intros y Hy E. apply Hx. rewrite <- E. now apply in_map.
  - now apply IH.
Qed.

(** Two spines at time 5000: the one born at 0 has lived its 3000 ms and
    goes, the one born at 4000 stays. *)
Example fade_loop_drops_the_old_spine :
  let g := mk CowboyPlayer.create [] [] [] [] [] None
             [mkSpine 0 0 3000; mkSpine 1 4000 3000]
             (Scene.mk [0; 1]%nat (fun _ => 1) [] 2) [] in
  let g' := ageSpines 5000 2 g in
  activeSpines g' = [mkSpine 1 4000 3000]
  /\ Scene.children (scene g') = [1%nat]
  /\ Scene.disposed (scene g') = [0%nat].
Proof. cbv zeta. repeat split; reflexivity. Qed.

End Fade.

(** ** A whole frame *)

Section Frame.

Import RanchGame.

Lemma update_phases dt i g w :
  update dt i g w =
    let hp := hazardPhase dt i g w in
    let sp := spinePhase (fst hp) (snd hp) in
    animalPhase dt (fst sp) (snd sp).
Proof.
  unfold update, World.bind. cbv zeta.
  destruct (hazardPhase dt i g w) as [g1 w1]. cbn [fst snd].
  now destruct (spinePhase g1 w1).
Qed.

Lemma spinePhase_spec g w :
  let now := World.clock w (World.clockPos w) in
  spinePhase g w =
    (mk (player g) (choyas g) (barrelCacti g) (horses g) (cows g) (chickens g)
        (livesUI g) (filter (fading now) (activeSpines g))
        (ageScene now (rev (activeSpines g)) (scene g)) (console g),
     World.mk (World.rand w) (World.randPos w) (World.clock w)
              (S (World.clockPos w))).
Proof.
  cbv zeta. unfold spinePhase, World.bind, World.Date_now, World.ret.
  rewrite (ageSpines_spec _ (activeSpines g) [] g) by now rewrite app_nil_r.
  now rewrite app_nil_r.
Qed.

Lemma animalPhase_spec dt g w :
  let r := animalPhase dt g w in
  player (fst r) = player g
  /\ activeSpines (fst r) = activeSpines g
  /\ scene (fst r) = scene g
  /\ console (fst r) = console g
  /\ World.sameClock w (snd r).
Proof.
  cbv zeta. unfold animalPhase, World.bind, World.ret.
  pose proof (forEach_clock (Horse.update dt) (wander_clock 3 4 Horse.speed dt)
                (horses g) w) as H1.
  destruct (World.forEach (Horse.update dt) (horses g) w) as [hs w1].
  pose proof (forEach_clock (Cow.update dt) (wander_clock 4 5 Cow.speed dt)
                (cows g) w1) as H2.
  destruct (World.forEach (Cow.update dt) (cows g) w1) as [cs w2].
  pose proof (forEach_clock (Chicken.update dt) (wander_clock 1 2 Chicken.speed dt)
                (chickens g) w2) as H3.
  destruct (World.forEach (Chicken.update dt) (chickens g) w2) as [ks w3].
  cbn [fst snd] in *.
  repeat split; try reflexivity;
    destruct H1 as [A1 B1], H2 as [A2 B2], H3 as [A3 B3]; congruence.
Qed.

Lemma purgeSpines_children_incl l : forall s x,
  In x (Scene.children (purgeSpines l s)) -> In x (Scene.children s).
Proof.
  induction l as [|sd l IH]; intros s x H; [exact H|].
  simpl in H. apply IH in H. simpl in H. now apply removeFirst_incl in H.
Qed.

Lemma purgeSpines_disposed_mono l : forall s x,
  In x (Scene.disposed s) -> In x (Scene.disposed (purgeSpines l s)).
Proof.
  induction l as [|sd l IH]; intros s x H; [exact H|].
  simpl. apply IH. simpl. now right.
Qed.

Lemma purgeSpines_all l : forall s sd,
  NoDup (Scene.children s) -> In sd l ->
  ~ In (mesh sd) (Scene.children (purgeSpines l s))
  /\ In (mesh sd) (Scene.disposed (purgeSpines l s)).
Proof.
  induction l as [|x l IH]; intros s sd Hnd Hin; [contradiction|].
  simpl. destruct Hin as [-> | Hin].
  - split.
    + intros K. apply purgeSpines_children_incl in K. simpl in K.
      now apply removeFirst_gone in K.
    + apply purgeSpines_disposed_mono. simpl. now left.
  - apply IH; [|assumption]. simpl. now apply removeFirst_NoDup.
Qed.

Lemma wf_create cs bs hs cws ks : wf (create cs bs hs cws ks).
Proof.
  unfold wf, create. simpl. repeat split; constructor.
Qed.

End Frame.

(** C2.  In a frame that starts with the cooldown at 0 and a life left, and
    in which the player (at its position after its own update) collides with
    two or more loaded cacti, [takeDamage()] is called once per colliding
    cactus (each collision also reads the clock once) but exactly one call
    counts: one life is lost, one "Took damage" line is printed, the
    cooldown is [damageCooldownTime > 0], and every call after the first is
    rejected, leaving the player as the first call left it. *)
Theorem C2_one_hit_per_tick (deltaTime : R) (i : CowboyPlayer.Input)
    (g : RanchGame.t) (w : World.t) :
  CowboyPlayer.damageCooldown (RanchGame.player g) = 0 ->
  (0 < CowboyPlayer.lives (RanchGame.player g))%Z ->
  let p1 := CowboyPlayer.update deltaTime i (RanchGame.player g) in
  let n := RanchGame.collisions g (CowboyPlayer.position p1) in
  (2 <= n)%nat ->
  let r := RanchGame.update deltaTime i g w in
  let p' := RanchGame.player (fst r) in
  CowboyPlayer.lives p' = (CowboyPlayer.lives (RanchGame.player g) - 1)%Z
  /\ CowboyPlayer.damageCooldown p' = CowboyPlayer.damageCooldownTime
  /\ CowboyPlayer.damageCooldown p' > 0
  /\ RanchGame.console (fst r)
     = RanchGame.console g ++ [(CowboyPlayer.lives (RanchGame.player g) - 1)%Z]
  /\ World.clockPos (snd r) = (World.clockPos w + n + 1)%nat
  /\ p' = fst (RanchGame.hits n p1)
  /\ (forall k, (1 <= k)%nat -> RanchGame.hits k p1 = RanchGame.hits 1 p1)
  /\ CowboyPlayer.takeDamage p' = (p', []).
Proof.
  intros Hc Hl p1 n Hn r p'.
  assert (Hc1 : CowboyPlayer.damageCooldown p1 <= 0).
  { unfold p1. rewrite update_cooldown_expired; lra. }
  assert (Hl1 : CowboyPlayer.lives p1 = CowboyPlayer.lives (RanchGame.player g)).
  { apply update_lives. }
  assert (Hk : forall k, RanchGame.hits (S k) p1 =
     (CowboyPlayer.set_damageCooldown
        (CowboyPlayer.set_lives p1 (CowboyPlayer.lives p1 - 1))
        CowboyPlayer.damageCooldownTime,
      [(CowboyPlayer.lives p1 - 1)%Z])).
  { intros k. apply hits_once; [assumption | lia]. }
  pose proof (hazardPhase_spec deltaTime i g w) as H. cbv zeta in H.
  fold p1 in H. fold n in H.
  destruct H as (A & B & _ & _ & C & D & _).
  cbn [RanchGame.set_player RanchGame.player RanchGame.console] in A, B.
  assert (Er : r = RanchGame.animalPhase deltaTime
                     (fst (RanchGame.spinePhase
                             (fst (RanchGame.hazardPhase deltaTime i g w))
                             (snd (RanchGame.hazardPhase deltaTime i g w))))
                     (snd (RanchGame.spinePhase
                             (fst (RanchGame.hazardPhase deltaTime i g w))
                             (snd (RanchGame.hazardPhase deltaTime i g w))))).
  { unfold r. now rewrite update_phases. }
  destruct (RanchGame.hazardPhase deltaTime i g w) as [g1 w1].
  cbn [fst snd] in *.
  rewrite spinePhase_spec in Er. cbn [fst snd] in Er.
  match type of Er with
  | r = RanchGame.animalPhase _ ?g2 ?w2 =>
      destruct (animalPhase_spec deltaTime g2 w2) as (P1 & _ & _ & P4 & [_ P5])
  end.
  cbv zeta in P1, P4, P5. rewrite <- Er in P1, P4, P5.
  cbn [RanchGame.player RanchGame.console World.clockPos] in P1, P4, P5.
  destruct n as [|m]; [lia|].
  rewrite Hk in A, B. cbn [fst snd] in A, B.
  assert (Ep : p' = CowboyPlayer.set_damageCooldown
                      (CowboyPlayer.set_lives p1 (CowboyPlayer.lives p1 - 1))
                      CowboyPlayer.damageCooldownTime).
  { unfold p'. now rewrite P1, A. }
  assert (Hpos : CowboyPlayer.damageCooldown p' > 0).
  { rewrite Ep. simpl. unfold CowboyPlayer.damageCooldownTime. lra. }
  split; [rewrite Ep; simpl; now rewrite Hl1|].
  split; [rewrite Ep; reflexivity|].
  split; [exact Hpos|].
  split; [rewrite P4, B, Hl1; reflexivity|].
  split; [rewrite P5, D; lia|].
  split; [rewrite Hk; exact Ep|].
  split; [intros [|k] Hk1; [lia | now rewrite !Hk]|].
  apply takeDamage_rejected. now left.
Qed.

(** A choya of size 1 at the origin, loaded, and the player standing on it
    at the start of the game. *)
Lemma create_idle_position dt :
  CowboyPlayer.position (CowboyPlayer.update dt Run.idle CowboyPlayer.create)
  = vec3 0 CowboyPlayer.groundY 0.
Proof.
  destruct (update_quiet_vertical dt Run.idle CowboyPlayer.create idle_quiet)
    as (Hland & _ & Hx & Hz).
  destruct Hland as (Hy & _).
  { simpl. unfold CowboyPlayer.groundY, CowboyPlayer.gravity. lra. }
  destruct (CowboyPlayer.position _) as [x y z]. simpl in *. now subst.
Qed.

Lemma choya_under_player_collides :
  Choya.checkCollision
    (Choya.loadModel ModelArrived (Choya.create (vec3 0 0 0) (Some 1) 0))
    (vec3 0 CowboyPlayer.groundY 0) CowboyPlayer.getRadius = true.
Proof.
  apply Choya_checkCollision_iff. eexists. split; [reflexivity|].
  split; [reflexivity|].
  unfold distanceTo, CowboyPlayer.groundY, CowboyPlayer.getRadius. simpl.
  apply sqrt_lt_bound; nra.
Qed.

Lemma C2_one_hit_per_tick_witness :
  let c := Choya.loadModel ModelArrived (Choya.create (vec3 0 0 0) (Some 1) 0) in
  let g := RanchGame.create [c; c] [] [] [] [] in
  let w := World.mk (fun _ => 0) 0 (fun _ => 0%Z) 0 in
  let r := RanchGame.update 0.016 Run.idle g w in
  CowboyPlayer.lives (RanchGame.player (fst r)) = 2%Z
  /\ CowboyPlayer.damageCooldown (RanchGame.player (fst r)) > 0
  /\ RanchGame.console (fst r) = [2%Z].
Proof.
  cbv zeta.
  destruct (C2_one_hit_per_tick 0.016 Run.idle
              (RanchGame.create
                 [Choya.loadModel ModelArrived (Choya.create (vec3 0 0 0) (Some 1) 0);
                  Choya.loadModel ModelArrived (Choya.create (vec3 0 0 0) (Some 1) 0)]
                 [] [] [] [])
              (World.mk (fun _ => 0) 0 (fun _ => 0%Z) 0))
    as (A & _ & B & C & _).
  - reflexivity.
  - reflexivity.
  - unfold RanchGame.collisions, RanchGame.collidingChoyas,
      RanchGame.collidingBarrels.
    cbn [RanchGame.create RanchGame.updateLivesUI RanchGame.livesUI
         RanchGame.player CowboyPlayer.getLives CowboyPlayer.create
         CowboyPlayer.lives Z.leb Z.compare RanchGame.set_livesUI
         RanchGame.choyas RanchGame.barrelCacti filter].
    rewrite create_idle_position, choya_under_player_collides. simpl. lia.
  - split; [exact A | split; [exact B | exact C]].
Defined.

Lemma NoDup_map_filter {A B : Type} (f : A -> B) (keep : A -> bool) (l : list A) :
  NoDup (map f l) -> NoDup (map f (filter keep l)).
Proof.
  induction l as [|x l IH]; simpl; intros H; [constructor|].
  inversion H as [|? ? Hx Hl]; subst.
  destruct (keep x); simpl; [|auto].
  constructor; [|auto].
  intros K. apply Hx. apply in_map_iff in K. destruct K as (y & E & Hy).
  apply filter_In in Hy. rewrite <- E. apply in_map. tauto.
Qed.

(** C9.  In every frame the spines are aged at the time [now] read from the
    clock after the cactus loops, all of them: those already active and those
    spawned in this frame ([mid] is the game after the loops).  After the
    frame the active set is the spines of [mid] with
    [now - startTime < fadeDuration], and each of them has opacity
    [1 - elapsed / fadeDuration]; every spine with [elapsed >= fadeDuration]
    has left the active set, is no longer a child of the player's mesh and
    has been released.  [dispose()] empties the active set and detaches and
    releases every spine that was in it, whatever its age. *)
Theorem C9_spine_lifetime (deltaTime : R) (i : CowboyPlayer.Input)
    (g : RanchGame.t) (w : World.t) :
  RanchGame.wf g ->
  let hp := RanchGame.hazardPhase deltaTime i g w in
  let mid := fst hp in
  let now := World.clock w (World.clockPos (snd hp)) in
  let r := RanchGame.update deltaTime i g w in
  let g' := fst r in
  incl (RanchGame.activeSpines g) (RanchGame.activeSpines mid)
  /\ RanchGame.activeSpines g'
     = filter (RanchGame.fading now) (RanchGame.activeSpines mid)
  /\ (forall sd, In sd (RanchGame.activeSpines g') ->
        let elapsed := (now - RanchGame.startTime sd)%Z in
        (elapsed < RanchGame.fadeDuration sd)%Z
        /\ Scene.opacity (RanchGame.scene g') (RanchGame.mesh sd)
           = 1.0 - IZR elapsed / IZR (RanchGame.fadeDuration sd))
  /\ (forall sd, In sd (RanchGame.activeSpines mid) ->
        (now - RanchGame.startTime sd >= RanchGame.fadeDuration sd)%Z ->
        ~ In sd (RanchGame.activeSpines g')
        /\ ~ In (RanchGame.mesh sd) (Scene.children (RanchGame.scene g'))
        /\ In (RanchGame.mesh sd) (Scene.disposed (RanchGame.scene g')))
  /\ World.clockPos (snd r) = S (World.clockPos (snd hp))
  /\ RanchGame.wf g'
  /\ RanchGame.activeSpines (RanchGame.dispose g) = []
  /\ (forall sd, In sd (RanchGame.activeSpines g) ->
        ~ In (RanchGame.mesh sd)
             (Scene.children (RanchGame.scene (RanchGame.dispose g)))
        /\ In (RanchGame.mesh sd)
              (Scene.disposed (RanchGame.scene (RanchGame.dispose g)))).
Proof.
  intros Hwf hp mid now r g'.
  pose proof (hazardPhase_spec deltaTime i g w) as H. cbv zeta in H.
  destruct H as (_ & _ & _ & _ & Hclock & _ & Hext). fold hp in Hclock, Hext.
  assert (Hwfmid : RanchGame.wf mid).
  { eapply wf_extends; [|exact Hext]. exact Hwf. }
  assert (Er : r = RanchGame.animalPhase deltaTime
                     (fst (RanchGame.spinePhase mid (snd hp)))
                     (snd (RanchGame.spinePhase mid (snd hp)))).
  { unfold r. now rewrite update_phases. }
  rewrite spinePhase_spec in Er. cbn [fst snd] in Er.
  rewrite Hclock in Er. fold now in Er.
  match type of Er with
  | r = RanchGame.animalPhase _ ?g2 ?w2 =>
      destruct (animalPhase_spec deltaTime g2 w2) as (_ & P2 & P3 & _ & [_ P5])
  end.
  cbv zeta in P2, P3, P5. rewrite <- Er in P2, P3, P5.
  cbn [RanchGame.activeSpines RanchGame.scene World.clockPos] in P2, P3, P5.
  fold g' in P2, P3.
  destruct Hwfmid as (M1 & M2 & M3 & M4).
  assert (Hact : forall sd, In sd (RanchGame.activeSpines g') <->
                   In sd (RanchGame.activeSpines mid)
                   /\ RanchGame.fading now sd = true).
  { intros sd. rewrite P2. apply filter_In. }
  split; [| split; [exact P2 | split; [| split; [| split; [exact P5 | split; [| split]]]]]].
  - destruct Hext as (new & k & A & _). simpl in A. unfold mid. rewrite A.
    apply incl_appl, incl_refl.
  - intros sd Hsd. apply Hact in Hsd. destruct Hsd as [Hin Hf]. cbv zeta.
    split; [unfold RanchGame.fading in Hf; now apply Z.ltb_lt in Hf|].
    rewrite P3. apply ageScene_fading; [| now apply -> in_rev | exact Hf].
    rewrite map_rev. apply NoDup_rev. exact M1.
  - intros sd Hin Hexp.
    assert (Hf : RanchGame.fading now sd = false).
    { unfold RanchGame.fading. apply Z.ltb_ge. lia. }
    split; [rewrite Hact, Hf; intros [_ K]; discriminate|].
    rewrite P3. apply ageScene_expired; [exact M2 | now apply -> in_rev | exact Hf].
  - unfold RanchGame.wf. rewrite P2, P3, ageScene_nextMesh.
    split; [| split; [| split]].
    + apply NoDup_map_filter. exact M1.
    + apply ageScene_children_NoDup. exact M2.
    + rewrite Forall_forall in M3 |- *. intros x Hx. apply M3.
      apply in_map_iff in Hx. destruct Hx as (sd & <- & Hsd).
      apply filter_In in Hsd. apply in_map. tauto.
    + rewrite Forall_forall in M4 |- *. intros x Hx. apply M4.
      now apply ageScene_children_incl in Hx.
  - reflexivity.
  - intros sd Hin. unfold RanchGame.dispose.
    cbn [RanchGame.set_activeSpines RanchGame.set_scene RanchGame.scene].
    apply purgeSpines_all; [|exact Hin]. now destruct Hwf as (_ & W2 & _).
Qed.

Lemma C9_spine_lifetime_witness :
  let old := RanchGame.mkSpine 0 0 3000 in
  let young := RanchGame.mkSpine 1 4000 3000 in
  let g := RanchGame.mk CowboyPlayer.create [] [] [] [] [] None [old; young]
             (Scene.mk [0; 1]%nat (fun _ => 1) [] 2) [] in
  let w := World.mk (fun _ => 0) 0 (fun _ => 5000%Z) 0 in
  let g' := fst (RanchGame.update 0.016 Run.idle g w) in
  RanchGame.activeSpines g' = [young]
  /\ Scene.opacity (RanchGame.scene g') 1 = 1.0 - IZR 1000 / IZR 3000
  /\ ~ In 0%nat (Scene.children (RanchGame.scene g'))
  /\ In 0%nat (Scene.disposed (RanchGame.scene g')).
Proof.
  cbv zeta.
  destruct (C9_spine_lifetime 0.016 Run.idle
              (RanchGame.mk CowboyPlayer.create [] [] [] [] [] None
                 [RanchGame.mkSpine 0 0 3000; RanchGame.mkSpine 1 4000 3000]
                 (Scene.mk [0; 1]%nat (fun _ => 1) [] 2) [])
              (World.mk (fun _ => 0) 0 (fun _ => 5000%Z) 0))
    as (_ & B & C & D & _).
  - unfold RanchGame.wf. simpl.
    repeat split; repeat constructor; simpl; intuition lia.
  - split; [exact B|].
    split.
    + apply (C (RanchGame.mkSpine 1 4000 3000)). rewrite B. simpl. now left.
    + apply (D (RanchGame.mkSpine 0 0 3000)); [simpl; now left | simpl; lia].
Defined.

(* ================================================================== *)
(** * Further properties of the code *)
(* ================================================================== *)

(** ** The flight of the player *)

Section FlightFacts.

Import CowboyPlayer.

Lemma handleInput_vertical i p :
  let h := handleInput i p in
  vy (position h) = vy (position p)
  /\ ((shouldJump i && onGround p = true
       /\ vy (velocity h) = jumpForce /\ onGround h = false)
      \/ (shouldJump i && onGround p = false
          /\ velocity h = velocity p /\ onGround h = onGround p)).
Proof.
  cbv zeta. unfold handleInput.
  rewrite applyCamera_position, applyCamera_velocity, applyCamera_onGround,
    applyJump_position, applyMovement_y.
  split; [reflexivity|].
  unfold applyJump. rewrite applyMovement_onGround.
  destruct (shouldJump i && onGround p) eqn:E; [left | right];
    (split; [reflexivity|]); simpl;
    [split; reflexivity | now rewrite applyMovement_velocity, applyMovement_onGround].
Qed.

Lemma energy_applyPhysics p : Flight.energy (applyPhysics p) = Flight.energy p.
Proof. unfold Flight.energy. simpl. ring. Qed.

Lemma inv_create : Flight.inv create.
Proof.
  unfold Flight.inv, Flight.energy, Flight.energyAtJump. simpl.
  unfold groundY, gravity, jumpForce.
  split; [lra | split; [lra | discriminate]].
Qed.

Lemma inv_update dt i p : Flight.inv p -> Flight.inv (update dt i p).
Proof.
  intros (Hy & He & Hg). unfold update.
  set (p0 := tickCooldown dt p).
  assert (Hy0 : vy (position p0) = vy (position p))
    by (unfold p0; now rewrite tickCooldown_position).
  assert (Hv0 : velocity p0 = velocity p)
    by (unfold p0; apply tickCooldown_velocity).
  assert (Hg0 : onGround p0 = onGround p)
    by (unfold p0; apply tickCooldown_onGround).
  destruct (handleInput_vertical i p0) as (Hyh & Hcase). cbv zeta in Hyh, Hcase.
  set (h := handleInput i p0) in *.
  assert (Hh : groundY <= vy (position h) /\ Flight.energy h <= Flight.energyAtJump).
  { split; [rewrite Hyh, Hy0; exact Hy|].
    destruct Hcase as [(Hj & Hvj & _) | (_ & Hvs & _)].
    - apply andb_true_iff in Hj. destruct Hj as [_ Hon].
      rewrite Hg0 in Hon. destruct (Hg Hon) as [Ey _].
      unfold Flight.energy, Flight.energyAtJump.
      rewrite Hyh, Hy0, Ey, Hvj. lra.
    - unfold Flight.energy in He |- *. rewrite Hyh, Hy0, Hvs, Hv0. exact He. }
  destruct Hh as [Hyh' Heh].
  rewrite <- energy_applyPhysics in Heh.
  set (q := applyPhysics h) in *.
  destruct (checkGroundCollision_cases q) as (C1 & C2 & C3 & C4 & _).
  cbv zeta in *.
  destruct (Rle_dec (vy (position q)) groundY) as [Hle | Hgt].
  - destruct (C3 Hle) as [Ey Ev].
    split; [lra | split; [| intros _; split; assumption]].
    unfold Flight.energy, Flight.energyAtJump. rewrite Ey, Ev.
    unfold groundY, gravity, jumpForce. lra.
  - assert (Hgt' : groundY < vy (position q)) by lra.
    destruct (C4 Hgt') as [Ep Ev].
    split; [lra | split].
    + unfold Flight.energy in Heh |- *. rewrite Ep, Ev. exact Heh.
    + intros Hon. apply C2 in Hon. lra.
Qed.

Lemma inv_takeDamage p : Flight.inv p -> Flight.inv (fst (takeDamage p)).
Proof.
  unfold takeDamage. destruct (leb _ _ && _); simpl; auto.
Qed.

Lemma inv_run es : forall p, Flight.inv p -> Flight.inv (Run.run es p).
Proof.
  induction es as [|e es IH]; intros p H; [exact H|].
  change (Flight.inv (Run.run es (Run.step p e))).
  apply IH. destruct e as [dt i|]; simpl;
    [now apply inv_update | now apply inv_takeDamage].
Qed.

End FlightFacts.

(** X1.  From the start of the game, whatever the inputs, the frames and
    the hits: the player is never below the ground plane and never higher
    than 5.44 (a jump from the ground peaks at 5.435: there is no second
    jump in the air), and its vertical speed stays between -0.385 and
    [jumpForce = 0.4] per frame. *)
Theorem jump_height_bounded (es : list Run.Event) :
  let p := Run.run es CowboyPlayer.create in
  CowboyPlayer.groundY <= vy (CowboyPlayer.position p) <= 5.44
  /\ - 0.385 <= vy (CowboyPlayer.velocity p) <= CowboyPlayer.jumpForce.
Proof.
  cbv zeta.
  destruct (inv_run es CowboyPlayer.create inv_create) as (Hy & He & _).
  unfold Flight.energy, Flight.energyAtJump in He.
  set (y := vy (CowboyPlayer.position (Run.run es CowboyPlayer.create))) in *.
  set (v := vy (CowboyPlayer.velocity (Run.run es CowboyPlayer.create))) in *.
  unfold CowboyPlayer.groundY, CowboyPlayer.gravity, CowboyPlayer.jumpForce in *.
  assert (E : 0.03 * y + v * v - 0.015 * v <= 0.163) by lra.
  repeat split; try lra; nra.
Qed.

(** The peak is reached: a jump from the ground, then 25 frames of rise. *)
Example jump_reaches_5_435 :
  let jump := CowboyPlayer.mkInput false (0, 0) false false false false true
                false false (0, 0) (0, 0) in
  exists es,
    vy (CowboyPlayer.position (Run.run es CowboyPlayer.create)) = 5.435.
Proof.
  cbv zeta.
  set (jump := CowboyPlayer.mkInput false (0, 0) false false false false true
                 false false (0, 0) (0, 0)).
  exists (Run.Tick 0 Run.idle :: Run.Tick 0 jump
          :: repeat (Run.Tick 0 Run.idle) 25).
  assert (Hq : Run.quiet Run.idle) by exact idle_quiet.
  (* after the first frame the player stands on the ground *)
  set (p1 := CowboyPlayer.update 0 Run.idle CowboyPlayer.create).
  assert (G1 : Run.grounded p1).
  { destruct (update_quiet_vertical 0 Run.idle CowboyPlayer.create Hq) as (L & _).
    apply L. simpl. unfold CowboyPlayer.groundY, CowboyPlayer.gravity. lra. }
  destruct G1 as (Y1 & V1 & O1).
  (* take-off *)
  set (p2 := CowboyPlayer.update 0 jump p1).
  assert (S2 : vy (CowboyPlayer.position p2) = 0.3 + 0.385
               /\ vy (CowboyPlayer.velocity p2) = 0.385).
  { unfold p2, CowboyPlayer.update.
    set (p0 := CowboyPlayer.tickCooldown 0 p1).
    destruct (handleInput_vertical jump p0) as (Hyh & Hcase).
    cbv zeta in Hyh, Hcase.
    assert (O0 : CowboyPlayer.onGround p0 = true)
      by (unfold p0; now rewrite tickCooldown_onGround).
    destruct Hcase as [(_ & Hv & _) | (Hj & _)];
      [| simpl in Hj; rewrite O0 in Hj; discriminate].
    set (h := CowboyPlayer.handleInput jump p0) in *.
    destruct (checkGroundCollision_cases (CowboyPlayer.applyPhysics h))
      as (_ & _ & _ & C4 & _).
    cbv zeta in C4.
    assert (Eq : vy (CowboyPlayer.position (CowboyPlayer.applyPhysics h)) = 0.3 + 0.385).
    { simpl. rewrite Hyh. unfold p0. rewrite tickCooldown_position, Y1, Hv.
      unfold CowboyPlayer.groundY, CowboyPlayer.jumpForce, CowboyPlayer.gravity. lra. }
    destruct C4 as [Ep Ev]; [rewrite Eq; unfold CowboyPlayer.groundY; lra|].
    rewrite Ep, Ev, Eq. split; [reflexivity|]. simpl. rewrite Hv.
    unfold CowboyPlayer.jumpForce, CowboyPlayer.gravity. lra. }
  (* [k] frames of flight *)
  assert (Rise : forall k q, (k <= 25)%nat ->
            0.3 < vy (CowboyPlayer.position q) ->
            vy (CowboyPlayer.velocity q) = 0.385 - 0.015 * INR (25 - k) ->
            vy (CowboyPlayer.position (Run.run (repeat (Run.Tick 0 Run.idle) k) q))
            = vy (CowboyPlayer.position q)
              + INR k * (0.385 - 0.015 * INR (25 - k))
              - 0.015 * (INR k * (INR k + 1) / 2)).
  { induction k as [|k IHk]; intros q Hk Hy Hv.
    - simpl. lra.
    - change (repeat (Run.Tick 0 Run.idle) (S k))
        with (Run.Tick 0 Run.idle :: repeat (Run.Tick 0 Run.idle) k).
      change (Run.run (Run.Tick 0 Run.idle :: ?l) q)
        with (Run.run l (CowboyPlayer.update 0 Run.idle q)).
      assert (Ek : INR (25 - k) = INR (25 - S k) + 1).
      { rewrite <- S_INR. f_equal. lia. }
      assert (Hr : 0 <= INR (25 - S k) <= 24).
      { split; [apply pos_INR|].
        replace 24 with (INR 24) by (simpl; lra). apply le_INR. lia. }
      destruct (update_quiet_vertical 0 Run.idle q Hq) as (_ & A & _).
      cbv zeta in A.
      destruct A as [Ey Ev];
        [rewrite Hv; unfold CowboyPlayer.groundY, CowboyPlayer.gravity; lra|].
      rewrite IHk; [| lia | | ].
      + rewrite Ey, Hv, S_INR, Ek. unfold CowboyPlayer.gravity.
        set (a := INR k). set (b := INR (25 - S k)). nra.
      + rewrite Ey, Hv. unfold CowboyPlayer.gravity. lra.
      + rewrite Ev, Hv, Ek. unfold CowboyPlayer.gravity. lra. }
  change (Run.run (Run.Tick 0 Run.idle :: Run.Tick 0 jump :: ?l) CowboyPlayer.create)
    with (Run.run l p2).
  destruct S2 as [Y2 V2].
  rewrite (Rise 25%nat p2); [| lia | lra | rewrite V2; simpl; lra].
  rewrite Y2. simpl. lra.
Qed.

(** ** How fast lives can be lost *)

Section HitRate.

Import CowboyPlayer.

Lemma run_lives_le es : forall p, (lives (Run.run es p) <= lives p)%Z.
Proof.
  induction es as [|e es IH]; intros p; [simpl; lia|].
  change (lives (Run.run es (Run.step p e)) <= lives p)%Z.
  specialize (IH (Run.step p e)).
  destruct (step_lives_cases p e) as [E | [_ E]]; lia.
Qed.

Lemma lost_tick dt i es p : Flight.lost (Run.Tick dt i :: es) p
                            = Flight.lost es (update dt i p).
Proof.
  unfold Flight.lost.
  change (Run.run (Run.Tick dt i :: es) p) with (Run.run es (update dt i p)).
  now rewrite update_lives.
Qed.

Lemma lost_damage es p : Flight.lost (Run.Damage :: es) p
  = (lives p - lives (fst (takeDamage p)) + Flight.lost es (fst (takeDamage p)))%Z.
Proof.
  unfold Flight.lost.
  change (Run.run (Run.Damage :: es) p) with (Run.run es (fst (takeDamage p))).
  lia.
Qed.

(** With the exact subtraction: either no life is lost, or the hits after
    the first are each a full cooldown apart, the first one waiting for the
    cooldown in progress. *)
Lemma lost_needs_time es : forall p,
  Run.forward es ->
  Flight.lost es p = 0%Z
  \/ (IZR (Flight.lost es p) - 1) * damageCooldownTime
     + Rmax (damageCooldown p) 0 <= Run.elapsed es.
Proof.
  induction es as [|e es IH]; intros p Hf.
  - left. unfold Flight.lost. simpl. lia.
  - destruct e as [dt i|].
    + destruct Hf as [Hdt Hf]. rewrite lost_tick. simpl Run.elapsed.
      destruct (IH (update dt i p) Hf) as [E | E]; [now left | right].
      eapply Rle_trans; [| apply Rplus_le_compat_l; exact E].
      assert (Rmax (damageCooldown p) 0
              <= dt + Rmax (damageCooldown (update dt i p)) 0); [|lra].
      destruct (Rlt_dec 0 (damageCooldown p)) as [Hc | Hc].
      * rewrite update_cooldown_running by lra.
        unfold Rmax. repeat destruct (Rle_dec _ _); lra.
      * rewrite update_cooldown_expired by lra. lra.
    + simpl in Hf. rewrite lost_damage. simpl Run.elapsed.
      pose proof (elapsed_nonneg es Hf) as Hn.
      destruct (Rlt_dec 0 (damageCooldown p)) as [Hc | Hc].
      * rewrite takeDamage_rejected by (left; lra). simpl fst.
        rewrite Z.sub_diag, Z.add_0_l. apply IH. exact Hf.
      * destruct (Z_lt_le_dec 0 (lives p)) as [Hl | Hl].
        -- rewrite takeDamage_accepted by (lra || lia). simpl fst.
           set (p1 := set_damageCooldown _ _).
           replace (lives p - lives p1)%Z with 1%Z by (unfold p1; simpl; lia).
           right. rewrite Rmax_right by lra.
           destruct (IH p1 Hf) as [E | E].
           ++ rewrite E. simpl. lra.
           ++ rewrite plus_IZR.
              assert (Ec : damageCooldown p1 = damageCooldownTime) by reflexivity.
              rewrite Ec in E. unfold damageCooldownTime in *.
              rewrite Rmax_left in E by lra. lra.
        -- rewrite takeDamage_rejected by (right; lia). simpl fst.
           rewrite Z.sub_diag, Z.add_0_l. apply IH. exact Hf.
Qed.

End HitRate.

(** X2.  Over any run of frames (each with [deltaTime >= 0]) and calls of
    [takeDamage()], in any order and from any state, lives are never
    gained, and every life lost after the first takes at least half a
    cooldown time of frames:
    [(lost - 1) * damageCooldownTime / 2 <= elapsed].  (Half, because the
    code's [damageCooldown -= deltaTime] is a rounded subtraction that can
    take up to twice [deltaTime] off the cooldown; a bound with the whole
    cooldown time does not hold of the code.) *)
Theorem lives_lost_at_most_one_per_cooldown (es : list Run.Event)
    (p : CowboyPlayer.t) :
  Run.forward es ->
  (0 <= Flight.lost es p)%Z
  /\ (IZR (Flight.lost es p) - 1) * (CowboyPlayer.damageCooldownTime / 2)
     <= Run.elapsed es.
Proof.
  intros Hf. split.
  - unfold Flight.lost. pose proof (run_lives_le es p). lia.
  - pose proof (elapsed_nonneg es Hf) as Hn.
    destruct (lost_needs_time es p Hf) as [E | E].
    + rewrite E. unfold CowboyPlayer.damageCooldownTime. simpl. lra.
    + pose proof (Rmax_r (CowboyPlayer.damageCooldown p) 0) as Hm.
      unfold CowboyPlayer.damageCooldownTime in *.
      destruct (Rle_or_lt 1 (IZR (Flight.lost es p))) as [H1 | H1]; lra.
Qed.

Lemma lives_lost_at_most_one_per_cooldown_witness :
  let es := [Run.Damage; Run.Tick 0.4 Run.idle; Run.Damage;
             Run.Tick 0.7 Run.idle; Run.Damage] in
  (0 <= Flight.lost es CowboyPlayer.create)%Z
  /\ (IZR (Flight.lost es CowboyPlayer.create) - 1)
     * (CowboyPlayer.damageCooldownTime / 2) <= Run.elapsed es.
Proof.
  cbv zeta.
  apply (lives_lost_at_most_one_per_cooldown
           [Run.Damage; Run.Tick 0.4 Run.idle; Run.Damage;
            Run.Tick 0.7 Run.idle; Run.Damage] CowboyPlayer.create).
  simpl. repeat split; lra.
Defined.

(** ** Walking *)

Section Walking.

Import CowboyPlayer.

Lemma moveDirection_flat i : vy (moveDirection i) = 0.
Proof. unfold moveDirection. now destruct (isMobile i). Qed.

Lemma applyMovement_moving i p :
  Num.length (moveDirection i) > 0 ->
  let w := Steering.worldMoveDirection i (cameraRotationY p) in
  applyMovement i p =
    set_rotation
      (set_position p
         (vec3 (vx (position p) + vx w * speed) (vy (position p))
               (vz (position p) + vz w * speed)))
      (Math_atan2 (vx w) (vz w)).
Proof.
  intros H. cbv zeta. unfold applyMovement.
  replace (gtb (Num.length (moveDirection i)) 0) with true
    by (symmetry; cmp_true).
  reflexivity.
Qed.

(** The direction of travel has length one and no vertical part, whatever
    the keys held or the tilt of the joystick. *)
Lemma worldMoveDirection_unit i angle :
  Num.length (moveDirection i) > 0 ->
  let w := Steering.worldMoveDirection i angle in
  vx w * vx w + vz w * vz w = 1 /\ vy w = 0.
Proof.
  intros HL. cbv zeta. unfold Steering.worldMoveDirection.
  set (m := moveDirection i) in *.
  assert (Hy : vy m = 0) by apply moveDirection_flat.
  set (L := Num.length m) in *.
  assert (HLL : L * L = vx m * vx m + vz m * vz m).
  { unfold L, Num.length. rewrite sqrt_sqrt; [nra | nra]. }
  assert (Hn : normalize m = vec3 (vx m / L) (vy m / L) (vz m / L)).
  { unfold normalize. fold L.
    replace (ltb 0 L) with true by (symmetry; cmp_true). reflexivity. }
  rewrite Hn. cbn [vx vy vz].
  set (a := vx m / L). set (b := vz m / L).
  assert (Hab : a * a + b * b = 1).
  { unfold a, b.
    replace (vx m / L * (vx m / L) + vz m / L * (vz m / L))
      with ((vx m * vx m + vz m * vz m) / (L * L)) by (field; lra).
    rewrite <- HLL. field. lra. }
  pose proof (sin2_cos2 angle) as Hsc. unfold Rsqr in Hsc.
  set (s := sin angle) in *. set (c := cos angle) in *.
  unfold addScaledVector. cbn [vx vy vz].
  set (wx := 0 + - s * b + c * a).
  set (wy := 0 + 0 * b + 0 * a).
  set (wz := 0 + - c * b + - s * a).
  assert (Hw : wx * wx + wy * wy + wz * wz = 1).
  { unfold wx, wy, wz. nra. }
  assert (Hlen : Num.length (vec3 wx wy wz) = 1).
  { unfold Num.length. cbn [vx vy vz]. rewrite Hw. apply sqrt_1. }
  unfold normalize. rewrite Hlen.
  replace (ltb 0 1) with true by (symmetry; cmp_true).
  cbn [vx vy vz]. unfold wy in *. split; [|lra].
  replace (wx / 1 * (wx / 1) + wz / 1 * (wz / 1)) with (wx * wx + wz * wz)
    by (field; lra).
  lra.
Qed.

Lemma applyJump_rotation i p : rotation (applyJump i p) = rotation p.
Proof. unfold applyJump. now destruct (shouldJump i && onGround p). Qed.

Lemma applyCamera_rotation i p : rotation (applyCamera i p) = rotation p.
Proof. unfold applyCamera. destruct (isMobile i), (pointerLocked i); reflexivity. Qed.

Lemma handleInput_walk i p :
  position (handleInput i p) = position (applyMovement i p)
  /\ rotation (handleInput i p) = rotation (applyMovement i p).
Proof.
  unfold handleInput.
  now rewrite applyCamera_position, applyJump_position, applyCamera_rotation,
    applyJump_rotation.
Qed.

Lemma length_nonneg v : 0 <= Num.length v.
Proof. apply sqrt_pos. Qed.

End Walking.

(** X3.  When the keys or the joystick ask for a movement, [handleInput]
    moves the player horizontally by exactly [speed] (0.12), whatever the
    number of keys held or the tilt of the joystick, keeps its height, and
    turns it to face the way it moved: [(sin rotation, cos rotation) * speed]
    is the displacement.  When they ask for none (the zero vector), position
    and facing are left as they were. *)
Theorem walk_at_constant_speed (i : CowboyPlayer.Input) (p : CowboyPlayer.t) :
  let p' := CowboyPlayer.handleInput i p in
  let dx := vx (CowboyPlayer.position p') - vx (CowboyPlayer.position p) in
  let dz := vz (CowboyPlayer.position p') - vz (CowboyPlayer.position p) in
  (Num.length (CowboyPlayer.moveDirection i) > 0 ->
     dx * dx + dz * dz = CowboyPlayer.speed * CowboyPlayer.speed
     /\ vy (CowboyPlayer.position p') = vy (CowboyPlayer.position p)
     /\ sin (CowboyPlayer.rotation p') * CowboyPlayer.speed = dx
     /\ cos (CowboyPlayer.rotation p') * CowboyPlayer.speed = dz)
  /\ (Num.length (CowboyPlayer.moveDirection i) <= 0 ->
      CowboyPlayer.position p' = CowboyPlayer.position p
      /\ CowboyPlayer.rotation p' = CowboyPlayer.rotation p).
Proof.
  cbv zeta. destruct (handleInput_walk i p) as [Ep Er]. rewrite Ep, Er.
  split.
  - intros HL. rewrite applyMovement_moving by exact HL.
    destruct (worldMoveDirection_unit i (CowboyPlayer.cameraRotationY p) HL)
      as [Hu _].
    cbv zeta in Hu.
    set (w := Steering.worldMoveDirection i (CowboyPlayer.cameraRotationY p)) in *.
    cbn [CowboyPlayer.set_rotation CowboyPlayer.set_position
         CowboyPlayer.position CowboyPlayer.rotation vx vy vz].
    assert (Hnz : vx w <> 0 \/ vz w <> 0).
    { destruct (Req_dec (vx w) 0) as [E|E]; [right | left; exact E].
      rewrite E in Hu. intros E'. rewrite E' in Hu. lra. }
    destruct (atan2_direction (vx w) (vz w) Hnz) as [Hs Hc].
    rewrite Hu, sqrt_1 in Hs, Hc. rewrite Hs, Hc.
    split; [nra|]. split; [reflexivity|]. split; field.
  - intros HL.
    assert (E : Num.length (CowboyPlayer.moveDirection i) = 0).
    { pose proof (length_nonneg (CowboyPlayer.moveDirection i)). lra. }
    rewrite applyMovement_quiet by exact E. split; reflexivity.
Qed.

(** ** Looking around *)

Section Looking.

Import CowboyPlayer.

Lemma PI_above_3 : 3 < PI.
Proof. pose proof PI2_3_2. lra. Qed.

Lemma clampPitch_range rx : - PI / 3 <= clampPitch rx <= PI / 3.
Proof.
  pose proof PI_above_3.
  unfold clampPitch, Math_max, Math_min. split.
  - apply Rmax_l.
  - apply Rmax_lub; [lra | apply Rmin_l].
Qed.

Lemma clampPitch_inside rx : - PI / 3 <= rx <= PI / 3 -> clampPitch rx = rx.
Proof.
  intros [H1 H2]. unfold clampPitch, Math_max, Math_min.
  rewrite Rmin_right by lra. now rewrite Rmax_right by lra.
Qed.

(** The parts of [update] other than the camera look leave the camera
    angles alone. *)
Lemma camera_angles_kept dt i p :
  let q := applyJump i (applyMovement i (tickCooldown dt p)) in
  cameraRotationX q = cameraRotationX p /\ cameraRotationY q = cameraRotationY p.
Proof.
  cbv zeta. unfold applyJump, applyMovement, tickCooldown.
  repeat match goal with
         | |- context [if ?b then _ else _] => destruct b
         end; split; reflexivity.
Qed.

Lemma physics_camera_angles p :
  cameraRotationX (checkGroundCollision (applyPhysics p)) = cameraRotationX p
  /\ cameraRotationY (checkGroundCollision (applyPhysics p)) = cameraRotationY p.
Proof. unfold checkGroundCollision. destruct (leb _ _); split; reflexivity. Qed.

Lemma applyCamera_pitch i p :
  (isMobile i || pointerLocked i = true ->
     - PI / 3 <= cameraRotationX (applyCamera i p) <= PI / 3)
  /\ (isMobile i || pointerLocked i = false -> applyCamera i p = p).
Proof.
  unfold applyCamera.
  destruct (isMobile i); [|destruct (pointerLocked i)]; simpl;
    split; intros H; try discriminate; try reflexivity;
    apply clampPitch_range.
Qed.

Lemma update_pitch dt i p :
  - PI / 3 <= cameraRotationX p <= PI / 3 ->
  - PI / 3 <= cameraRotationX (update dt i p) <= PI / 3.
Proof.
  intros H. unfold update, handleInput.
  destruct (physics_camera_angles
              (applyCamera i (applyJump i (applyMovement i (tickCooldown dt p)))))
    as [E _].
  rewrite E.
  destruct (applyCamera_pitch i (applyJump i (applyMovement i (tickCooldown dt p))))
    as [A B].
  destruct (isMobile i || pointerLocked i) eqn:K.
  - now apply A.
  - rewrite B by reflexivity.
    destruct (camera_angles_kept dt i p) as [Ex _]. cbv zeta in Ex.
    now rewrite Ex.
Qed.

Lemma takeDamage_pitch p :
  cameraRotationX (fst (takeDamage p)) = cameraRotationX p.
Proof. unfold takeDamage. now destruct (leb _ _ && _). Qed.

End Looking.

(** X4.  The camera pitch never leaves [-PI/3, PI/3]: it starts inside
    (0.3), every look input handled by [handleInput] (touch drag on mobile,
    mouse while the pointer is locked) clamps it into the interval whatever
    it was before, and nothing else changes it.  Without such an input the
    camera angles are left untouched. *)
Theorem pitch_stays_clamped (es : list Run.Event) (i : CowboyPlayer.Input)
    (p : CowboyPlayer.t) :
  (- PI / 3 <= CowboyPlayer.cameraRotationX (Run.run es CowboyPlayer.create)
   <= PI / 3)
  /\ (CowboyPlayer.isMobile i || CowboyPlayer.pointerLocked i = true ->
      - PI / 3 <= CowboyPlayer.cameraRotationX (CowboyPlayer.handleInput i p)
      <= PI / 3)
  /\ (CowboyPlayer.isMobile i || CowboyPlayer.pointerLocked i = false ->
      CowboyPlayer.cameraRotationX (CowboyPlayer.handleInput i p)
        = CowboyPlayer.cameraRotationX p
      /\ CowboyPlayer.cameraRotationY (CowboyPlayer.handleInput i p)
         = CowboyPlayer.cameraRotationY p).
Proof.
  split; [| split].
  - assert (H0 : - PI / 3 <= CowboyPlayer.cameraRotationX CowboyPlayer.create
                 <= PI / 3).
    { pose proof PI_above_3. simpl. lra. }
    revert H0. generalize CowboyPlayer.create.
    induction es as [|e es IH]; intros q Hq; [exact Hq|].
    change (- PI / 3 <= CowboyPlayer.cameraRotationX (Run.run es (Run.step q e))
            <= PI / 3).
    apply IH. destruct e as [dt j|]; simpl.
    + now apply update_pitch.
    + now rewrite takeDamage_pitch.
  - intros H. unfold CowboyPlayer.handleInput.
    now apply applyCamera_pitch.
  - intros H. unfold CowboyPlayer.handleInput.
    destruct (applyCamera_pitch i
                (CowboyPlayer.applyJump i (CowboyPlayer.applyMovement i p)))
      as [_ B].
    rewrite B by exact H.
    unfold CowboyPlayer.applyJump, CowboyPlayer.applyMovement.
    repeat match goal with
           | |- context [if ?b then _ else _] => destruct b
           end; split; reflexivity.
Qed.

(** ** The orbit camera *)

(** X5.  [updateCamera] never leaves the camera below height 0.5.  Seen from
    above, the camera is always [cameraDistance * |cos pitch|] away from the
    player, in the direction of the yaw; unless the floor clamp applies, it
    sits exactly [cameraDistance] (8) from the point [cameraHeight] (4)
    above the player.  It always looks at the player. *)
Theorem camera_orbit (p : CowboyPlayer.t) :
  let c := CowboyCamera.updateCamera p in
  let pos := CowboyPlayer.position p in
  let cam := CowboyCamera.camPosition c in
  let D := CowboyCamera.cameraDistance in
  let H := CowboyCamera.cameraHeight in
  let rx := CowboyPlayer.cameraRotationX p in
  let ry := CowboyPlayer.cameraRotationY p in
  0.5 <= vy cam
  /\ CowboyCamera.camTarget c = pos
  /\ vx cam - vx pos = sin ry * (cos rx * D)
  /\ vz cam - vz pos = cos ry * (cos rx * D)
  /\ (vx cam - vx pos) * (vx cam - vx pos) + (vz cam - vz pos) * (vz cam - vz pos)
     = (cos rx * D) * (cos rx * D)
  /\ (0.5 <= vy pos + sin rx * D + H ->
      distanceTo cam (vec3 (vx pos) (vy pos + H) (vz pos)) = D)
  /\ (vy pos + sin rx * D + H < 0.5 -> vy cam = 0.5).
Proof.
  cbv zeta. unfold CowboyCamera.updateCamera.
  set (rx := CowboyPlayer.cameraRotationX p).
  set (ry := CowboyPlayer.cameraRotationY p).
  set (pos := CowboyPlayer.position p).
  set (D := CowboyCamera.cameraDistance).
  set (H := CowboyCamera.cameraHeight).
  cbn [vx vy vz].
  pose proof (sin2_cos2 rx) as Hx. pose proof (sin2_cos2 ry) as Hy.
  unfold Rsqr in Hx, Hy.
  assert (HD : D = 8) by reflexivity.
  destruct (ltb (vy pos + (sin rx * D + H)) 0.5) eqn:K;
    [apply ltb_true_iff in K | apply ltb_false_iff in K];
    cbn [CowboyCamera.camPosition CowboyCamera.camTarget vx vy vz].
  - split; [lra|]. split; [reflexivity|].
    split; [ring|]. split; [ring|]. split; [nra|]. split; [lra | reflexivity].
  - split; [lra|]. split; [reflexivity|].
    split; [ring|]. split; [ring|]. split; [nra|]. split; [|lra].
    intros _. unfold distanceTo. cbn [vx vy vz].
    replace ((vx pos + sin ry * cos rx * D - vx pos)
             * (vx pos + sin ry * cos rx * D - vx pos)
             + (vy pos + (sin rx * D + H) - (vy pos + H))
               * (vy pos + (sin rx * D + H) - (vy pos + H))
             + (vz pos + cos ry * cos rx * D - vz pos)
               * (vz pos + cos ry * cos rx * D - vz pos))
      with (D * D) by nra.
    apply sqrt_square. lra.
Qed.

(** ** Which way the keys walk *)

Section KeyWalk.

Import CowboyPlayer.

Lemma worldMoveDirection_components i angle :
  Num.length (moveDirection i) > 0 ->
  let m := moveDirection i in
  let w := Steering.worldMoveDirection i angle in
  vx w * Num.length m = cos angle * vx m - sin angle * vz m
  /\ vz w * Num.length m = - cos angle * vz m - sin angle * vx m.
Proof.
  intros HL. cbv zeta. unfold Steering.worldMoveDirection.
  set (m := moveDirection i) in *.
  set (L := Num.length m) in *.
  assert (Hy : vy m = 0) by apply moveDirection_flat.
  assert (HLL : L * L = vx m * vx m + vz m * vz m).
  { unfold L, Num.length. rewrite sqrt_sqrt; nra. }
  assert (Hn : normalize m = vec3 (vx m / L) (vy m / L) (vz m / L)).
  { unfold normalize. fold L.
    replace (ltb 0 L) with true by (symmetry; cmp_true). reflexivity. }
  rewrite Hn. cbn [vx vy vz].
  set (a := vx m / L). set (b := vz m / L).
  assert (Ha : a * L = vx m) by (unfold a; field; lra).
  assert (Hb : b * L = vz m) by (unfold b; field; lra).
  assert (Hab : a * a + b * b = 1).
  { apply Rmult_eq_reg_r with (L * L); [|nra].
    replace ((a * a + b * b) * (L * L))
      with ((a * L) * (a * L) + (b * L) * (b * L)) by ring.
    rewrite Ha, Hb. lra. }
  pose proof (sin2_cos2 angle) as Hsc. unfold Rsqr in Hsc.
  set (s := sin angle) in *. set (c := cos angle) in *.
  unfold addScaledVector. cbn [vx vy vz].
  set (wx := 0 + - s * b + c * a).
  set (wy := 0 + 0 * b + 0 * a).
  set (wz := 0 + - c * b + - s * a).
  assert (Hw : wx * wx + wy * wy + wz * wz = 1) by (unfold wx, wy, wz; nra).
  assert (Hlen : Num.length (vec3 wx wy wz) = 1).
  { unfold Num.length. cbn [vx vy vz]. rewrite Hw. apply sqrt_1. }
  unfold normalize. rewrite Hlen.
  replace (ltb 0 1) with true by (symmetry; cmp_true).
  cbn [vx vy vz]. unfold wx, wz. split; nra.
Qed.

Lemma press_moveDirection k space locked mouse :
  let m := moveDirection (Keys.press k space locked mouse) in
  Num.length m = 1
  /\ vx m = match k with Keys.KeyA => -1 | Keys.KeyD => 1 | _ => 0 end
  /\ vz m = match k with Keys.KeyW => 1 | Keys.KeyS => -1 | _ => 0 end.
Proof.
  cbv zeta. unfold Num.length.
  destruct k; cbn [moveDirection Keys.press isMobile keyW keyS keyA keyD vx vy vz];
    (split; [| split; lra]);
    match goal with |- sqrt ?x = 1 => replace x with 1 by lra end;
    apply sqrt_1.
Qed.

End KeyWalk.

(** X6.  On the desktop, with one movement key held, [handleInput] moves the
    player by [speed] along a direction fixed by the camera yaw: W along
    [(-sin yaw, -cos yaw)], S the opposite way, D along
    [(cos yaw, -sin yaw)], A the opposite way.  Relative to the orbit camera
    as [updateCamera] places it for the same yaw: W walks straight away from
    the camera and S straight towards it (the displacement is a multiple of
    the horizontal offset of the camera), while A and D walk at right angles
    to that offset. *)
Theorem keys_walk_relative_to_camera (k : Keys.t) (space locked : bool)
    (mouse : R * R) (p : CowboyPlayer.t) :
  let p' := CowboyPlayer.handleInput (Keys.press k space locked mouse) p in
  let pos := CowboyPlayer.position p in
  let dx := vx (CowboyPlayer.position p') - vx pos in
  let dz := vz (CowboyPlayer.position p') - vz pos in
  let yaw := CowboyPlayer.cameraRotationY p in
  let cam := CowboyCamera.camPosition (CowboyCamera.updateCamera p) in
  let ox := vx cam - vx pos in
  let oz := vz cam - vz pos in
  let reach := cos (CowboyPlayer.cameraRotationX p) * CowboyCamera.cameraDistance in
  match k with
  | Keys.KeyW =>
      dx = - sin yaw * CowboyPlayer.speed /\ dz = - cos yaw * CowboyPlayer.speed
      /\ dx * reach = - CowboyPlayer.speed * ox
      /\ dz * reach = - CowboyPlayer.speed * oz
  | Keys.KeyS =>
      dx = sin yaw * CowboyPlayer.speed /\ dz = cos yaw * CowboyPlayer.speed
      /\ dx * reach = CowboyPlayer.speed * ox
      /\ dz * reach = CowboyPlayer.speed * oz
  | Keys.KeyA =>
      dx = - cos yaw * CowboyPlayer.speed /\ dz = sin yaw * CowboyPlayer.speed
      /\ dx * ox + dz * oz = 0
  | Keys.KeyD =>
      dx = cos yaw * CowboyPlayer.speed /\ dz = - sin yaw * CowboyPlayer.speed
      /\ dx * ox + dz * oz = 0
  end.
Proof.
  cbv zeta.
  destruct (camera_orbit p) as (_ & _ & Ox & Oz & _). cbv zeta in Ox, Oz.
  rewrite Ox, Oz.
  destruct (handleInput_walk (Keys.press k space locked mouse) p) as [Ep _].
  rewrite Ep.
  destruct (press_moveDirection k space locked mouse) as (HL & Hx & Hz).
  cbv zeta in HL, Hx, Hz.
  rewrite applyMovement_moving by (rewrite HL; lra).
  destruct (worldMoveDirection_components (Keys.press k space locked mouse)
              (CowboyPlayer.cameraRotationY p)) as [Wx Wz]; [rewrite HL; lra|].
  cbv zeta in Wx, Wz. rewrite HL, Hx, Hz in Wx, Wz.
  set (w := Steering.worldMoveDirection _ _) in *.
  cbn [CowboyPlayer.set_rotation CowboyPlayer.set_position
       CowboyPlayer.position vx vy vz].
  set (s := sin (CowboyPlayer.cameraRotationY p)) in *.
  set (c := cos (CowboyPlayer.cameraRotationY p)) in *.
  set (r := cos (CowboyPlayer.cameraRotationX p) * CowboyCamera.cameraDistance).
  set (v := CowboyPlayer.speed).
  assert (Ex : vx w = vx w * 1) by ring.
  assert (Ez : vz w = vz w * 1) by ring.
  destruct k; rewrite Wx in Ex; rewrite Wz in Ez;
    repeat split; rewrite ?Ex, ?Ez; ring.
Qed.

(** ** The lives display *)

Section DisplayFacts.

Import RanchGame.

Lemma updateLivesUI_shows g : Display.shows (updateLivesUI g).
Proof.
  unfold Display.shows, updateLivesUI, Display.textFor, CowboyPlayer.getLives.
  destruct (livesUI g) as [txt|] eqn:E.
  - destruct (CowboyPlayer.lives (player g) <=? 0)%Z eqn:K; simpl; now rewrite K.
  - now rewrite E.
Qed.

Lemma onCollision_shows cse g w : Display.shows (fst (onCollision cse g w)).
Proof.
  unfold onCollision.
  destruct (CowboyPlayer.takeDamage (player g)) as [p out].
  set (g1 := updateLivesUI _).
  pose proof (updateLivesUI_shows
                (set_console (set_player g p) (console g ++ out))) as H.
  fold g1 in H.
  unfold World.bind.
  destruct (cse (scene g1) w) as [[spines s] w1].
  unfold World.Date_now, World.ret. cbn [fst].
  exact H.
Qed.

Lemma choyaLoop_shows cs : forall g w,
  Display.shows g -> Display.shows (fst (choyaLoop cs g w)).
Proof.
  induction cs as [|c cs IH]; intros g w H; [exact H|].
  cbn [choyaLoop]. destruct (Choya.checkCollision _ _ _); [|now apply IH].
  unfold World.bind.
  pose proof (onCollision_shows Choya.createSpineEffect g w) as H1.
  destruct (onCollision Choya.createSpineEffect g w) as [g1 w1].
  now apply IH.
Qed.

Lemma barrelLoop_shows cs : forall g w,
  Display.shows g -> Display.shows (fst (barrelLoop cs g w)).
Proof.
  induction cs as [|c cs IH]; intros g w H; [exact H|].
  cbn [barrelLoop]. destruct (BarrelCactus.checkCollision _ _ _); [|now apply IH].
  unfold World.bind.
  pose proof (onCollision_shows BarrelCactus.createSpineEffect g w) as H1.
  destruct (onCollision BarrelCactus.createSpineEffect g w) as [g1 w1].
  now apply IH.
Qed.

Lemma hazardPhase_shows dt i g w :
  Display.shows g -> Display.shows (fst (hazardPhase dt i g w)).
Proof.
  intros H. unfold hazardPhase, World.bind.
  set (g0 := set_player g (CowboyPlayer.update dt i (player g))).
  assert (H0 : Display.shows g0).
  { unfold Display.shows in *. simpl. now rewrite update_lives. }
  pose proof (choyaLoop_shows (choyas g0) g0 w H0) as H1.
  destruct (choyaLoop (choyas g0) g0 w) as [g1 w1].
  now apply barrelLoop_shows.
Qed.

Lemma animalPhase_display dt g w :
  livesUI (fst (animalPhase dt g w)) = livesUI g
  /\ player (fst (animalPhase dt g w)) = player g.
Proof.
  unfold animalPhase, World.bind, World.ret.
  destruct (World.forEach (Horse.update dt) (horses g) w) as [hs w1].
  destruct (World.forEach (Cow.update dt) (cows g) w1) as [cs w2].
  destruct (World.forEach (Chicken.update dt) (chickens g) w2) as [ks w3].
  split; reflexivity.
Qed.

Lemma update_shows dt i g w :
  Display.shows g -> Display.shows (fst (update dt i g w)).
Proof.
  intros H. rewrite update_phases. cbv zeta.
  pose proof (hazardPhase_shows dt i g w H) as H1.
  destruct (hazardPhase dt i g w) as [g1 w1]. cbn [fst snd] in *.
  rewrite spinePhase_spec. cbn [fst snd].
  match goal with
  | |- Display.shows (fst (animalPhase _ ?g2 ?w2)) =>
      destruct (animalPhase_display dt g2 w2) as [A B]
  end.
  unfold Display.shows in *. rewrite A, B. exact H1.
Qed.

End DisplayFacts.

(** X7.  The lives display follows the player: the constructor leaves it
    showing the player's lives, and every frame keeps it so, because every
    call of [takeDamage()] is followed by [updateLivesUI()] and nothing else
    changes [lives].  In particular, while the display exists, it reads
    "Game Over" exactly when no life is left. *)
Theorem display_follows_lives (deltaTime : R) (i : CowboyPlayer.Input)
    (g : RanchGame.t) (w : World.t)
    (cs : list Choya.t) (bs : list BarrelCactus.t) (hs cws ks : list Animal.t) :
  Display.shows (RanchGame.create cs bs hs cws ks)
  /\ (Display.shows g ->
      let g' := fst (RanchGame.update deltaTime i g w) in
      Display.shows g'
      /\ (RanchGame.livesUI g' <> None ->
          (RanchGame.livesUI g' = Some RanchGame.GameOver
           <-> (CowboyPlayer.lives (RanchGame.player g') <= 0)%Z))).
Proof.
  split.
  - unfold RanchGame.create. apply updateLivesUI_shows.
  - intros H. cbv zeta.
    pose proof (update_shows deltaTime i g w H) as H'.
    split; [exact H'|].
    unfold Display.shows, Display.textFor in H'.
    destruct (RanchGame.livesUI (fst (RanchGame.update deltaTime i g w)))
      as [txt|]; [|congruence].
    intros _. subst txt.
    destruct (_ <=? 0)%Z eqn:K.
    + apply Z.leb_le in K. tauto.
    + apply Z.leb_gt in K. split; [discriminate | lia].
Qed.

(** ** The spine meshes on the player *)

Section Attached.

Import RanchGame.

Lemma removeFirst_middle id l1 l2 :
  ~ In id l1 -> Scene.removeFirst id (l1 ++ id :: l2) = l1 ++ l2.
Proof.
  induction l1 as [|x l1 IH]; intros H; simpl.
  - now rewrite Nat.eqb_refl.
  - destruct (Nat.eqb x id) eqn:E.
    + apply Nat.eqb_eq in E. exfalso. apply H. now left.
    + f_equal. apply IH. intros K. apply H. now right.
Qed.

Lemma NoDup_app_l {A : Type} (l1 l2 : list A) : NoDup (l1 ++ l2) -> NoDup l1.
Proof.
  induction l1 as [|x l1 IH]; simpl; intros H; [constructor|].
  inversion H; subst. constructor; [|auto].
  intros K. apply H2. apply in_or_app. now left.
Qed.

(** The fade loop detaches exactly the expired spines. *)
Lemma ageScene_children_filter now l : forall s rest,
  NoDup (map mesh l ++ rest) ->
  Scene.children s = map mesh l ++ rest ->
  Scene.children (ageScene now (rev l) s)
  = map mesh (filter (fading now) l) ++ rest.
Proof.
  induction l as [|x l IH] using rev_ind; intros s rest Hnd Hc; [exact Hc|].
  rewrite rev_app_distr. cbn [rev app]. rewrite ageScene_cons.
  rewrite map_app in Hnd, Hc. cbn [map] in Hnd, Hc.
  rewrite <- app_assoc in Hnd, Hc. cbn [app] in Hnd, Hc.
  rewrite filter_app, map_app. cbn [filter].
  unfold fadeStep. destruct (fading now x); cbn [map].
  - rewrite <- app_assoc. cbn [app].
    apply IH; [exact Hnd | exact Hc].
  - rewrite app_nil_r. apply IH.
    + apply NoDup_remove_1 in Hnd. exact Hnd.
    + cbn [Scene.dispose Scene.remove Scene.children]. rewrite Hc.
      apply removeFirst_middle.
      apply NoDup_remove_2 in Hnd. intros K. apply Hnd.
      apply in_or_app. now left.
Qed.

Lemma ageScene_disposed_in now l : forall s id,
  In id (Scene.disposed (ageScene now l s)) ->
  In id (Scene.disposed s)
  \/ exists sd, In sd l /\ fading now sd = false /\ mesh sd = id.
Proof.
  induction l as [|x l IH]; intros s id H; [now left|].
  rewrite ageScene_cons in H. apply IH in H.
  destruct H as [H | (sd & A & B & C)].
  - unfold fadeStep in H. destruct (fading now x) eqn:K; simpl in H.
    + now left.
    + destruct H as [<- | H]; [|now left].
      right. exists x. repeat split; [now left | exact K].
  - right. exists sd. repeat split; [now right | exact B | exact C].
Qed.

Lemma NoDup_map_inj {A B : Type} (f : A -> B) (l : list A) (x y : A) :
  NoDup (map f l) -> In x l -> In y l -> f x = f y -> x = y.
Proof.
  induction l as [|z l IH]; simpl; intros Hnd Hx Hy E; [contradiction|].
  inversion Hnd as [|? ? Hz Hl]; subst.
  destruct Hx as [-> | Hx], Hy as [-> | Hy]; auto.
  - exfalso. apply Hz. rewrite E. now apply in_map.
  - exfalso. apply Hz. rewrite <- E. now apply in_map.
Qed.

Lemma purgeSpines_children l : forall s rest,
  NoDup (map mesh l ++ rest) ->
  Scene.children s = map mesh l ++ rest ->
  Scene.children (purgeSpines l s) = rest.
Proof.
  induction l as [|x l IH]; intros s rest Hnd Hc; [exact Hc|].
  cbn [purgeSpines]. cbn [map app] in Hnd, Hc. apply IH.
  - now inversion Hnd.
  - cbn [Scene.dispose Scene.remove Scene.children]. rewrite Hc.
    cbn [Scene.removeFirst]. now rewrite Nat.eqb_refl.
Qed.

(** The cactus loops keep the spines in order. *)
Lemma extends_tidy g g1 :
  extends g g1 -> wf g -> Display.attached g -> Display.intact g ->
  Display.attached g1 /\ Display.intact g1.
Proof.
  intros (new & k & A & B & C & D & E) (_ & _ & W3 & _) Ha Hi.
  unfold Display.attached, Display.intact in *.
  split.
  - rewrite C, A, map_app, B, Ha. reflexivity.
  - intros id Hid. rewrite E in Hid. destruct (Hi id Hid) as [Hlt Hnot].
    rewrite D, A, map_app, B. split; [lia|].
    intros K. apply in_app_or in K. destruct K as [K | K]; [contradiction|].
    apply in_seq in K. lia.
Qed.

Lemma spinePhase_tidy g w :
  wf g -> Display.attached g -> Display.intact g ->
  let g' := fst (spinePhase g w) in
  Display.attached g' /\ Display.intact g'.
Proof.
  intros (W1 & W2 & W3 & W4) Ha Hi. cbv zeta.
  rewrite spinePhase_spec. cbn [fst].
  set (now := World.clock w (World.clockPos w)).
  unfold Display.attached, Display.intact in *.
  cbn [scene activeSpines]. split.
  - rewrite <- (app_nil_r (map mesh (filter (fading now) (activeSpines g)))).
    apply ageScene_children_filter; rewrite app_nil_r; assumption.
  - intros id Hid. rewrite ageScene_nextMesh.
    apply ageScene_disposed_in in Hid.
    destruct Hid as [Hid | (sd & Hin & Hf & <-)].
    + destruct (Hi id Hid) as [Hlt Hnot]. split; [exact Hlt|].
      intros K. apply Hnot. apply in_map_iff in K.
      destruct K as (sd & E & Hsd). apply filter_In in Hsd.
      rewrite <- E. apply in_map. tauto.
    + apply in_rev in Hin. split.
      * rewrite Forall_forall in W3. apply W3. now apply in_map.
      * intros K. apply in_map_iff in K. destruct K as (sd' & E & Hsd').
        apply filter_In in Hsd'. destruct Hsd' as [Hin' Hf'].
        assert (sd' = sd) by (eapply NoDup_map_inj; eassumption).
        subst sd'. congruence.
Qed.

Lemma animalPhase_scene dt g w :
  activeSpines (fst (animalPhase dt g w)) = activeSpines g
  /\ scene (fst (animalPhase dt g w)) = scene g.
Proof.
  destruct (animalPhase_spec dt g w) as (_ & A & B & _). now split.
Qed.

End Attached.

(** X8.  The spine meshes are accounted for.  In a game whose spine meshes
    are distinct objects ([wf]), if the spines attached to the player's mesh
    are exactly the active ones and no released mesh is active, then the
    same holds after every frame: spawning attaches what it records, the
    fade loop detaches and releases exactly what it drops.  The constructor
    gives such a game, and [dispose()] leaves no spine attached to the
    player's mesh. *)
Theorem spines_stay_attached (deltaTime : R) (i : CowboyPlayer.Input)
    (g : RanchGame.t) (w : World.t) :
  RanchGame.wf g -> Display.attached g -> Display.intact g ->
  let g' := fst (RanchGame.update deltaTime i g w) in
  Display.attached g' /\ Display.intact g'
  /\ Scene.children (RanchGame.scene (RanchGame.dispose g)) = []
  /\ RanchGame.activeSpines (RanchGame.dispose g) = []
  /\ (forall cs bs hs cws ks,
        let g0 := RanchGame.create cs bs hs cws ks in
        RanchGame.wf g0 /\ Display.attached g0 /\ Display.intact g0).
Proof.
  intros Hwf Ha Hi. cbv zeta.
  assert (C0 : forall cs bs hs cws ks,
             RanchGame.wf (RanchGame.create cs bs hs cws ks)
             /\ Display.attached (RanchGame.create cs bs hs cws ks)
             /\ Display.intact (RanchGame.create cs bs hs cws ks)).
  { intros. split; [apply wf_create|]. split; [reflexivity|].
    intros id H. simpl in H. contradiction. }
  assert (T : Display.attached (fst (RanchGame.update deltaTime i g w))
              /\ Display.intact (fst (RanchGame.update deltaTime i g w))).
  { rewrite update_phases. cbv zeta.
    pose proof (hazardPhase_spec deltaTime i g w) as H. cbv zeta in H.
    destruct H as (_ & _ & _ & _ & _ & _ & Hext).
    set (g0 := RanchGame.set_player g _) in Hext.
    assert (Hwf0 : RanchGame.wf g0) by exact Hwf.
    assert (Ha0 : Display.attached g0) by exact Ha.
    assert (Hi0 : Display.intact g0) by exact Hi.
    destruct (extends_tidy _ _ Hext Hwf0 Ha0 Hi0) as [Ha1 Hi1].
    pose proof (wf_extends _ _ Hwf0 Hext) as Hwf1.
    destruct (RanchGame.hazardPhase deltaTime i g w) as [g1 w1].
    cbn [fst snd] in *.
    destruct (spinePhase_tidy g1 w1 Hwf1 Ha1 Hi1) as [Ha2 Hi2].
    cbv zeta in Ha2, Hi2.
    destruct (RanchGame.spinePhase g1 w1) as [g2 w2]. cbn [fst snd] in *.
    destruct (animalPhase_scene deltaTime g2 w2) as [A B].
    unfold Display.attached, Display.intact in *. rewrite A, B.
    split; assumption. }
  destruct T as [T1 T2].
  split; [exact T1 | split; [exact T2 | split; [| split; [reflexivity | exact C0]]]].
  unfold RanchGame.dispose.
  cbn [RanchGame.set_activeSpines RanchGame.set_scene RanchGame.scene].
  destruct Hwf as (W1 & _).
  apply purgeSpines_children; rewrite app_nil_r; assumption.
Qed.

Lemma spines_stay_attached_witness :
  let g := RanchGame.mk CowboyPlayer.create [] [] [] [] [] None
             [RanchGame.mkSpine 0 0 3000; RanchGame.mkSpine 1 4000 3000]
             (Scene.mk [0; 1]%nat (fun _ => 1) [] 2) [] in
  let w := World.mk (fun _ => 0) 0 (fun _ => 5000%Z) 0 in
  let g' := fst (RanchGame.update 0.016 Run.idle g w) in
  Display.attached g' /\ Display.intact g'
  /\ Scene.children (RanchGame.scene (RanchGame.dispose g)) = []
  /\ RanchGame.activeSpines (RanchGame.dispose g) = []
  /\ (forall cs bs hs cws ks,
        let g0 := RanchGame.create cs bs hs cws ks in
        RanchGame.wf g0 /\ Display.attached g0 /\ Display.intact g0).
Proof.
  cbv zeta.
  apply (spines_stay_attached 0.016 Run.idle
           (RanchGame.mk CowboyPlayer.create [] [] [] [] [] None
              [RanchGame.mkSpine 0 0 3000; RanchGame.mkSpine 1 4000 3000]
              (Scene.mk [0; 1]%nat (fun _ => 1) [] 2) [])
           (World.mk (fun _ => 0) 0 (fun _ => 5000%Z) 0)).
  - unfold RanchGame.wf. simpl.
    repeat split; repeat constructor; simpl; intuition lia.
  - reflexivity.
  - intros id H. simpl in H. contradiction.
Defined.

(** ** How many spines a cactus leaves *)

Section SpineCount.

Lemma floor_below (x : R) (n : Z) :
  0 <= x < IZR n -> (Math_floor_nat x < Z.to_nat n)%nat.
Proof.
  intros [H0 H1]. unfold Math_floor_nat.
  destruct (base_Int_part x) as [A B].
  assert (Hlo : (0 <= Int_part x)%Z).
  { apply Z.lt_succ_r. apply lt_IZR. rewrite succ_IZR. lra. }
  assert (Hhi : (Int_part x < n)%Z) by (apply lt_IZR; lra).
  lia.
Qed.

Lemma spawnSpines_opacity_old n : forall spines s w id,
  (id < Scene.nextMesh s)%nat ->
  Scene.opacity (snd (fst (Scene.spawnSpines n spines s w))) id
  = Scene.opacity s id.
Proof.
  induction n as [|n IH]; intros spines s w id Hid; [reflexivity|].
  cbn [Scene.spawnSpines Scene.newSpine]. unfold World.bind.
  destruct (World.drawRandom 6 w) as [u w1].
  rewrite IH by (simpl; lia). simpl.
  replace (Nat.eqb id (Scene.nextMesh s)) with false; [reflexivity|].
  symmetry. apply Nat.eqb_neq. lia.
Qed.

(** Every new spine starts fully opaque. *)
Lemma spawnSpines_opacity_new n : forall spines s w id,
  In id (seq (Scene.nextMesh s) n) ->
  Scene.opacity (snd (fst (Scene.spawnSpines n spines s w))) id = 1.
Proof.
  induction n as [|n IH]; intros spines s w id Hid; [contradiction|].
  cbn [Scene.spawnSpines Scene.newSpine]. unfold World.bind.
  destruct (World.drawRandom 6 w) as [u w1].
  cbn [seq] in Hid. destruct Hid as [<- | Hid].
  - rewrite spawnSpines_opacity_old by (simpl; lia). simpl.
    rewrite Nat.eqb_refl. lra.
  - apply IH. exact Hid.
Qed.

End SpineCount.

(** X9.  With [Math.random()] in [0, 1), [createSpineEffect] of a choya
    makes 3, 4 or 5 spines and that of a barrel cactus 1 or 2
    ([3 + floor(3 r)], [1 + floor(2 r)]).  The spines are new meshes,
    distinct from each other and from every older one, attached to the
    player's mesh in the order returned, each at opacity 1; the call
    releases nothing. *)
Theorem spine_effect_counts (s : Scene.t) (w : World.t) :
  0 <= World.rand w (World.randPos w) < 1 ->
  let r := World.rand w (World.randPos w) in
  let rc := Choya.createSpineEffect s w in
  let rb := BarrelCactus.createSpineEffect s w in
  let nc := (3 + Math_floor_nat (r * 3))%nat in
  let nb := (1 + Math_floor_nat (r * 2))%nat in
  (3 <= nc <= 5)%nat /\ (1 <= nb <= 2)%nat
  /\ fst (fst rc) = seq (Scene.nextMesh s) nc
  /\ fst (fst rb) = seq (Scene.nextMesh s) nb
  /\ Scene.children (snd (fst rc)) = Scene.children s ++ fst (fst rc)
  /\ Scene.children (snd (fst rb)) = Scene.children s ++ fst (fst rb)
  /\ (forall id, In id (fst (fst rc)) -> Scene.opacity (snd (fst rc)) id = 1)
  /\ (forall id, In id (fst (fst rb)) -> Scene.opacity (snd (fst rb)) id = 1)
  /\ Scene.disposed (snd (fst rc)) = Scene.disposed s
  /\ Scene.disposed (snd (fst rb)) = Scene.disposed s.
Proof.
  intros Hr. cbv zeta.
  set (r := World.rand w (World.randPos w)) in *.
  assert (H3 : (Math_floor_nat (r * 3) < 3)%nat).
  { apply (floor_below (r * 3) 3). lra. }
  assert (H2 : (Math_floor_nat (r * 2) < 2)%nat).
  { apply (floor_below (r * 2) 2). lra. }
  unfold Choya.createSpineEffect, BarrelCactus.createSpineEffect,
    World.bind, World.Math_random.
  fold r.
  set (w1 := World.mk _ _ _ _).
  set (nc := (3 + Math_floor_nat (r * 3))%nat).
  set (nb := (1 + Math_floor_nat (r * 2))%nat).
  destruct (spawnSpines_spec nc [] s w1) as (A1 & B1 & _ & D1).
  destruct (spawnSpines_spec nb [] s w1) as (A2 & B2 & _ & D2).
  cbv zeta in A1, B1, D1, A2, B2, D2. cbn [app] in A1, A2.
  split; [unfold nc; lia|]. split; [unfold nb; lia|].
  split; [exact A1|]. split; [exact A2|].
  split; [now rewrite A1|]. split; [now rewrite A2|].
  split; [intros id Hid; rewrite A1 in Hid; now apply spawnSpines_opacity_new|].
  split; [intros id Hid; rewrite A2 in Hid; now apply spawnSpines_opacity_new|].
  split; [exact D1 | exact D2].
Qed.

Lemma spine_effect_counts_witness :
  let w := World.mk (fun _ => 0.5) 0 (fun _ => 0%Z) 0 in
  (3 <= 3 + Math_floor_nat (0.5 * 3) <= 5)%nat
  /\ (1 <= 1 + Math_floor_nat (0.5 * 2) <= 2)%nat.
Proof.
  cbv zeta.
  destruct (spine_effect_counts Scene.empty
              (World.mk (fun _ => 0.5) 0 (fun _ => 0%Z) 0))
    as (A & B & _).
  - simpl. lra.
  - split; [exact A | exact B].
Defined.

(** ** The wander boundary *)

Section Boundary.

Lemma species_facts sp :
  0 < Species.speed sp < 1 /\ 0 < Species.range sp /\ 0 < Species.base sp.
Proof.
  destruct sp; simpl; unfold Horse.speed, Cow.speed, Chicken.speed; lra.
Qed.



(** The frame of an animal in the terms of the boundary. *)
Lemma update_frame sp dt a w :
  let r1 := World.rand w (World.randPos w) in
  let r2 := World.rand w (S (World.randPos w)) in
  let timer := Animal.wanderTimer a + dt in
  let turn := gtb timer (Species.base sp + r1 * Species.range sp) in
  let heading := if turn then r2 * PI * 2 else Animal.wanderDirection a in
  let x := vx (Animal.position a) + sin heading * Species.speed sp in
  let z := vz (Animal.position a) + cos heading * Species.speed sp in
  let a' := fst (Species.update sp dt a w) in
  Animal.position a' = vec3 x (vy (Animal.position a)) z
  /\ Animal.wanderDirection a'
     = (if gtb (Wandering.dist a') Animal.maxDistance
        then Math_atan2 (- x) (- z) else heading)
  /\ Animal.wanderTimer a' = (if turn then 0 else timer)
  /\ World.rand (snd (Species.update sp dt a w)) = World.rand w.
Proof.
  cbv zeta. rewrite species_update_wander, wander_frame. cbn [fst snd].
  unfold Wandering.dist. cbn [Animal.position Animal.wanderDirection
                               Animal.wanderTimer World.rand vx vy vz].
  repeat split; reflexivity.
Qed.


(** Heading inward and keeping the heading, an animal farther than one step
    from the origin ends the frame exactly one step closer. *)
Lemma dist_inward_step sp dt a w :
  Species.speed sp < Wandering.dist a ->
  Wandering.inward a ->
  Animal.wanderTimer a + dt
    <= Species.base sp + World.rand w (World.randPos w) * Species.range sp ->
  Wandering.dist (fst (Species.update sp dt a w))
  = Wandering.dist a - Species.speed sp.
Proof.
  intros Hfar Hin Hkeep.
  destruct (update_frame sp dt a w) as (Ep & _). cbv zeta in Ep.
  replace (gtb (Animal.wanderTimer a + dt)
               (Species.base sp + World.rand w (World.randPos w) * Species.range sp))
    with false in Ep by (symmetry; cmp_false).
  destruct (species_facts sp) as ([Hs _] & _).
  set (s := Species.speed sp) in *.
  set (x := vx (Animal.position a)) in *.
  set (z := vz (Animal.position a)) in *.
  set (d := Wandering.dist a) in *.
  assert (Hd : d = sqrt (- x * - x + - z * - z)).
  { unfold d, Wandering.dist. fold x z. f_equal. ring. }
  assert (Hnz : - x <> 0 \/ - z <> 0).
  { destruct (Req_dec x 0) as [Hx|Hx]; [|left; lra].
    destruct (Req_dec z 0) as [Hz|Hz]; [|right; lra].
    exfalso. rewrite Hd, Hx, Hz in Hfar.
    replace (- 0 * - 0 + - 0 * - 0) with 0 in Hfar by ring.
    rewrite sqrt_0 in Hfar. lra. }
  destruct (atan2_direction (- x) (- z) Hnz) as [Hsin Hcos].
  rewrite <- Hd in Hsin, Hcos.
  unfold Wandering.inward in Hin. fold x z in Hin. rewrite <- Hin in Hsin, Hcos.
  assert (Hdd : d * d = x * x + z * z).
  { rewrite Hd. rewrite sqrt_sqrt; nra. }
  unfold Wandering.dist at 1. rewrite Ep. cbn [vx vz]. rewrite Hsin, Hcos.
  replace ((x + - x / d * s) ^ 2 + (z + - z / d * s) ^ 2)
    with ((d - s) * (d - s)).
  - apply sqrt_square. lra.
  - replace ((x + - x / d * s) ^ 2 + (z + - z / d * s) ^ 2)
      with ((x * x + z * z) * ((1 - s / d) * (1 - s / d))) by (field; lra).
    rewrite <- Hdd. field. lra.
Qed.




End Boundary.

(** X10.  An animal that heads for the origin, as [update] makes it do
    beyond the boundary, and that keeps its heading in a frame (the timer
    does not pass the threshold) ends that frame exactly one step
    ([speed]) closer to the origin, on the same ray: it walks straight
    back.  This holds at any distance greater than one step. *)
Theorem wander_walks_back (sp : Species.t) (deltaTime : R) (a : Animal.t)
    (w : World.t) :
  Species.speed sp < Wandering.dist a ->
  Wandering.inward a ->
  Animal.wanderTimer a + deltaTime
    <= Species.base sp + World.rand w (World.randPos w) * Species.range sp ->
  let a' := fst (Species.update sp deltaTime a w) in
  let k := 1 - Species.speed sp / Wandering.dist a in
  Wandering.dist a' = Wandering.dist a - Species.speed sp
  /\ vx (Animal.position a') = k * vx (Animal.position a)
  /\ vz (Animal.position a') = k * vz (Animal.position a).
Proof.
  intros Hfar Hin Hkeep. cbv zeta.
  split; [now apply dist_inward_step|].
  destruct (update_frame sp deltaTime a w) as (Ep & _). cbv zeta in Ep.
  replace (gtb (Animal.wanderTimer a + deltaTime)
               (Species.base sp + World.rand w (World.randPos w) * Species.range sp))
    with false in Ep by (symmetry; cmp_false).
  destruct (species_facts sp) as ([Hs _] & _).
  set (x := vx (Animal.position a)) in *.
  set (z := vz (Animal.position a)) in *.
  assert (Hd : Wandering.dist a = sqrt (- x * - x + - z * - z)).
  { unfold Wandering.dist. fold x z. f_equal. ring. }
  assert (Hnz : - x <> 0 \/ - z <> 0).
  { destruct (Req_dec x 0) as [Hx|Hx]; [|left; lra].
    destruct (Req_dec z 0) as [Hz|Hz]; [|right; lra].
    exfalso. rewrite Hd, Hx, Hz in Hfar.
    replace (- 0 * - 0 + - 0 * - 0) with 0 in Hfar by ring.
    rewrite sqrt_0 in Hfar. lra. }
  destruct (atan2_direction (- x) (- z) Hnz) as [Hsin Hcos].
  rewrite <- Hd in Hsin, Hcos.
  unfold Wandering.inward in Hin. fold x z in Hin. rewrite <- Hin in Hsin, Hcos.
  rewrite Ep. cbn [vx vz]. rewrite Hsin, Hcos. split; field; lra.
Qed.

Lemma wander_walks_back_witness :
  let a := Animal.mk (vec3 0 0 90) (Math_atan2 (- 0) (- 90)) 0 in
  let w := World.mk (fun _ => 0.5) 0 (fun _ => 0%Z) 0 in
  Wandering.dist (fst (Species.update Species.horse 0.016 a w))
  = Wandering.dist a - Species.speed Species.horse.
Proof.
  cbv zeta.
  apply (wander_walks_back Species.horse 0.016
           (Animal.mk (vec3 0 0 90) (Math_atan2 (- 0) (- 90)) 0)
           (World.mk (fun _ => 0.5) 0 (fun _ => 0%Z) 0)).
  - unfold Wandering.dist. simpl. unfold Horse.speed.
    replace (0 * (0 * 1) + 90 * (90 * 1)) with (90 * 90) by lra.
    rewrite sqrt_square; lra.
  - reflexivity.
  - simpl. lra.
Defined.



(** ** The reach of a cactus *)

Lemma distanceTo_above (u v : Vector3) : vy v - vy u <= distanceTo u v.
Proof.
  unfold distanceTo. cbv zeta.
  destruct (Rle_dec (vy v - vy u) 0) as [H | H].
  - eapply Rle_trans; [exact H | apply sqrt_pos].
  - rewrite <- (sqrt_square (vy v - vy u)) at 1 by lra.
    apply sqrt_le_1_alt.
    pose proof (Rle_0_sqr (vx u - vx v)) as A.
    pose proof (Rle_0_sqr (vz u - vz v)) as B.
    unfold Rsqr in A, B.
    replace ((vy v - vy u) * (vy v - vy u))
      with ((vy u - vy v) * (vy u - vy v)) by ring.
    lra.
Qed.

(** X12.  Cacti built without a configured size, with [Math.random()] in
    [0, 1): a choya has size in [0.35/3, 0.35) and, once its model has
    arrived, collision radius [1.2 * size < 0.42]; a barrel cactus has size
    in [0.2/9, 0.5/9) and radius [0.6 * size < 1/30].  So a collision with a
    choya means that the actor's centre is closer than [0.42 + actorRadius]
    to the point 0.6 above the cactus's foot, and an actor whose centre is
    at height [1.02 + actorRadius] or more (1.42 for the player) never
    collides with a choya; a collision with a barrel cactus means a distance
    below [1/30 + actorRadius]. *)
Theorem default_cactus_reach (p0 : Vector3) (rnd : R)
    (actorPosition : Vector3) (actorRadius : R) :
  0 <= rnd < 1 ->
  let c := Choya.loadModel ModelArrived (Choya.create p0 None rnd) in
  let b := BarrelCactus.loadModel ModelArrived (BarrelCactus.create p0 None rnd) in
  0.35 / 3 <= Choya.size c < 0.35
  /\ Choya.collisionRadius c = 1.2 * Choya.size c
  /\ Choya.collisionRadius c < 0.42
  /\ 0.2 / 9 <= BarrelCactus.size b < 0.5 / 9
  /\ BarrelCactus.collisionRadius b = 0.6 * BarrelCactus.size b
  /\ BarrelCactus.collisionRadius b < 1 / 30
  /\ (Choya.checkCollision c actorPosition actorRadius = true ->
      distanceTo (vec3 (vx p0) 0.6 (vz p0)) actorPosition < 0.42 + actorRadius)
  /\ (1.02 + actorRadius <= vy actorPosition ->
      Choya.checkCollision c actorPosition actorRadius = false)
  /\ (BarrelCactus.checkCollision b actorPosition actorRadius = true ->
      distanceTo (vec3 (vx p0) (0.3 * BarrelCactus.size b) (vz p0)) actorPosition
      < 1 / 30 + actorRadius).
Proof.
  intros [H0 H1]. cbv zeta.
  set (c := Choya.loadModel ModelArrived (Choya.create p0 None rnd)).
  set (b := BarrelCactus.loadModel ModelArrived (BarrelCactus.create p0 None rnd)).
  assert (Ec : Choya.size c = 0.35 / 3 * (1 + rnd * (3 - 1))) by reflexivity.
  assert (Eb : BarrelCactus.size b = (0.2 + rnd * 0.3) / 9) by reflexivity.
  assert (Rc : Choya.collisionRadius c = 1.2 * Choya.size c) by reflexivity.
  assert (Rb : BarrelCactus.collisionRadius b = 0.6 * BarrelCactus.size b)
    by reflexivity.
  assert (Sc : 0.35 / 3 <= Choya.size c < 0.35) by (rewrite Ec; lra).
  assert (Sb : 0.2 / 9 <= BarrelCactus.size b < 0.5 / 9) by (rewrite Eb; lra).
  assert (Kc : Choya.checkCollision c actorPosition actorRadius = true ->
               distanceTo (vec3 (vx p0) 0.6 (vz p0)) actorPosition
               < 0.42 + actorRadius).
  { intros K. apply Choya_checkCollision_iff in K.
    destruct K as (mp & E & _ & K). injection E as <-. cbn [vx vy vz] in K.
    replace (0 + 0.6) with 0.6 in K by lra. lra. }
  split; [exact Sc|]. split; [exact Rc|]. split; [lra|].
  split; [exact Sb|]. split; [exact Rb|]. split; [lra|].
  split; [exact Kc|]. split.
  - intros Hhigh. apply not_true_is_false. intros K. apply Kc in K.
    pose proof (distanceTo_above (vec3 (vx p0) 0.6 (vz p0)) actorPosition) as D.
    cbn [vy] in D. lra.
  - intros K. apply BarrelCactus_checkCollision_iff in K.
    destruct K as (mp & E & _ & K). injection E as <-. cbn [vx vy vz] in K.
    replace (0 + 0.3 * BarrelCactus.size b) with (0.3 * BarrelCactus.size b) in K
      by lra.
    lra.
Qed.

Lemma default_cactus_reach_witness :
  let c := Choya.loadModel ModelArrived (Choya.create (vec3 10 0 5) None 0.5) in
  0.35 / 3 <= Choya.size c < 0.35
  /\ Choya.collisionRadius c = 1.2 * Choya.size c
  /\ Choya.collisionRadius c < 0.42.
Proof.
  cbv zeta.
  destruct (default_cactus_reach (vec3 10 0 5) 0.5 (vec3 0 0.3 0) 0.4)
    as (A & B & C & _).
  - lra.
  - split; [exact A | split; [exact B | exact C]].
Defined.

(** ** The frame clock of the engine *)

Section FrameClock.

Lemma deltaTime_first time : Engine.deltaTime time 0 = 0.
Proof.
  unfold Engine.deltaTime, Engine.isZero.
  destruct (Req_EM_T 0 0); [reflexivity | contradiction].
Qed.

Lemma deltaTime_later time last :
  last <> 0 -> Engine.deltaTime time last = (time - last) / 1000.
Proof.
  intros H. unfold Engine.deltaTime, Engine.isZero.
  destruct (Req_EM_T last 0); [contradiction | reflexivity].
Qed.

Lemma last_cons {A : Type} (l : list A) : forall x d, last (x :: l) d = last l x.
Proof.
  induction l as [|y l IH]; intros x d; [reflexivity|].
  change (last (x :: y :: l) d) with (last (y :: l) d).
  now rewrite !IH.
Qed.

Lemma animate_lastTime time e w :
  Engine.lastTime (fst (Engine.animate time e w)) = time.
Proof.
  unfold Engine.animate.
  destruct (Engine.game e) as [g|]; [|reflexivity].
  destruct (Devices.read (Engine.input e) (Engine.mobileInput e)) as [i mob].
  unfold World.bind.
  destruct (RanchGame.update _ i g w) as [g1 w1]. reflexivity.
Qed.

(** One frame of a running game, written out. *)
Lemma animate_running time e g w :
  Engine.game e = Some g ->
  Engine.animate time e w
  = (Engine.mk time (Input.resetMouseDelta (Engine.input e))
       (snd (Devices.read (Engine.input e) (Engine.mobileInput e)))
       (Some (fst (RanchGame.update
                     (Engine.deltaTime time (Engine.lastTime e))
                     (fst (Devices.read (Engine.input e) (Engine.mobileInput e)))
                     g w))),
     snd (RanchGame.update
            (Engine.deltaTime time (Engine.lastTime e))
            (fst (Devices.read (Engine.input e) (Engine.mobileInput e)))
            g w)).
Proof.
  intros Hg. unfold Engine.animate. rewrite Hg. cbv zeta.
  destruct (Devices.read (Engine.input e) (Engine.mobileInput e)) as [i mob].
  unfold World.bind, World.ret. cbn [fst snd].
  destruct (RanchGame.update _ i g w) as [g1 w1]. reflexivity.
Qed.

(** One frame of a running game, from the fields of the engine. *)
Lemma animate_frame time prev inp mob g w :
  Engine.animate time (Engine.mk prev inp mob (Some g)) w
  = let (i, mob1) := Devices.read inp mob in
    let (g1, w1) := RanchGame.update (Engine.deltaTime time prev) i g w in
    (Engine.mk time (Input.resetMouseDelta inp) mob1 (Some g1), w1).
Proof.
  unfold Engine.animate. cbn [Engine.game Engine.lastTime Engine.input
                               Engine.mobileInput].
  destruct (Devices.read inp mob) as [i mob1].
  unfold World.bind, World.ret.
  destruct (RanchGame.update _ i g w) as [g1 w1]. reflexivity.
Qed.

Lemma gaps_nonneg ts : forall prev,
  Engine.ticking prev ts -> Forall (fun d => 0 <= d) (Engine.gaps prev ts).
Proof.
  induction ts as [|t ts IH]; intros prev H; [constructor|].
  destruct H as (H0 & Hle & Hrest). cbn [Engine.gaps].
  constructor; [lra | now apply IH].
Qed.

(** From the second frame on, [lastTime] is positive and the frames update
    the game with the gaps between their times. *)
Lemma frames_gaps ts : forall prev inp mob g w,
  0 < prev -> Engine.ticking prev ts ->
  Engine.frames ts (Engine.mk prev inp mob (Some g)) w
  = let '(inp1, mob1, g1, w1) :=
      Engine.updates (Engine.gaps prev ts) inp mob g w in
    (Engine.mk (last ts prev) inp1 mob1 (Some g1), w1).
Proof.
  induction ts as [|t ts IH]; intros prev inp mob g w Hp Ht.
  - reflexivity.
  - destruct Ht as (H0 & Hle & Hrest).
    cbn [Engine.frames Engine.gaps Engine.updates]. unfold World.bind.
    rewrite animate_frame, deltaTime_later by lra.
    destruct (Devices.read inp mob) as [i mob1].
    destruct (RanchGame.update _ i g w) as [g1 w1].
    rewrite IH by assumption. rewrite last_cons. reflexivity.
Qed.

End FrameClock.

(** X13.  After [run(game)], which calls [animate(0)], with the browser's
    frame times [t1 <= t2 <= ...] all positive, the engine has done to the
    game, to the devices and to the random and clock streams exactly what
    updating the game with these values of [deltaTime] does: 0 twice (for
    [animate(0)] and again for [t1], because [lastTime] is still 0), then
    the gaps [(t2 - t1) / 1000], ... between successive frames.  None of
    them is negative, and [lastTime] ends as the time of the last frame. *)
Theorem frame_deltas (t1 : R) (rest : list R) (g : RanchGame.t)
    (e : Engine.t) (w : World.t) :
  0 < t1 -> Engine.ticking t1 rest ->
  let ds := 0 :: 0 :: Engine.gaps t1 rest in
  let '(inp1, mob1, g1, w1) :=
    Engine.updates ds (Engine.input e) (Engine.mobileInput e) g w in
  World.bind (Engine.run g e) (Engine.frames (t1 :: rest)) w
  = (Engine.mk (last rest t1) inp1 mob1 (Some g1), w1)
  /\ Forall (fun d => 0 <= d) ds.
Proof.
  intros H1 Hrest. cbv zeta.
  cbn [Engine.updates Engine.frames]. unfold Engine.run, World.bind.
  rewrite !animate_frame. cbn [Engine.lastTime Engine.input Engine.mobileInput].
  rewrite deltaTime_first.
  destruct (Devices.read (Engine.input e) (Engine.mobileInput e)) as [i0 mob0].
  destruct (RanchGame.update 0 i0 g w) as [g0 w0].
  rewrite animate_frame. cbn [Engine.lastTime Engine.input Engine.mobileInput].
  rewrite deltaTime_first.
  destruct (Devices.read (Input.resetMouseDelta (Engine.input e)) mob0)
    as [i1 mob1].
  destruct (RanchGame.update 0 i1 g0 w0) as [g1 w1].
  rewrite (frames_gaps rest t1) by assumption.
  destruct (Engine.updates (Engine.gaps t1 rest) _ mob1 g1 w1)
    as [[[inp2 mob2] g2] w2].
  split; [reflexivity|].
  constructor; [lra|]. constructor; [lra|]. now apply gaps_nonneg.
Qed.

Lemma frame_deltas_witness :
  let e := Engine.mk 0 Input.create (MobileInput.create 1280 720) None in
  let g := RanchGame.create [] [] [] [] [] in
  let w := World.mk (fun _ => 0) 0 (fun _ => 0%Z) 0 in
  Engine.lastTime
    (fst (World.bind (Engine.run g e) (Engine.frames [16; 33; 50]) w)) = 50.
Proof.
  cbv zeta.
  pose proof (frame_deltas 16 [33; 50] (RanchGame.create [] [] [] [] [])
                (Engine.mk 0 Input.create (MobileInput.create 1280 720) None)
                (World.mk (fun _ => 0) 0 (fun _ => 0%Z) 0)) as H.
  cbv zeta in H.
  destruct (Engine.updates _ _ _ _ _) as [[[inp1 mob1] g1] w1].
  destruct H as [E _].
  - lra.
  - simpl. repeat split; lra.
  - rewrite E. reflexivity.
Defined.

(** ** The joystick *)

Section Joystick.

Import MobileInput.



End Joystick.


(** ** Keys *)

Section KeysFacts.

Import Input.

Lemma handle_other_key code e st :
  touchesKey code e = false ->
  isKeyPressed (handle st e) code = isKeyPressed st code.
Proof.
  intros H. unfold isKeyPressed.
  destruct e as [c | c | b | mx my]; simpl in *; try reflexivity.
  - unfold setKey. destruct (String.eqb c "__proto__"); [reflexivity|].
    simpl. rewrite String.eqb_sym in H. now rewrite H.
  - unfold setKey. destruct (String.eqb c "__proto__"); [reflexivity|].
    simpl. rewrite String.eqb_sym in H. now rewrite H.
  - now destruct (locked st).
Qed.

Lemma handles_other_keys code evs : forall st,
  Forall (fun e => touchesKey code e = false) evs ->
  isKeyPressed (fold_left handle evs st) code = isKeyPressed st code.
Proof.
  induction evs as [|e evs IH]; intros st H; [reflexivity|].
  inversion H; subst. simpl. rewrite IH by assumption.
  now apply handle_other_key.
Qed.

Lemma setKey_own code b st :
  code <> "__proto__"%string -> isKeyPressed (setKey code b st) code = b.
Proof.
  intros H. unfold setKey.
  destruct (String.eqb code "__proto__") eqn:E.
  - apply String.eqb_eq in E. contradiction.
  - unfold isKeyPressed. simpl. now rewrite String.eqb_refl.
Qed.

(** No event gives the [keys] object an own property [__proto__]. *)
Lemma handle_proto e st :
  keys st "__proto__"%string = None ->
  keys (handle st e) "__proto__"%string = None.
Proof.
  intros H. destruct e as [c | c | b | mx my]; cbn [handle keys]; try exact H.
  - unfold setKey. destruct (String.eqb c "__proto__") eqn:E; [exact H|].
    cbn [keys]. rewrite String.eqb_sym, E. exact H.
  - unfold setKey. destruct (String.eqb c "__proto__") eqn:E; [exact H|].
    cbn [keys]. rewrite String.eqb_sym, E. exact H.
  - now destruct (locked st).
Qed.

Lemma handles_proto evs : forall st,
  keys st "__proto__"%string = None ->
  keys (fold_left handle evs st) "__proto__"%string = None.
Proof.
  induction evs as [|e evs IH]; intros st H; [exact H|].
  simpl. apply IH. now apply handle_proto.
Qed.

End KeysFacts.

(** X15.  [isKeyPressed(code)] answers by the last key event for that
    code: true when it was a key-down, false when it was a key-up; events
    for other keys, mouse moves and pointer-lock changes in between make
    no difference.  When there has been no event for the code since the
    start, the answer is false, except for the names of the members of
    [Object.prototype], which the [keys] object inherits: for them it
    counts as true.  The five codes the game asks for are not among them.
    The code [__proto__] is the one exception to the first sentence: key
    events do not change its answer, which always counts as true. *)
Theorem key_state_follows_last_event (code : String.string)
    (before after : list Input.Event) (st : Input.t) :
  code <> "__proto__"%string ->
  Forall (fun e => Input.touchesKey code e = false) after ->
  Input.isKeyPressed
    (fold_left Input.handle (before ++ Input.KeyDown code :: after) st) code = true
  /\ Input.isKeyPressed
       (fold_left Input.handle (before ++ Input.KeyUp code :: after) st) code = false
  /\ Input.isKeyPressed (fold_left Input.handle after Input.create) code
     = Input.inherited code
  /\ Forall (fun c => Input.inherited c = false)
       ["KeyW"; "KeyS"; "KeyA"; "KeyD"; "Space"]%string
  /\ (forall evs,
        Input.isKeyPressed (fold_left Input.handle evs Input.create)
          "__proto__"%string = true).
Proof.
  intros Hcode H.
  rewrite !fold_left_app. cbn [fold_left Input.handle].
  rewrite !handles_other_keys by assumption.
  rewrite !setKey_own by assumption.
  split; [reflexivity|]. split; [reflexivity|]. split; [reflexivity|].
  split; [repeat constructor|].
  intros evs. unfold Input.isKeyPressed.
  rewrite handles_proto by reflexivity. reflexivity.
Qed.

Lemma key_state_follows_last_event_witness :
  Input.isKeyPressed
    (fold_left Input.handle
       [Input.KeyDown "KeyW"; Input.KeyDown "toString"; Input.KeyUp "KeyW";
        Input.MouseMove 3 4; Input.KeyDown "KeyA"]%string
       Input.create) "KeyW"%string = false.
Proof.
  destruct (key_state_follows_last_event "KeyW"%string
              [Input.KeyDown "KeyW"; Input.KeyDown "toString"]%string
              [Input.MouseMove 3 4; Input.KeyDown "KeyA"]%string
              Input.create) as (_ & B & _).
  - discriminate.
  - repeat constructor.
  - exact B.
Defined.

(** ** Looking around, frame after frame *)

Section LookOnce.

Import CowboyPlayer.

Lemma takeDamage_angles p :
  cameraRotationX (fst (takeDamage p)) = cameraRotationX p
  /\ cameraRotationY (fst (takeDamage p)) = cameraRotationY p.
Proof. unfold takeDamage. destruct (leb _ _ && _); split; reflexivity. Qed.

Lemma hits_angles n : forall p,
  cameraRotationX (fst (RanchGame.hits n p)) = cameraRotationX p
  /\ cameraRotationY (fst (RanchGame.hits n p)) = cameraRotationY p.
Proof.
  induction n as [|n IH]; intros p; [split; reflexivity|].
  cbn [RanchGame.hits].
  destruct (takeDamage_angles p) as [A B].
  destruct (takeDamage p) as [p1 o1]. cbn [fst] in A, B.
  destruct (IH p1) as [C D].
  destruct (RanchGame.hits n p1) as [p2 o2]. cbn [fst] in *.
  split; congruence.
Qed.

(** The player of the game after a frame is the player after its own
    update and some calls of [takeDamage()]. *)
Lemma ranch_update_player dt i g w :
  exists n,
    RanchGame.player (fst (RanchGame.update dt i g w))
    = fst (RanchGame.hits n (update dt i (RanchGame.player g))).
Proof.
  exists (RanchGame.collisions g (position (update dt i (RanchGame.player g)))).
  rewrite update_phases. cbv zeta.
  destruct (hazardPhase_spec dt i g w) as (A & _).
  cbn [RanchGame.set_player RanchGame.player] in A.
  destruct (RanchGame.hazardPhase dt i g w) as [g1 w1]. cbn [fst snd] in *.
  rewrite spinePhase_spec. cbn [fst snd].
  match goal with
  | |- RanchGame.player (fst (RanchGame.animalPhase _ ?g2 ?w2)) = _ =>
      destruct (animalPhase_spec dt g2 w2) as (P & _)
  end.
  cbv zeta in P. rewrite P. exact A.
Qed.

Lemma update_look dt i p :
  cameraRotationX (update dt i p) = cameraRotationX (applyCamera i p)
  /\ cameraRotationY (update dt i p) = cameraRotationY (applyCamera i p).
Proof.
  unfold update, handleInput.
  destruct (physics_camera_angles
              (applyCamera i (applyJump i (applyMovement i (tickCooldown dt p)))))
    as [E1 E2].
  rewrite E1, E2.
  destruct (camera_angles_kept dt i p) as [K1 K2]. cbv zeta in K1, K2.
  unfold applyCamera.
  destruct (isMobile i); [|destruct (pointerLocked i)]; simpl;
    rewrite ?K1, ?K2; split; reflexivity.
Qed.

(** A look input of zero leaves the angles of a clamped camera alone. *)
Lemma applyCamera_still i p :
  (isMobile i = true -> cameraDelta i = (0, 0)) ->
  (isMobile i = false -> mouseDelta i = (0, 0)) ->
  - PI / 3 <= cameraRotationX p <= PI / 3 ->
  cameraRotationX (applyCamera i p) = cameraRotationX p
  /\ cameraRotationY (applyCamera i p) = cameraRotationY p.
Proof.
  intros Hm Hd Hr. unfold applyCamera.
  destruct (isMobile i).
  - rewrite Hm by reflexivity. simpl.
    replace (cameraRotationX p - 0 * 0.005) with (cameraRotationX p) by lra.
    rewrite clampPitch_inside by exact Hr. split; lra.
  - destruct (pointerLocked i); [|split; reflexivity].
    rewrite Hd by reflexivity. simpl.
    replace (cameraRotationX p - 0 * 0.002) with (cameraRotationX p) by lra.
    rewrite clampPitch_inside by exact Hr. split; lra.
Qed.

End LookOnce.

(** What the devices give in the frame after a frame without events. *)
Lemma read_after_frame inp mob :
  let i1 := fst (Devices.read inp mob) in
  let i2 := fst (Devices.read (Input.resetMouseDelta inp)
                   (snd (Devices.read inp mob))) in
  CowboyPlayer.isMobile i2 = CowboyPlayer.isMobile i1
  /\ CowboyPlayer.pointerLocked i2 = CowboyPlayer.pointerLocked i1
  /\ CowboyPlayer.mouseDelta i2 = (0, 0)
  /\ (CowboyPlayer.isMobile i2 = true -> CowboyPlayer.cameraDelta i2 = (0, 0)).
Proof.
  cbv zeta. unfold Devices.read. cbn [fst snd].
  cbn [CowboyPlayer.isMobile CowboyPlayer.pointerLocked CowboyPlayer.mouseDelta
       CowboyPlayer.cameraDelta].
  unfold MobileInput.isMobileControlsActive.
  destruct (MobileInput.controlsShown mob) eqn:K.
  - split; [|split; [|split]]; try reflexivity.
    cbn. rewrite K. reflexivity.
  - split; [|split; [|split]]; try reflexivity.
    + exact K.
    + rewrite K. discriminate.
Qed.

(** X16.  A look input turns the camera once.  [animate] clears the mouse
    delta after the game's update, and on mobile the update itself clears
    the touch delta by reading it; so in two frames in a row, with no event
    of the devices in between, the second frame leaves the camera yaw and
    pitch exactly as the first frame left them. *)
Theorem look_input_is_consumed (time1 time2 : R) (e : Engine.t)
    (g : RanchGame.t) (w : World.t) :
  Engine.game e = Some g ->
  let r1 := Engine.animate time1 e w in
  let r2 := Engine.animate time2 (fst r1) (snd r1) in
  Input.getMouseDelta (Engine.input (fst r1)) = (0, 0)
  /\ (MobileInput.isMobileControlsActive (Engine.mobileInput e) = true ->
      MobileInput.cameraDelta (Engine.mobileInput (fst r1)) = (0, 0))
  /\ exists g1 g2,
       Engine.game (fst r1) = Some g1 /\ Engine.game (fst r2) = Some g2
       /\ CowboyPlayer.cameraRotationY (RanchGame.player g2)
          = CowboyPlayer.cameraRotationY (RanchGame.player g1)
       /\ CowboyPlayer.cameraRotationX (RanchGame.player g2)
          = CowboyPlayer.cameraRotationX (RanchGame.player g1).
Proof.
  intros Hg. cbv zeta.
  rewrite (animate_running time1 e g w Hg). cbn [fst snd].
  set (inp := Engine.input e). set (mob := Engine.mobileInput e).
  set (dt1 := Engine.deltaTime time1 (Engine.lastTime e)).
  set (i1 := fst (Devices.read inp mob)).
  destruct (ranch_update_player dt1 i1 g w) as [n1 P1].
  set (g1 := fst (RanchGame.update dt1 i1 g w)) in *.
  set (w1 := snd (RanchGame.update dt1 i1 g w)).
  rewrite (animate_running time2
             (Engine.mk time1 (Input.resetMouseDelta inp)
                (snd (Devices.read inp mob)) (Some g1)) g1 w1 eq_refl).
  cbn [fst snd Engine.game Engine.input Engine.mobileInput Engine.lastTime].
  set (dt2 := Engine.deltaTime time2 time1).
  set (i2 := fst (Devices.read (Input.resetMouseDelta inp)
                    (snd (Devices.read inp mob)))).
  destruct (ranch_update_player dt2 i2 g1 w1) as [n2 P2].
  set (g2 := fst (RanchGame.update dt2 i2 g1 w1)) in *.
  split; [reflexivity|].
  split.
  { intros Hm. unfold Devices.read. cbn [snd]. rewrite Hm. reflexivity. }
  exists g1, g2. split; [reflexivity|]. split; [reflexivity|].
  (* the angles after each frame *)
  destruct (hits_angles n1 (CowboyPlayer.update dt1 i1 (RanchGame.player g)))
    as [X1 Y1].
  destruct (hits_angles n2 (CowboyPlayer.update dt2 i2 (RanchGame.player g1)))
    as [X2 Y2].
  destruct (update_look dt1 i1 (RanchGame.player g)) as [LX1 LY1].
  destruct (update_look dt2 i2 (RanchGame.player g1)) as [LX2 LY2].
  rewrite <- P1 in X1, Y1. rewrite <- P2 in X2, Y2.
  rewrite LX1 in X1. rewrite LY1 in Y1. rewrite LX2 in X2. rewrite LY2 in Y2.
  rewrite X2, Y2.
  (* the second input carries no look *)
  destruct (read_after_frame inp mob) as (Hmob & Hlock & Hmouse & Htouch).
  fold i1 i2 in Hmob, Hlock, Hmouse, Htouch.
  destruct (CowboyPlayer.isMobile i2 || CowboyPlayer.pointerLocked i2) eqn:K.
  - (* a look is handled in both frames: the pitch is already clamped *)
    assert (Hr : - PI / 3 <= CowboyPlayer.cameraRotationX (RanchGame.player g1)
                 <= PI / 3).
    { rewrite X1. apply applyCamera_pitch. now rewrite <- Hmob, <- Hlock. }
    destruct (applyCamera_still i2 (RanchGame.player g1)) as [A B];
      [exact Htouch | intros _; exact Hmouse | exact Hr |].
    split; [exact B | exact A].
  - destruct (applyCamera_pitch i2 (RanchGame.player g1)) as [_ B].
    rewrite B by exact K. split; reflexivity.
Qed.

Lemma look_input_is_consumed_witness :
  let g := RanchGame.create [] [] [] [] [] in
  let e := Engine.mk 0 (Input.handle
                          (Input.handle Input.create (Input.PointerLockChange true))
                          (Input.MouseMove 10 5))
             (MobileInput.create 1280 720) (Some g) in
  let w := World.mk (fun _ => 0) 0 (fun _ => 0%Z) 0 in
  Input.getMouseDelta (Engine.input (fst (Engine.animate 16 e w))) = (0, 0).
Proof.
  cbv zeta.
  destruct (look_input_is_consumed 16 33
              (Engine.mk 0 (Input.handle
                              (Input.handle Input.create (Input.PointerLockChange true))
                              (Input.MouseMove 10 5))
                 (MobileInput.create 1280 720)
                 (Some (RanchGame.create [] [] [] [] [])))
              (RanchGame.create [] [] [] [] [])
              (World.mk (fun _ => 0) 0 (fun _ => 0%Z) 0))
    as (A & _).
  - reflexivity.
  - exact A.
Defined.

(* ================================================================== *)
(** * The platformer *)
(* ================================================================== *)

(** ** The player and the platforms *)

Section PlatformerPlayer.

Import Player.

Lemma overlaps_xz a b bd :
  vx a = vx b -> vz a = vz b -> overlaps a bd = overlaps b bd.
Proof. intros H1 H2. unfold overlaps. now rewrite H1, H2. Qed.

Lemma lands_iff p b :
  lands p b = true
  <-> vy (position p) - 0.3 <= vy (Platform.max b)
      /\ vy (Platform.min b) <= vy (position p) - 0.3
      /\ vy (velocity p) <= 0.
Proof.
  unfold lands, geb. cbv zeta.
  rewrite !andb_true_iff, !leb_true_iff. tauto.
Qed.

(** One turn of the loop of [checkCollisions]: nothing, or a landing. *)
Lemma collide_cases p pl :
  collide p pl = p
  \/ (overlaps (position p) (Platform.bounds pl) = true
      /\ lands p (Platform.bounds pl) = true
      /\ position (collide p pl)
         = CowboyPlayer.set_y (position p)
             (vy (Platform.max (Platform.bounds pl)) + 0.3)
      /\ velocity (collide p pl) = CowboyPlayer.set_y (velocity p) 0
      /\ onGround (collide p pl) = true).
Proof.
  unfold collide, Platform.getBounds. cbv zeta.
  destruct (overlaps (position p) (Platform.bounds pl)); [|now left].
  destruct (lands p (Platform.bounds pl)); [|now left].
  right. repeat split; reflexivity.
Qed.

Lemma checkCollisions_snoc l pl p :
  checkCollisions (l ++ [pl]) p = collide (checkCollisions l p) pl.
Proof. unfold checkCollisions. now rewrite fold_left_app. Qed.

(** The loop of [checkCollisions], from its first line to its last. *)
Lemma checkCollisions_spec platforms : forall p,
  let q := checkCollisions platforms p in
  vx (position q) = vx (position p)
  /\ vz (position q) = vz (position p)
  /\ vx (velocity q) = vx (velocity p)
  /\ vz (velocity q) = vz (velocity p)
  /\ vy (position p) <= vy (position q)
  /\ (onGround q = true ->
      vy (velocity q) = 0
      /\ exists pl, In pl platforms
           /\ overlaps (position q) (Platform.bounds pl) = true
           /\ vy (position q) = vy (Platform.max (Platform.bounds pl)) + 0.3)
  /\ (onGround q = false ->
      position q = position p /\ velocity q = velocity p)
  /\ (0 < vy (velocity p) -> onGround q = false).
Proof.
  induction platforms as [|pl l IH] using rev_ind; intros p; cbv zeta.
  - unfold checkCollisions. simpl.
    repeat split; try reflexivity; try lra; discriminate.
  - rewrite checkCollisions_snoc.
    specialize (IH p). cbv zeta in IH.
    set (s := checkCollisions l p) in *.
    destruct IH as (Hx & Hz & Hvx & Hvz & Hy & Hon & Hoff & Hup).
    destruct (collide_cases s pl) as [E | (Ho & Hl & Ep & Ev & Eg)].
    + rewrite E.
      split; [exact Hx|]. split; [exact Hz|]. split; [exact Hvx|].
      split; [exact Hvz|]. split; [exact Hy|].
      split; [|split; [exact Hoff | exact Hup]].
      intros G. destruct (Hon G) as (V & pl' & I & O & Y).
      split; [exact V|]. exists pl'. split; [|split; assumption].
      apply in_or_app. now left.
    + apply lands_iff in Hl. destruct Hl as (L1 & L2 & L3).
      rewrite Ep, Ev, Eg. simpl.
      split; [exact Hx|]. split; [exact Hz|]. split; [exact Hvx|].
      split; [exact Hvz|]. split; [lra|].
      split; [|split].
      * intros _. split; [reflexivity|].
        exists pl. split; [apply in_or_app; right; now left|].
        split; [|reflexivity].
        rewrite <- Ho. apply overlaps_xz; reflexivity.
      * discriminate.
      * intros Hr. exfalso.
        destruct (Hoff (Hup Hr)) as [_ Ev0]. rewrite Ev0 in L3. lra.
Qed.

(** Once on a platform, the rest of the loop keeps the player on one. *)
Lemma collide_grounded l : forall s,
  onGround s = true -> vy (velocity s) = 0 ->
  let q := fold_left collide l s in
  onGround q = true /\ vy (velocity q) = 0 /\ vy (position s) <= vy (position q).
Proof.
  induction l as [|pl l IH]; intros s G V; cbv zeta; simpl.
  - repeat split; try assumption. lra.
  - destruct (collide_cases s pl) as [E | (Ho & Hl & Ep & Ev & Eg)].
    + rewrite E. now apply IH.
    + apply lands_iff in Hl. destruct Hl as (L1 & L2 & L3).
      destruct (IH (collide s pl)) as (A & B & C);
        [exact Eg | rewrite Ev; reflexivity |].
      split; [exact A|]. split; [exact B|].
      rewrite Ep in C. simpl in C. lra.
Qed.

Lemma player_applyMovement_y i p :
  vy (position (applyMovement i p)) = vy (position p)
  /\ velocity (applyMovement i p) = velocity p
  /\ onGround (applyMovement i p) = onGround p.
Proof.
  unfold applyMovement. cbv zeta.
  destruct (gtb _ 0); repeat split; reflexivity.
Qed.

Lemma player_applyCamera_kept i p :
  position (applyCamera i p) = position p
  /\ velocity (applyCamera i p) = velocity p
  /\ onGround (applyCamera i p) = onGround p.
Proof.
  unfold applyCamera.
  destruct (CowboyPlayer.isMobile i); [|destruct (CowboyPlayer.pointerLocked i)];
    repeat split; reflexivity.
Qed.

Lemma player_handleInput_released i p :
  CowboyPlayer.shouldJump i = false ->
  vy (position (handleInput i p)) = vy (position p)
  /\ velocity (handleInput i p) = velocity p.
Proof.
  intros H. unfold handleInput.
  destruct (player_applyCamera_kept i (applyJump i (applyMovement i p)))
    as (A & B & _).
  rewrite A, B. unfold applyJump. rewrite H. simpl.
  destruct (player_applyMovement_y i p) as (C & D & _). now rewrite C, D.
Qed.

Lemma applyPhysics_floor p : -10 <= vy (position (applyPhysics p)).
Proof.
  unfold applyPhysics. cbv zeta. case_cmp; simpl in *; lra.
Qed.

Lemma update_floor i platforms p : -10 <= vy (position (update i platforms p)).
Proof.
  unfold update.
  destruct (checkCollisions_spec platforms (applyPhysics (handleInput i p)))
    as (_ & _ & _ & _ & Hy & _).
  pose proof (applyPhysics_floor (handleInput i p)). lra.
Qed.

End PlatformerPlayer.

(** X17.  The platformer's player never ends a frame below [y = -10]:
    [applyPhysics] puts a player who fell below it back at the spawn point
    [(0, 5, 0)] with no velocity, and [checkCollisions] only ever lifts.
    So in every frame, from any state, with any platforms and input, the
    height after [update] is at least -10; this holds for every run from
    the constructor's state; and in a frame whose fall crosses -10 the
    player ends over the origin at height 5 or more. *)
Theorem player_never_falls_out (platforms : list Platform.t) :
  (forall i p, -10 <= vy (Player.position (Player.update i platforms p)))
  /\ (forall inputs,
        -10 <= vy (Player.position (Player.run inputs platforms Player.create)))
  /\ (forall i p,
        let p1 := Player.handleInput i p in
        vy (Player.position p1) + (vy (Player.velocity p1) + Player.gravity) < -10 ->
        let q := Player.update i platforms p in
        vx (Player.position q) = 0 /\ vz (Player.position q) = 0
        /\ 5 <= vy (Player.position q)).
Proof.
  split; [intros; apply update_floor|]. split.
  - assert (G : forall inputs p, -10 <= vy (Player.position p) ->
               -10 <= vy (Player.position (Player.run inputs platforms p))).
    { induction inputs as [|i rest IH]; intros p H; simpl; [exact H|].
      apply IH, update_floor. }
    intros inputs. apply G. simpl. lra.
  - intros i p p1 H q. unfold q, Player.update. fold p1.
    destruct (checkCollisions_spec platforms (Player.applyPhysics p1))
      as (Hx & Hz & _ & _ & Hy & _).
    rewrite Hx, Hz.
    assert (E : Player.position (Player.applyPhysics p1) = vec3 0 5 0).
    { unfold Player.applyPhysics. cbv zeta.
      replace (ltb _ (-10)) with true; [reflexivity|].
      symmetry. apply ltb_true_iff. simpl. exact H. }
    rewrite E in *. simpl in *. repeat split; try reflexivity. exact Hy.
Qed.


(** X19.  Resting is stable on a platform 0.02 thick or more.  A player
    who rests on top of a platform of the list whose top lies between -10
    and 1000, does not jump, and after the frame's move still overlaps
    that platform horizontally, is on the ground again after [update],
    with no vertical velocity; if every other box of the list has its top
    at least 0.02 lower, the player rests on the same top.  (Gravity sinks
    the player 0.015 into the box each frame before the landing test lifts
    them back; the margins of 0.005 and the range of heights leave room
    for the rounding of the code's arithmetic, for which a box exactly
    0.015 thick is too thin.) *)
Theorem rest_is_stable (i : CowboyPlayer.Input) (platforms : list Platform.t)
    (pl : Platform.t) (p : Player.t) :
  let b := Platform.bounds pl in
  In pl platforms ->
  Player.restsOn p b ->
  CowboyPlayer.shouldJump i = false ->
  0.02 <= vy (Platform.max b) - vy (Platform.min b) ->
  -10 <= vy (Platform.max b) <= 1000 ->
  Player.overlaps (Player.position (Player.handleInput i p)) b = true ->
  let q := Player.update i platforms p in
  Player.onGround q = true
  /\ vy (Player.velocity q) = 0
  /\ ((forall pl', In pl' platforms ->
         Platform.bounds pl' = b
         \/ vy (Platform.max (Platform.bounds pl')) + 0.02 <= vy (Platform.max b)) ->
      Player.restsOn q b).
Proof.
  intros b Hin (G & V & Y) Hj Hthick [Hfloor Hcap] Hover q.
  destruct (player_handleInput_released i p Hj) as [Hy1 Hv1].
  set (p1 := Player.handleInput i p) in *.
  (* after gravity *)
  assert (Hg : Player.gravity = - 0.015) by (unfold Player.gravity; lra).
  assert (E : Player.applyPhysics p1
              = Player.set_position
                  (Player.set_velocity p1
                     (CowboyPlayer.set_y (Player.velocity p1)
                        (vy (Player.velocity p1) + Player.gravity)))
                  (CowboyPlayer.set_y (Player.position p1)
                     (vy (Player.position p1)
                      + (vy (Player.velocity p1) + Player.gravity)))).
  { unfold Player.applyPhysics. cbv zeta.
    replace (ltb _ (-10)) with false; [reflexivity|].
    symmetry. apply ltb_false_iff. simpl. rewrite Hy1, Hv1, V, Y, Hg. lra. }
  set (s0 := Player.applyPhysics p1) in *.
  assert (Ys0 : vy (Player.position s0) = vy (Platform.max b) + 0.285).
  { rewrite E. simpl. rewrite Hy1, Hv1, V, Y, Hg. lra. }
  assert (Vs0 : vy (Player.velocity s0) = - 0.015).
  { rewrite E. simpl. rewrite Hv1, V, Hg. lra. }
  assert (Os0 : Player.overlaps (Player.position s0) b = true).
  { rewrite <- Hover. apply overlaps_xz; rewrite E; reflexivity. }
  (* the loop up to the platform, the platform, the rest of the loop *)
  destruct (in_split pl platforms Hin) as (l1 & l2 & Epl).
  assert (Eq : q = fold_left Player.collide l2
                     (Player.collide (Player.checkCollisions l1 s0) pl)).
  { unfold q, Player.update. fold p1. fold s0. rewrite Epl.
    unfold Player.checkCollisions. rewrite fold_left_app. reflexivity. }
  destruct (checkCollisions_spec l1 s0)
    as (Hx & Hz & _ & _ & Hy & Hon & Hoff & _).
  set (s1 := Player.checkCollisions l1 s0) in *.
  assert (Os1 : Player.overlaps (Player.position s1) b = true).
  { rewrite <- Os0. apply overlaps_xz; assumption. }
  assert (S2 : Player.onGround (Player.collide s1 pl) = true
               /\ vy (Player.velocity (Player.collide s1 pl)) = 0
               /\ vy (Platform.max b) + 0.3
                  <= vy (Player.position (Player.collide s1 pl))).
  { assert (Vs1 : vy (Player.velocity s1) <= 0).
    { destruct (Player.onGround s1) eqn:G1.
      - destruct (Hon eq_refl) as [V1 _]. lra.
      - destruct (Hoff eq_refl) as [_ V1]. rewrite V1. lra. }
    unfold Player.collide, Platform.getBounds. cbv zeta. fold b.
    rewrite Os1.
    destruct (Player.lands s1 b) eqn:L.
    - simpl. repeat split; try reflexivity; lra.
    - destruct (Player.onGround s1) eqn:G1.
      + destruct (Hon eq_refl) as [V1 _].
        split; [reflexivity|]. split; [exact V1|].
        destruct (Rle_or_lt (vy (Player.position s1) - 0.3) (vy (Platform.max b)))
          as [Hle | Hgt]; [|lra].
        exfalso.
        assert (L' : Player.lands s1 b = true)
          by (apply lands_iff; repeat split; lra).
        congruence.
      + exfalso. destruct (Hoff eq_refl) as [P1 V1].
        assert (L' : Player.lands s1 b = true).
        { apply lands_iff. rewrite P1, V1. repeat split; lra. }
        congruence. }
  destruct S2 as (G2 & V2 & Y2).
  destruct (collide_grounded l2 (Player.collide s1 pl) G2 V2) as (G3 & V3 & Y3).
  rewrite <- Eq in G3, V3, Y3.
  split; [exact G3|]. split; [exact V3|].
  intros Htop. split; [exact G3|]. split; [exact V3|].
  destruct (checkCollisions_spec platforms s0) as (_ & _ & _ & _ & _ & Hq & _).
  fold b.
  change (Player.checkCollisions platforms s0) with q in Hq.
  destruct (Hq G3) as (_ & pl' & I' & _ & Yq).
  destruct (Htop pl' I') as [Eb | Hlow].
  - rewrite Yq, Eb. reflexivity.
  - lra.
Qed.

Lemma rest_is_stable_witness :
  let pl := Platform.create (Platform.mkConfig (vec3 0 0 0) (vec3 10 1 10)) in
  let low := Platform.create (Platform.mkConfig (vec3 0 (-2) 0) (vec3 100 1 100)) in
  let p := Player.mk (vec3 0 0.8 0) (vec3 0 0 0) 0 true 0 0.3 [] 0 0.25 0.25 in
  Player.restsOn (Player.update Run.idle [low; pl] p) (Platform.bounds pl).
Proof.
  cbv zeta.
  assert (Q : Num.length (CowboyPlayer.moveDirection Run.idle) = 0).
  { unfold Num.length. simpl.
    replace (0 * 0 + 0 * 0 + 0 * 0) with 0 by lra. apply sqrt_0. }
  destruct (rest_is_stable Run.idle
           [Platform.create (Platform.mkConfig (vec3 0 (-2) 0) (vec3 100 1 100));
            Platform.create (Platform.mkConfig (vec3 0 0 0) (vec3 10 1 10))]
           (Platform.create (Platform.mkConfig (vec3 0 0 0) (vec3 10 1 10)))
           (Player.mk (vec3 0 0.8 0) (vec3 0 0 0) 0 true 0 0.3 [] 0 0.25 0.25))
    as (_ & _ & A).
  - right. now left.
  - unfold Player.restsOn. simpl. repeat split; lra.
  - reflexivity.
  - simpl. lra.
  - simpl. lra.
  - unfold Player.handleInput, Player.applyJump, Player.applyCamera,
      Player.applyMovement. cbv zeta. rewrite Q.
    replace (gtb 0 0) with false by (symmetry; cmp_false).
    simpl. unfold Player.overlaps, Player.playerRadius. simpl.
    repeat (apply andb_true_intro; split); cmp_true.
  - apply A. intros pl' [E | [E | []]]; subst pl'.
    + right. simpl. lra.
    + left. reflexivity.
Defined.

(** A platform thinner than the fall of one frame does not hold the
    player: from rest on a box 0.01 thick the next frame ends in the air. *)
Example thin_platform_does_not_hold :
  let pl := Platform.create (Platform.mkConfig (vec3 0 0 0) (vec3 10 0.01 10)) in
  let p := Player.mk (vec3 0 0.305 0) (vec3 0 0 0) 0 true 0 0.3 [] 0 0.25 0.25 in
  Player.restsOn p (Platform.bounds pl)
  /\ Player.onGround (Player.update Run.idle [pl] p) = false.
Proof.
  cbv zeta. split.
  - unfold Player.restsOn. simpl. repeat split; lra.
  - assert (Q : Num.length (CowboyPlayer.moveDirection Run.idle) = 0).
    { unfold Num.length. simpl.
      replace (0 * 0 + 0 * 0 + 0 * 0) with 0 by lra. apply sqrt_0. }
    unfold Player.update, Player.handleInput, Player.applyJump,
      Player.applyCamera, Player.applyMovement. cbv zeta. rewrite Q.
    replace (gtb 0 0) with false by (symmetry; cmp_false).
    simpl. unfold Player.applyPhysics. cbv zeta. simpl.
    replace (ltb _ (-10)) with false
      by (symmetry; apply ltb_false_iff; unfold Player.gravity; lra).
    unfold Player.checkCollisions. simpl.
    unfold Player.collide, Platform.getBounds. cbv zeta. simpl.
    destruct (Player.overlaps _ _); [|reflexivity].
    replace (Player.lands _ _) with false; [reflexivity|].
    symmetry. apply not_true_is_false. intros L.
    apply lands_iff in L. simpl in L. unfold Player.gravity in L. lra.
Qed.

(** ** Ingredients *)

Section Ingredients.

Import Ingredient.

Lemma update_collected dt it : collected (update dt it) = collected it.
Proof.
  unfold update. destruct (collected it) eqn:E; simpl; [exact E | reflexivity].
Qed.

Lemma update_done dt it : collected it = true -> update dt it = it.
Proof. intros H. unfold update. now rewrite H. Qed.

Lemma checkCollision_done pos r it :
  collected it = true -> checkCollision pos r it = (false, it).
Proof. intros H. unfold checkCollision. now rewrite H. Qed.

Lemma collections_cons b bs :
  collections (b :: bs) = ((if b then 1 else 0) + collections bs)%nat.
Proof.
  unfold collections. simpl.
  destruct b; destruct (bool_dec _ _); try congruence; reflexivity.
Qed.

Lemma calls_check pos r rest it :
  calls (CheckCollision pos r :: rest) it
  = (fst (checkCollision pos r it)
       :: fst (calls rest (snd (checkCollision pos r it))),
     snd (calls rest (snd (checkCollision pos r it)))).
Proof.
  simpl. destruct (checkCollision pos r it) as [b it1].
  simpl. destruct (calls rest it1); reflexivity.
Qed.

(** A collected ingredient answers [false] for ever and does not change. *)
Lemma calls_done cs : forall it,
  collected it = true ->
  collections (fst (calls cs it)) = 0%nat /\ snd (calls cs it) = it.
Proof.
  induction cs as [|c rest IH]; intros it H; [split; reflexivity|].
  destruct c as [dt | pos r].
  - simpl. rewrite update_done by exact H. now apply IH.
  - rewrite calls_check, checkCollision_done by exact H.
    cbn [fst snd]. rewrite collections_cons.
    destruct (IH it H) as [A B]. rewrite A. split; [reflexivity | exact B].
Qed.

Lemma calls_pending cs : forall it,
  collected it = false ->
  let r := calls cs it in
  (collections (fst r) <= 1)%nat
  /\ (collections (fst r) = 1%nat <-> collected (snd r) = true)
  /\ (collected (snd r) = true -> inScene (snd r) = false).
Proof.
  induction cs as [|c rest IH]; intros it H; cbv zeta.
  - simpl. split; [apply Nat.le_0_l|]. split; [|congruence].
    split; [discriminate | congruence].
  - destruct c as [dt | pos r].
    + simpl. apply IH. now rewrite update_collected.
    + rewrite calls_check. cbn [fst snd]. rewrite collections_cons.
      unfold checkCollision. rewrite H. cbv zeta.
      destruct (ltb _ _); cbn [fst snd].
      * destruct (calls_done rest (collect it) eq_refl) as [A B].
        rewrite A, B.
        split; [apply Nat.le_refl|].
        split; [split; reflexivity | reflexivity].
      * exact (IH it H).
Qed.





End Ingredients.

(** X20.  An ingredient is collected once.  In any sequence of [update]
    and [checkCollision] calls on an ingredient, with any player positions
    and radii, at most one [checkCollision] answers [true]; for an
    ingredient not collected at the start, one does exactly when the
    ingredient ends up collected, and a collected ingredient is out of the
    scene; once collected, every further call leaves it as it is. *)
Theorem ingredient_collected_once (cs : list Ingredient.Call) (it : Ingredient.t) :
  let r := Ingredient.calls cs it in
  (Ingredient.collections (fst r) <= 1)%nat
  /\ (Ingredient.collected it = false ->
      (Ingredient.collections (fst r) = 1%nat
       <-> Ingredient.collected (snd r) = true)
      /\ (Ingredient.collected (snd r) = true ->
          Ingredient.inScene (snd r) = false))
  /\ (Ingredient.collected it = true ->
      Ingredient.collections (fst r) = 0%nat /\ snd r = it).
Proof.
  cbv zeta. destruct (Ingredient.collected it) eqn:E.
  - destruct (calls_done cs it E) as [A B].
    split; [lia|]. split; [discriminate|]. intros _. split; assumption.
  - destruct (calls_pending cs it E) as (A & B & C).
    split; [exact A|]. split; [intros _; split; assumption | discriminate].
Qed.


(** ** The stack of ingredients *)

Section Stack.

Import Player.

Lemma total_snoc l h : total (l ++ [h]) = total l + h.
Proof.
  unfold total. induction l as [|x l IH]; simpl; [lra|]. rewrite IH. lra.
Qed.

Lemma stack_snoc l h p : stack (l ++ [h]) p = addIngredient h (stack l p).
Proof. unfold stack. now rewrite fold_left_app. Qed.

Lemma stack_height l :
  ingredientStackHeight (stack l create) = total l
  /\ List.length (collectedIngredients (stack l create)) = List.length l.
Proof.
  induction l as [|h l IH] using rev_ind; [split; reflexivity|].
  destruct IH as [A B].
  rewrite stack_snoc, total_snoc. simpl.
  rewrite A. split; [reflexivity|].
  rewrite !length_app, B. reflexivity.
Qed.

End Stack.

(** X22.  Ingredients stack without gap or overlap.  After
    [addIngredient] has been called with the heights [heights], in this
    order, on a new player: the stack is as high as the heights sum to;
    the [k]-th ingredient is centred half its height above the sum of the
    heights before it, so each one starts where the one below ends; and
    the top bun sits 0.1 and the indicator 0.15 above the stack once there
    is at least one ingredient. *)
Theorem ingredients_stack_up (heights : list R) (k : nat) :
  (k < List.length heights)%nat ->
  let p := Player.stack heights Player.create in
  Player.ingredientStackHeight p = Player.total heights
  /\ List.length (Player.collectedIngredients p) = List.length heights
  /\ nth k (Player.collectedIngredients p) 0
     = Player.total (firstn k heights) + nth k heights 0 / 2
  /\ Player.bunTopY p = Player.total heights + 0.1
  /\ Player.indicatorY p = Player.total heights + 0.15.
Proof.
  revert k. induction heights as [|h l IH] using rev_ind; intros k Hk; cbv zeta.
  - simpl in Hk. lia.
  - destruct (stack_height l) as [A B].
    destruct (stack_height (l ++ [h])) as [A' B'].
    split; [exact A'|]. split; [exact B'|].
    rewrite stack_snoc. simpl. rewrite A, total_snoc.
    split; [|split; reflexivity].
    rewrite length_app in Hk. simpl in Hk.
    destruct (Nat.eq_dec k (List.length l)) as [E | NE].
    + subst k.
      rewrite <- B at 1. rewrite nth_middle.
      rewrite firstn_app, Nat.sub_diag, firstn_all. simpl. rewrite app_nil_r.
      rewrite nth_middle. reflexivity.
    + assert (Hlt : (k < List.length l)%nat) by lia.
      rewrite app_nth1 by (rewrite B; exact Hlt).
      destruct (IH k Hlt) as (_ & _ & N & _).
      rewrite N.
      rewrite firstn_app.
      replace (k - List.length l)%nat with 0%nat by lia.
      simpl. rewrite app_nil_r.
      rewrite app_nth1 by exact Hlt. reflexivity.
Qed.

Lemma ingredients_stack_up_witness :
  let p := Player.stack [Ingredient.configHeight Ingredient.LETTUCE;
                         Ingredient.configHeight Ingredient.TOMATO]
             Player.create in
  nth 1 (Player.collectedIngredients p) 0
  = Player.total (firstn 1 [Ingredient.configHeight Ingredient.LETTUCE;
                            Ingredient.configHeight Ingredient.TOMATO])
    + nth 1 [Ingredient.configHeight Ingredient.LETTUCE;
             Ingredient.configHeight Ingredient.TOMATO] 0 / 2.
Proof.
  cbv zeta.
  destruct (ingredients_stack_up
              [Ingredient.configHeight Ingredient.LETTUCE;
               Ingredient.configHeight Ingredient.TOMATO] 1)
    as (_ & _ & N & _).
  - simpl. lia.
  - exact N.
Defined.
